(** * HyC-LoRA: shape adapters, quantized LoRA compute, fused RMS
      normalization and the answer extraction of the evaluation harness.

    Shallow embedding of
      - [src/models/utils/compute_utils.py]
      - [src/operators/rmsnorm_kernels.py]
      - [src/utils/math_10k/compute_metrics.py]

    Conventions.
    - A torch tensor is its shape together with its elements in logical
      (row-major) order; strides and views are not observable by the
      functions modelled here, so [reshape] only changes the shape and
      [transpose] permutes the element list.
    - The LoRA and head-shape functions are generic in the element
      type with its addition and multiplication ([Scalar]); nothing is
      assumed of them unless a statement asks for the laws of exact
      arithmetic ([Exact]), which the integers and the reals have and
      the IEEE formats ([binary32_Scalar]) have not.  The normalization
      kernels work over the reals.  Casts between storage precisions
      ([.to(dtype)]) are the identity.
    - A raised Python exception is a value [Raise e] of [result]. *)

From Stdlib Require String Ascii QArith Qabs Permutation SpecFloat.
From Stdlib Require Import List Arith ZArith Zbitwise Lia Bool.
From Stdlib Require Import Reals Lra.
Import ListNotations.

(* ================================================================== *)
(** * Exceptions *)
(* ================================================================== *)

(** What a [RuntimeError] complains about. *)
Inductive failure : Type :=
| InvalidShape        (* "shape '[..]' is invalid for input of size n" *)
| AmbiguousInfer      (* "cannot reshape tensor of 0 elements into shape
                          [..] because the unspecified dimension size -1
                          can be any value and is ambiguous" *)
| OnlyOneInfer        (* "only one dimension can be inferred" *)
| MatmulMismatch      (* "mat1 and mat2 shapes cannot be multiplied" *)
| NotAMatrix          (* "t() expects a tensor with <= 2 dimensions",
                          "tensor.mT is only supported on matrices or
                          batches of matrices" *)
| BroadcastMismatch   (* "The size of tensor a must match the size of
                          tensor b at non-singleton dimension" *)
| FeatureDimTooLarge  (* "This layer norm doesn't support feature dim
                          >= 64KB." *).

Inductive error : Type :=
| ValueError          (* unpacking a shape of the wrong rank *)
| ZeroDivisionError   (* integer division or modulo by zero *)
| IndexError          (* dimension out of range *)
| RuntimeError (why : failure).

Inductive result (A : Type) : Type :=
| Ok (a : A)
| Raise (e : error).

Arguments Ok {A} a.
Arguments Raise {A} e.

Definition bind {A B : Type} (m : result A) (k : A -> result B) : result B :=
  match m with
  | Ok a => k a
  | Raise e => Raise e
  end.

Notation "x <- m ;; k" := (bind m (fun x => k))
  (at level 61, m at next level, right associativity).

(* ================================================================== *)
(** * Scalars *)
(* ================================================================== *)

(** The element type of a tensor with the operations the modelled code
    uses on it. *)
Class Scalar (A : Type) : Type := {
  zero : A;
  one : A;
  add : A -> A -> A;
  mul : A -> A -> A
}.

(** The laws of exact arithmetic.  They hold for integer tensors and
    for the reals; floating-point addition and multiplication round,
    and break associativity and distributivity. *)
Class Exact (A : Type) `{Scalar A} : Prop := {
  add_0_l : forall a, add zero a = a;
  add_0_r : forall a, add a zero = a;
  add_comm : forall a b, add a b = add b a;
  add_assoc : forall a b c, add a (add b c) = add (add a b) c;
  mul_0_l : forall a, mul zero a = zero;
  mul_1_l : forall a, mul one a = a;
  mul_add_distr_r : forall a b c, mul (add a b) c = add (mul a c) (mul b c)
}.

#[export] Instance Z_Scalar : Scalar Z :=
  {| zero := 0%Z; one := 1%Z; add := Z.add; mul := Z.mul |}.

#[export] Instance Z_Exact : Exact Z.
Proof. split; intros; cbv [add mul zero one Z_Scalar]; lia. Qed.

#[export] Instance R_Scalar : Scalar R :=
  {| zero := 0%R; one := 1%R; add := Rplus; mul := Rmult |}.

#[export] Instance R_Exact : Exact R.
Proof. split; intros; cbv [add mul zero one R_Scalar]; lra. Qed.

(** torch.float32: IEEE 754 binary32 (24 bits of precision), every
    operation rounded to nearest, ties to even. *)
Definition binary32 : Type := SpecFloat.spec_float.

#[export] Instance binary32_Scalar : Scalar binary32 :=
  {| zero := SpecFloat.S754_zero false;
     one := SpecFloat.S754_finite false 8388608 (-23);
     add := SpecFloat.SFadd 24 128;
     mul := SpecFloat.SFmul 24 128 |}.

(** The image of a Python integer in the scalars ([n * x] in torch). *)
Fixpoint of_nat {A : Type} `{Scalar A} (n : nat) : A :=
  match n with
  | O => zero
  | S k => add one (of_nat k)
  end.

(** Sum of a list of scalars ([sum] along an axis). *)
Definition sum_list {A : Type} `{Scalar A} (l : list A) : A :=
  fold_right add zero l.

(* ================================================================== *)
(** * Tensors *)
(* ================================================================== *)

Record tensor (A : Type) : Type := Tensor {
  shape : list nat;
  data : list A
}.

Arguments Tensor {A} shape data.
Arguments shape {A} t.
Arguments data {A} t.

Definition numel (s : list nat) : nat := fold_right Nat.mul 1 s.

(** A tensor holds as many elements as its shape says. *)
Definition wf {A : Type} (t : tensor A) : Prop :=
  length (data t) = numel (shape t).

(** [tabulate n f] is the element list [f 0; ...; f (n-1)]. *)
Definition tabulate {A : Type} (n : nat) (f : nat -> A) : list A :=
  map f (seq 0 n).

(** Element at a flat (row-major) position. *)
Definition at_ {A : Type} `{Scalar A} (l : list A) (p : nat) : A :=
  nth p l zero.

(** ** reshape *)

(** An entry of the target shape of [reshape]: a size, or [-1]. *)
Inductive dim : Type :=
| Dim (n : nat)
| Infer.

Definition known_size (target : list dim) : nat :=
  fold_right (fun d acc => match d with Dim n => n * acc | Infer => acc end)
             1 target.

Definition count_infer (target : list dim) : nat :=
  length (filter (fun d => match d with Infer => true | Dim _ => false end)
                 target).

Definition fill_infer (target : list dim) (v : nat) : list nat :=
  map (fun d => match d with Dim n => n | Infer => v end) target.

(** torch's [infer_size]: the shape [reshape] gives a tensor of [n]
    elements.  With a [-1] entry and a zero product of the other entries
    the inferred size is ambiguous and torch raises. *)
Definition infer_size (target : list dim) (n : nat) : result (list nat) :=
  let newsize := known_size target in
  match count_infer target with
  | 0 =>
      if n =? newsize then Ok (fill_infer target 0)
      else Raise (RuntimeError InvalidShape)
  | 1 =>
      if (n =? newsize) || ((0 <? newsize) && (n mod newsize =? 0)) then
        if newsize =? 0 then Raise (RuntimeError AmbiguousInfer)
        else Ok (fill_infer target (n / newsize))
      else Raise (RuntimeError InvalidShape)
  | _ => Raise (RuntimeError OnlyOneInfer)
  end.

(** [x.reshape(target)]: same elements in the same logical order. *)
Definition reshape {A : Type} (x : tensor A) (target : list dim)
  : result (tensor A) :=
  s <- infer_size target (numel (shape x)) ;;
  Ok (Tensor s (data x)).

(** ** transpose(1, 2) *)

(** Flat position, in a tensor of shape [(b, n1, n2, d)], of the element
    that [transpose(1, 2)] puts at flat position [p] of its result of
    shape [(b, n2, n1, d)]. *)
Definition transpose12_index (n1 n2 d p : nat) : nat :=
  let l := p mod d in
  let q := p / d in
  let j := q mod n1 in
  let q' := q / n1 in
  let k := q' mod n2 in
  let i := q' / n2 in
  ((i * n1 + j) * n2 + k) * d + l.

(** [x.transpose(1, 2)] for a tensor of rank at least 3; the trailing
    axes form one block of [numel rest] elements. *)
Definition transpose12 {A : Type} `{Scalar A} (x : tensor A)
  : result (tensor A) :=
  match shape x with
  | b :: n1 :: n2 :: rest =>
      let d := numel rest in
      Ok (Tensor (b :: n2 :: n1 :: rest)
                 (tabulate (b * n2 * n1 * d)
                    (fun p => at_ (data x) (transpose12_index n1 n2 d p))))
  | _ => Raise IndexError
  end.

(* ================================================================== *)
(** * compute_utils.py: head-shape adapters *)
(* ================================================================== *)

(** [hidden_to_head_shape(x, num_heads)] *)
Definition hidden_to_head_shape {A : Type} `{Scalar A}
  (x : tensor A) (num_heads : nat) : result (tensor A) :=
  match shape x with
  | [bsz; seq_len; hidden_dim] =>
      match num_heads with
      | O => Raise ZeroDivisionError
      | _ =>
          let head_dim := hidden_dim / num_heads in
          y <- reshape x [Dim bsz; Dim seq_len; Dim num_heads; Dim head_dim] ;;
          transpose12 y
      end
  | _ => Raise ValueError
  end.

(** [head_to_hidden_shape(x)] *)
Definition head_to_hidden_shape {A : Type} `{Scalar A}
  (x : tensor A) : result (tensor A) :=
  match shape x with
  | [bsz; _; seq_len; _] =>
      y <- transpose12 x ;;
      reshape y [Dim bsz; Dim seq_len; Infer]
  | _ => Raise ValueError
  end.

(* ================================================================== *)
(** * compute_utils.py: key/value head repetition *)
(* ================================================================== *)

(** [x[:, :, None, :, :].expand(batch, kv, n_rep, slen, head_dim)]:
    every block of [blk = slen * head_dim] elements is repeated [n_rep]
    times. *)
Definition expand_heads {A : Type} `{Scalar A}
  (batch kv n_rep slen head_dim : nat) (x : list A) : list A :=
  let blk := slen * head_dim in
  tabulate (batch * kv * n_rep * blk)
    (fun p => at_ x ((p / (n_rep * blk)) * blk + p mod blk)).

(** [repeat_kv(hidden_states, n_rep)] *)
Definition repeat_kv {A : Type} `{Scalar A}
  (hidden_states : tensor A) (n_rep : nat) : result (tensor A) :=
  match shape hidden_states with
  | [batch; num_key_value_heads; slen; head_dim] =>
      if n_rep =? 1 then Ok hidden_states
      else
        let expanded :=
          Tensor [batch; num_key_value_heads; n_rep; slen; head_dim]
                 (expand_heads batch num_key_value_heads n_rep slen head_dim
                               (data hidden_states)) in
        reshape expanded
          [Dim batch; Dim (num_key_value_heads * n_rep); Dim slen; Dim head_dim]
  | _ => Raise ValueError
  end.

(** [t.sum(dim=2)] on a tensor of shape [(b, kv, n, s, d)]. *)
Definition sum_dim2 {A : Type} `{Scalar A} (x : tensor A) : result (tensor A) :=
  match shape x with
  | b :: kv :: n :: rest =>
      let blk := numel rest in
      Ok (Tensor (b :: kv :: rest)
            (tabulate (b * kv * blk)
               (fun p =>
                  sum_list
                    (tabulate n
                       (fun r => at_ (data x)
                                   (((p / blk) * n + r) * blk + p mod blk))))))
  | _ => Raise IndexError
  end.

(** [repeat_kv_backward(grad_output, n_rep)] *)
Definition repeat_kv_backward {A : Type} `{Scalar A}
  (grad_output : tensor A) (n_rep : nat) : result (tensor A) :=
  match shape grad_output with
  | [batch; expand_num_key_value_heads; slen; head_dim] =>
      match n_rep with
      | O => Raise ZeroDivisionError
      | _ =>
          let num_key_value_heads := expand_num_key_value_heads / n_rep in
          g <- reshape grad_output
                 [Dim batch; Dim num_key_value_heads; Dim n_rep;
                  Dim slen; Dim head_dim] ;;
          sum_dim2 g
      end
  | _ => Raise ValueError
  end.

(** [n * x] *)
Definition scale {A : Type} `{Scalar A} (n : nat) (x : tensor A) : tensor A :=
  Tensor (shape x) (map (mul (of_nat n)) (data x)).

(* ================================================================== *)
(** * Tensor algebra used by the LoRA functions *)
(* ================================================================== *)

(** ** Multi-indices and broadcasting *)

(** Row-major coordinates of a flat position, and back. *)
Fixpoint unravel (s : list nat) (p : nat) : list nat :=
  match s with
  | [] => []
  | _ :: rest => (p / numel rest) :: unravel rest (p mod numel rest)
  end.

Fixpoint ravel (s idx : list nat) : nat :=
  match s, idx with
  | _ :: rest, i :: idx' => i * numel rest + ravel rest idx'
  | _, _ => 0
  end.

(** torch's broadcasting of two shapes, aligned on the trailing axis;
    the arguments and the result are reversed shapes. *)
Fixpoint broadcast_rev (r1 r2 : list nat) : result (list nat) :=
  match r1, r2 with
  | [], r => Ok r
  | r, [] => Ok r
  | x :: r1', y :: r2' =>
      rest <- broadcast_rev r1' r2' ;;
      if x =? y then Ok (x :: rest)
      else if x =? 1 then Ok (y :: rest)
      else if y =? 1 then Ok (x :: rest)
      else Raise (RuntimeError BroadcastMismatch)
  end.

Definition broadcast (s1 s2 : list nat) : result (list nat) :=
  r <- broadcast_rev (rev s1) (rev s2) ;; Ok (rev r).

(** Flat position, in an operand of shape [s], of the element that is
    broadcast to flat position [p] of a result of shape [res]: leading
    axes the operand lacks are dropped, axes of size 1 are pinned to 0. *)
Definition bcast_at (s res : list nat) (p : nat) : nat :=
  let idx := skipn (length res - length s) (unravel res p) in
  ravel s (map (fun ni => if fst ni =? 1 then 0 else snd ni) (combine s idx)).

(** [a + b] *)
Definition tadd {A : Type} `{Scalar A} (a b : tensor A) : result (tensor A) :=
  s <- broadcast (shape a) (shape b) ;;
  Ok (Tensor s
        (tabulate (numel s)
           (fun p => add (at_ (data a) (bcast_at (shape a) s p))
                         (at_ (data b) (bcast_at (shape b) s p))))).

Definition shape_eqb (s1 s2 : list nat) : bool :=
  if list_eq_dec Nat.eq_dec s1 s2 then true else false.

(** [a += b]: the broadcast shape has to be the shape of [a]. *)
Definition iadd {A : Type} `{Scalar A} (a b : tensor A) : result (tensor A) :=
  c <- tadd a b ;;
  if shape_eqb (shape c) (shape a) then Ok c
  else Raise (RuntimeError BroadcastMismatch).

(** ** Transposition of matrices *)

(** Flat position in a tensor of shape [(.., m, n)] of the element at
    flat position [p] of its transpose of shape [(.., n, m)]. *)
Definition swap_last2_index (m n p : nat) : nat :=
  let i := p mod m in
  let j := (p / m) mod n in
  let bi := p / m / n in
  (bi * m + i) * n + j.

(** The leading axes and the last two sizes of a shape. *)
Definition split_last2 (s : list nat) : option (list nat * nat * nat) :=
  match rev s with
  | n :: m :: lead => Some (rev lead, m, n)
  | _ => None
  end.

(** [x.mT]: the last two axes swapped; needs rank 2 at least. *)
Definition mT {A : Type} `{Scalar A} (x : tensor A) : result (tensor A) :=
  match split_last2 (shape x) with
  | Some (lead, m, n) =>
      Ok (Tensor (lead ++ [n; m])
            (tabulate (numel lead * n * m)
               (fun p => at_ (data x) (swap_last2_index m n p))))
  | None => Raise (RuntimeError NotAMatrix)
  end.

(** [x.T]: all axes reversed (the matrix transpose at rank 2). *)
Definition T_ {A : Type} `{Scalar A} (x : tensor A) : tensor A :=
  let s := rev (shape x) in
  Tensor s
    (tabulate (numel s)
       (fun p => at_ (data x) (ravel (shape x) (rev (unravel s p))))).

(** [x.t()]: only for rank at most 2. *)
Definition t_ {A : Type} `{Scalar A} (x : tensor A) : result (tensor A) :=
  if length (shape x) <=? 2 then Ok (T_ x)
  else Raise (RuntimeError NotAMatrix).

(** [x.to(dtype)]: a cast between precisions keeps exact values. *)
Definition to_ {A : Type} (x : tensor A) : tensor A := x.

(** ** Matrix product *)

(** [a @ b] (torch.matmul): a vector operand is treated as a row
    (left) or a column (right) and the axis added is dropped from the
    result; leading batch axes are broadcast. *)
Definition matmul {A : Type} `{Scalar A} (a b : tensor A) : result (tensor A) :=
  let ra := length (shape a) in
  let rb := length (shape b) in
  if (ra =? 0) || (rb =? 0) then Raise (RuntimeError MatmulMismatch)
  else
    let sa := if ra =? 1 then 1 :: shape a else shape a in
    let sb := if rb =? 1 then shape b ++ [1] else shape b in
    match split_last2 sa, split_last2 sb with
    | Some (ba, m, k), Some (bb, k', n) =>
        if k =? k' then
          batch <- broadcast ba bb ;;
          Ok (Tensor (batch ++ (if ra =? 1 then [] else [m])
                            ++ (if rb =? 1 then [] else [n]))
                (tabulate (numel batch * m * n)
                   (fun p =>
                      let j := p mod n in
                      let i := (p / n) mod m in
                      let bi := p / n / m in
                      sum_list
                        (tabulate k
                           (fun t =>
                              mul (at_ (data a)
                                     ((bcast_at ba batch bi * m + i) * k + t))
                                  (at_ (data b)
                                     ((bcast_at bb batch bi * k + t) * n + j)))))))
        else Raise (RuntimeError MatmulMismatch)
    | _, _ => Raise (RuntimeError MatmulMismatch)
    end.

(** ** Entries and dot products, to state results *)

(** Entry [j] of row [r] of a tensor read as rows of [cols] entries:
    for a matrix its entry [(r, j)], for a batch of [(m, cols)] matrices
    the entry [(i, j)] of matrix [b] at [r = b * m + i]. *)
Definition entry {A : Type} `{Scalar A} (x : tensor A) (cols r j : nat) : A :=
  at_ (data x) (r * cols + j).

(** [u 0 * v 0 + ... + u (k-1) * v (k-1)] *)
Definition dot {A : Type} `{Scalar A} (k : nat) (u v : nat -> A) : A :=
  sum_list (tabulate k (fun t => mul (u t) (v t))).

(* ================================================================== *)
(** * compute_utils.py: quantized LoRA forward and backward *)
(* ================================================================== *)

Section LoRA.

Context {A : Type} `{Scalar A}.

(** The packed 4-bit weight and its quantization state are opaque;
    [BF.dequantize_nf4] (bitsandbytes) reconstructs the matrix. *)
Variables packed quant_state : Type.
Variable dequantize_nf4 : packed -> quant_state -> tensor A.

(** [lora_forward(w, w_quant_state, w_lora_a, w_lora_b, b, x)] *)
Definition lora_forward (w : packed) (w_quant_state : quant_state)
  (w_lora_a w_lora_b : tensor A) (b : option (tensor A)) (x : tensor A)
  : result (tensor A * tensor A * tensor A) :=
  w_dequant <- t_ (dequantize_nf4 w w_quant_state) ;;
  let x := to_ x in
  x_main <- match b with
            | Some b => xw <- matmul x w_dequant ;; tadd xw (to_ b)
            | None => matmul x w_dequant
            end ;;
  x_lora_a <- matmul x (to_ w_lora_a) ;;
  x_lora <- matmul x_lora_a (to_ w_lora_b) ;;
  x <- tadd x_main x_lora ;;
  Ok (x, x_main, x_lora_a).

(** [lora_backward(w, w_quant_state, w_lora_a, w_lora_b, x, x_lora_a,
    grad_y)] *)
Definition lora_backward (w : packed) (w_quant_state : quant_state)
  (w_lora_a w_lora_b : tensor A) (x x_lora_a grad_y : tensor A)
  : result (tensor A * tensor A * tensor A) :=
  w_dequant <- t_ (dequantize_nf4 w w_quant_state) ;;
  w_lora_b_mT <- mT w_lora_b ;;
  grad_medium <- matmul (to_ grad_y) w_lora_b_mT ;;
  let w_lora_a := to_ w_lora_a in
  let w_lora_b := to_ w_lora_b in
  x_mT <- mT (to_ x) ;;
  grad_w_lora_a <- matmul x_mT grad_medium ;;
  x_lora_a_mT <- mT x_lora_a ;;
  grad_w_lora_b <- matmul x_lora_a_mT (to_ grad_y) ;;
  grad_x <- matmul (to_ grad_y) (T_ w_dequant) ;;
  tmp <- matmul grad_medium (T_ w_lora_a) ;;
  grad_x <- iadd grad_x tmp ;;
  Ok (grad_w_lora_a, grad_w_lora_b, grad_x).

End LoRA.

Arguments lora_forward {A _ packed quant_state} dequantize_nf4
  w w_quant_state w_lora_a w_lora_b b x.
Arguments lora_backward {A _ packed quant_state} dequantize_nf4
  w w_quant_state w_lora_a w_lora_b x x_lora_a grad_y.

(* ================================================================== *)
(** * compute_metrics.py: answer extraction *)
(* ================================================================== *)

Module Metrics.

Import Ascii String QArith Qabs.
Local Open Scope string_scope.

(** Python strings are modelled over the 8-bit code points; in that
    range the decimal digits of [\d] and of [float] are ['0'..'9'].

    A Python float is an exact rational or one of the IEEE special
    values; rounding to binary64 is not modelled, overflow to
    infinity is. *)
Inductive pyfloat : Type :=
| Finite (q : Q)
| PosInf
| NegInf
| NaN.

(** ** Characters *)

Definition is_digit (c : ascii) : bool :=
  let n := nat_of_ascii c in (48 <=? n)%nat && (n <=? 57)%nat.

Definition digit_value (c : ascii) : Z := Z.of_nat (nat_of_ascii c) - 48.

(** [str.isspace] on one character. *)
Definition is_space (c : ascii) : bool :=
  let n := nat_of_ascii c in
  ((9 <=? n)%nat && (n <=? 13)%nat) || ((28 <=? n)%nat && (n <=? 32)%nat)
  || (n =? 133)%nat || (n =? 160)%nat.

(** ** String helpers *)

(** [sentence.replace(',', '')] *)
Fixpoint remove_commas (s : string) : string :=
  match s with
  | EmptyString => EmptyString
  | String c s' =>
      if Ascii.eqb c "," then remove_commas s'
      else String c (remove_commas s')
  end.

(** [s.lstrip()] *)
Fixpoint lstrip (s : string) : string :=
  match s with
  | EmptyString => EmptyString
  | String c s' => if is_space c then lstrip s' else s
  end.

Fixpoint rev_string (s acc : string) : string :=
  match s with
  | EmptyString => acc
  | String c s' => rev_string s' (String c acc)
  end.

(** [s.strip()] *)
Definition strip (s : string) : string :=
  rev_string (lstrip (rev_string (lstrip s) "")) "".

(** [s[n:]] *)
Fixpoint drop (n : nat) (s : string) : string :=
  match n, s with
  | O, _ => s
  | S n', EmptyString => EmptyString
  | S n', String _ s' => drop n' s'
  end.

(** [pred.find(trigger)]: lowest index of an occurrence, or [-1]. *)
Fixpoint find_from (i : Z) (pred trigger : string) : Z :=
  if prefix trigger pred then i
  else match pred with
       | EmptyString => -1
       | String _ pred' => find_from (i + 1) pred' trigger
       end.

Definition find (pred trigger : string) : Z := find_from 0 pred trigger.

(** ** The pattern [-?\d+\.?\d*] *)

Fixpoint all_digits (s : string) : bool :=
  match s with
  | EmptyString => true
  | String c s' => is_digit c && all_digits s'
  end.

Fixpoint has_digit (s : string) : bool :=
  match s with
  | EmptyString => false
  | String c s' => is_digit c || has_digit s'
  end.

(** The string is empty or starts with a character that is no digit. *)
Definition starts_without_digit (s : string) : bool :=
  match s with
  | EmptyString => true
  | String c _ => negb (is_digit c)
  end.

(** Longest prefix of digits, and what follows it. *)
Fixpoint take_digits (s : string) : string * string :=
  match s with
  | EmptyString => (EmptyString, EmptyString)
  | String c s' =>
      if is_digit c then
        let (ds, rest) := take_digits s' in (String c ds, rest)
      else (EmptyString, s)
  end.

(** [\d+\.?\d*] at the start of [s]: every quantifier is greedy and
    none has to give anything back. *)
Definition match_unsigned (s : string) : option (string * string) :=
  let (int_part, r1) := take_digits s in
  if (String.length int_part =? 0)%nat then None
  else
      let (dot, r2) := match r1 with
                       | String c r =>
                           if Ascii.eqb c "." then (".", r) else ("", r1)
                       | EmptyString => ("", r1)
                       end in
      let (frac_part, r3) := take_digits r2 in
      Some (int_part ++ dot ++ frac_part, r3).

(** The whole pattern at the start of [s]: the match and the rest of
    the string.  [-?] first tries to take the sign and, when the
    digits do not follow, tries again without it. *)
Definition match_number (s : string) : option (string * string) :=
  match s with
  | String c s' =>
      if Ascii.eqb c "-" then
        match match_unsigned s' with
        | Some (m, rest) => Some (String "-" m, rest)
        | None => match_unsigned s
        end
      else match_unsigned s
  | EmptyString => match_unsigned s
  end.

(** [re.findall]: scan from the left, keep every match and go on after
    it, move one character on where there is none.  A match is never
    empty, so [fuel] = the length of the string is enough. *)
Fixpoint findall_from (fuel : nat) (s : string) : list string :=
  match fuel with
  | O => []
  | S fuel' =>
      match s with
      | EmptyString => []
      | String _ s' =>
          match match_number s with
          | Some (m, rest) => m :: findall_from fuel' rest
          | None => findall_from fuel' s'
          end
      end
  end.

Definition findall (s : string) : list string :=
  findall_from (String.length s) s.

(** The strings of the language of the pattern: an optional sign,
    at least one digit, an optional point, digits. *)
Definition number_literal (m : string) : Prop :=
  exists sgn int_part dot frac_part,
    m = sgn ++ int_part ++ dot ++ frac_part /\
    (sgn = "" \/ sgn = "-") /\
    int_part <> "" /\ all_digits int_part = true /\
    (dot = "" \/ dot = ".") /\
    all_digits frac_part = true.

(** What [\d+\.?\d*] matches: digits, and then nothing more or a point
    and digits. *)
Definition unsigned_literal (m : string) : Prop :=
  exists int_part dot frac_part,
    m = int_part ++ dot ++ frac_part /\
    int_part <> "" /\ all_digits int_part = true /\
    ((dot = "" /\ frac_part = "")
     \/ (dot = "." /\ all_digits frac_part = true)).

(** [trigger] occurs in [pred]. *)
Definition occurs (trigger pred : string) : Prop :=
  exists pre post, pred = pre ++ trigger ++ post.

(** ** [float(..)] on a decimal literal *)

(** Value of a digit string read after the digits [acc]. *)
Fixpoint digits_value (acc : Z) (s : string) : Z :=
  match s with
  | EmptyString => acc
  | String c s' => digits_value (10 * acc + digit_value c) s'
  end.

(** Rationals at or above [2^1024 - 2^970] round to infinity. *)
Definition overflow_threshold : Q := inject_Z (2 ^ 1024 - 2 ^ 970).

Definition round_to_float (q : Q) : pyfloat :=
  if Qle_bool overflow_threshold q then PosInf
  else if Qle_bool q (- overflow_threshold) then NegInf
  else Finite (Qred q).

(** [digits], [digits.], [digits.digits] or [.digits], unsigned. *)
Definition unsigned_decimal (s : string) : result Q :=
  let (int_part, r1) := take_digits s in
  match r1 with
  | EmptyString =>
      if (String.length int_part =? 0)%nat then Raise ValueError
      else Ok (inject_Z (digits_value 0 int_part))
  | String c frac =>
      if Ascii.eqb c "."
         && all_digits frac
         && negb ((String.length int_part =? 0)%nat
                  && (String.length frac =? 0)%nat)
      then Ok (Qmake (digits_value 0 (int_part ++ frac))
                     (Z.to_pos (10 ^ Z.of_nat (String.length frac))))
      else Raise ValueError
  end.

(** [float(s)] for the decimal literals [[+-]digits[.[digits]]] and
    [[+-].digits]; anything else is a [ValueError] here (exponents,
    [inf], [nan], underscores and surrounding blanks, which Python
    accepts too, do not occur in a match of the pattern above). *)
Definition float (s : string) : result pyfloat :=
  match s with
  | String c s' =>
      if Ascii.eqb c "-" then
        q <- unsigned_decimal s' ;; Ok (round_to_float (- q))
      else if Ascii.eqb c "+" then
        q <- unsigned_decimal s' ;; Ok (round_to_float q)
      else q <- unsigned_decimal s ;; Ok (round_to_float q)
  | EmptyString => Raise ValueError
  end.

(** ** The functions of the harness *)

(** [extract_answer_number(sentence)].  [float] returns a float, so
    the [isinstance(pred_answer, str)] branch is never taken. *)
Definition extract_answer_number (sentence : string) : result pyfloat :=
  let sentence := remove_commas sentence in
  let pred := findall sentence in
  match pred with
  | [] => Ok PosInf
  | _ =>
      pred_answer <- float (List.last pred "") ;;
      Ok pred_answer
  end.

(** First character among [A], [B], [C], [D], [E]
    ([re.findall(r'A|B|C|D|E', ..)[0]]). *)
Fixpoint first_letter (s : string) : string :=
  match s with
  | EmptyString => ""
  | String c s' =>
      if (Ascii.eqb c "A" || Ascii.eqb c "B" || Ascii.eqb c "C"
          || Ascii.eqb c "D" || Ascii.eqb c "E")%bool
      then String c ""
      else first_letter s'
  end.

(** [extract_answer_letter(sentence)] *)
Definition extract_answer_letter (sentence : string) : string :=
  let sentence_ := strip sentence in
  first_letter sentence_.

(** [extract_output(pred, trigger)] *)
Definition extract_output (pred trigger : string) : string :=
  if (String.length trigger =? 0)%nat then pred
  else
    let start := find pred trigger in
    if (start <? 0)%Z then ""
    else
      lstrip (drop (Z.to_nat (start + Z.of_nat (String.length trigger))) pred).

(** ** Scoring of one example in [compute_metrics] *)

Definition fsub (a b : pyfloat) : pyfloat :=
  match a, b with
  | NaN, _ | _, NaN => NaN
  | PosInf, PosInf | NegInf, NegInf => NaN
  | PosInf, _ | _, NegInf => PosInf
  | NegInf, _ | _, PosInf => NegInf
  | Finite x, Finite y => Finite (Qred (x - y))
  end.

Definition fabs (a : pyfloat) : pyfloat :=
  match a with
  | Finite x => Finite (Qabs x)
  | PosInf | NegInf => PosInf
  | NaN => NaN
  end.

Definition fle (a b : pyfloat) : bool :=
  match a, b with
  | NaN, _ | _, NaN => false
  | NegInf, _ | _, PosInf => true
  | PosInf, _ | _, NegInf => false
  | Finite x, Finite y => Qle_bool x y
  end.

(** [abs(float(answer) - generation) <= 0.001] *)
Definition numeric_match (answer generation : pyfloat) : bool :=
  fle (fabs (fsub answer generation)) (Finite (1 # 1000)).

(** The numeric branch: [generation = extract_answer_number(..)], then
    the tolerance test against the ground truth. *)
Definition score_number (answer : pyfloat) (raw_generation : string)
  : result bool :=
  generation <- extract_answer_number raw_generation ;;
  Ok (numeric_match answer generation).

(** The letter branch (ground truth that is not a number):
    [extract_answer_letter(..).strip() == answer.strip()]. *)
Definition score_letter (answer raw_generation : string) : bool :=
  String.eqb (strip (extract_answer_letter raw_generation)) (strip answer).

End Metrics.

(* ================================================================== *)
(** * rmsnorm_kernels.py *)
(* ================================================================== *)

Module RMSNorm.

Local Open Scope R_scope.

(** ** Host-side integers *)

(** Storage precisions of the activations, with [x.element_size()]. *)
Inductive dtype : Type := float16 | bfloat16 | float32 | float64.

Definition element_size (d : dtype) : Z :=
  match d with
  | float16 | bfloat16 => 2
  | float32 => 4
  | float64 => 8
  end.

(** [triton.next_power_of_2(n)] *)
Definition next_power_of_2 (n : Z) : Z :=
  let n := (n - 1)%Z in
  let n := Z.lor n (Z.shiftr n 1) in
  let n := Z.lor n (Z.shiftr n 2) in
  let n := Z.lor n (Z.shiftr n 4) in
  let n := Z.lor n (Z.shiftr n 8) in
  let n := Z.lor n (Z.shiftr n 16) in
  let n := Z.lor n (Z.shiftr n 32) in
  (n + 1)%Z.

(** [MAX_FUSED_SIZE = 65536 // x.element_size()] *)
Definition MAX_FUSED_SIZE (d : dtype) : Z := (65536 / element_size d)%Z.

(** [range(0, N, BLOCK_SIZE)] *)
Definition range_step (N BLOCK_SIZE : nat) : list nat :=
  map (fun i => (i * BLOCK_SIZE)%nat)
      (seq 0 ((N + BLOCK_SIZE - 1) / BLOCK_SIZE)).

(** ** Buffers and block operations *)

(** A buffer is the list of the floats it holds; a pointer into it is
    an offset.  [upd] writes one cell (nothing outside the buffer). *)
Fixpoint upd {V : Type} (mem : list V) (p : nat) (v : V) : list V :=
  match mem, p with
  | [], _ => []
  | _ :: mem', O => v :: mem'
  | x :: mem', S p' => x :: upd mem' p' v
  end.

Definition Rsum (l : list R) : R := fold_right Rplus 0 l.

(** [tl.arange(0, n)] *)
Definition arange (n : nat) : list nat := seq 0 n.

Definition vadd (a b : list R) : list R :=
  map (fun xy : R * R => fst xy + snd xy) (combine a b).
Definition vsub (a b : list R) : list R :=
  map (fun xy : R * R => fst xy - snd xy) (combine a b).
Definition vmul (a b : list R) : list R :=
  map (fun xy : R * R => fst xy * snd xy) (combine a b).
Definition vscale (a : list R) (c : R) : list R := map (fun x => x * c) a.
Definition vshift (a : list R) (c : R) : list R := map (fun x => x + c) a.

(** [tl.where(mask, a, other)] with a scalar [other]. *)
Definition tl_where (mask : list bool) (a : list R) (other : R) : list R :=
  map (fun ma : bool * R => if fst ma then snd ma else other) (combine mask a).

(** [tl.store(ptr + cols, vals, mask=mask)] *)
Definition tl_store (mem : list R) (ptr : nat) (cols : list nat)
  (vals : list R) (mask : list bool) : list R :=
  fold_left
    (fun m (cvb : nat * R * bool) =>
       if snd cvb then upd m (ptr + fst (fst cvb)) (snd (fst cvb)) else m)
    (combine (combine cols vals) mask) mem.

Section Kernels.

(** The value of a lane that a load leaves undefined: a lane masked
    off without [other], or a read outside the buffer. *)
Variable undef : R.

(** [tl.load(ptr + cols, mask=mask, other=other)] *)
Definition tl_load (mem : list R) (ptr : nat) (cols : list nat)
  (mask : list bool) (other : R) : list R :=
  map (fun cm : nat * bool =>
         if snd cm then nth (ptr + fst cm) mem undef else other)
      (combine cols mask).

(** *** [_rms_norm_fwd_fused]

    One program of the grid: the row [row] of [X] and [Y].  The
    [Mean] buffer is passed but never touched.  Returns the
    buffers [Y] and [Rstd] after the program. *)
Definition _rms_norm_fwd_fused (X Y W Rstd : list R)
  (stride N : nat) (eps : R) (BLOCK_SIZE : nat) (row : nat)
  : list R * list R :=
  let Yp := (row * stride)%nat in
  let Xp := (row * stride)%nat in
  (* Compute variance *)
  let _var :=
    fold_left
      (fun _var off =>
         let cols := map (Nat.add off) (arange BLOCK_SIZE) in
         let mask := map (fun c => c <? N) cols in
         let x := tl_load X Xp cols mask 0 in
         let x := tl_where mask x 0 in
         vadd _var (vmul x x))
      (range_step N BLOCK_SIZE) (repeat 0 BLOCK_SIZE) in
  let var := Rsum _var / INR N in
  let rstd := 1 / sqrt (var + eps) in
  (* Write rstd *)
  let Rstd := upd Rstd row rstd in
  (* Normalize and apply linear transformation *)
  let Y :=
    fold_left
      (fun Y off =>
         let cols := map (Nat.add off) (arange BLOCK_SIZE) in
         let mask := map (fun c => c <? N) cols in
         let w := tl_load W 0 cols mask undef in
         let x := tl_load X Xp cols mask 0 in
         let x_hat := vscale x rstd in
         let y := vmul x_hat w in
         tl_store Y Yp cols y mask)
      (range_step N BLOCK_SIZE) Y in
  (Y, Rstd).

(** What the program of row [row] is to compute: the entries of the
    row, their mean square and its reciprocal root. *)
Definition row_x (X : list R) (stride row i : nat) : R :=
  nth (row * stride + i) X undef.
Definition row_var (X : list R) (stride N row : nat) : R :=
  Rsum (map (fun i => row_x X stride row i * row_x X stride row i)
            (seq 0 N)) / INR N.
Definition row_rstd (X : list R) (stride N : nat) (eps : R) (row : nat)
  : R :=
  1 / sqrt (row_var X stride N row + eps).

(** *** [rmsnorm_forward]

    [uninit b n] is what [torch.empty] finds at index [n] of the
    buffer it allocates for [b]. *)
Inductive buffer : Type := BufY | BufMean | BufRstd | BufDX | BufDW.
Variable uninit : buffer -> nat -> R.

Definition empty (b : buffer) (n : nat) : list R := tabulate n (uninit b).

(** The launch [_rms_norm_fwd_fused[(M,)](..)]: the programs write
    disjoint cells; they are run here in the order of their ids. *)
Definition launch_fwd (X Y W Rstd : list R) (M stride N : nat) (eps : R)
  (BLOCK_SIZE : nat) : list R * list R :=
  fold_left
    (fun yr row =>
       _rms_norm_fwd_fused X (fst yr) W (snd yr) stride N eps BLOCK_SIZE row)
    (seq 0 M) (Y, Rstd).

(** [rmsnorm_forward(x, weight, eps)]; [dt] is [x.dtype].  Returns
    [(y, mean, rstd, BLOCK_SIZE, num_warps)]. *)
Definition rmsnorm_forward (dt : dtype) (x : tensor R) (weight : list R)
  (eps : R) : result (tensor R * list R * list R * Z * Z) :=
  let y := empty BufY (numel (shape x)) in
  match rev (shape x) with
  | [] => Raise IndexError
  | last_dim :: _ =>
      x_arg <- reshape x [Infer; Dim last_dim] ;;
      match shape x_arg with
      | [M; N] =>
          let mean := empty BufMean M in
          let rstd := empty BufRstd M in
          let BLOCK_SIZE :=
            Z.min (MAX_FUSED_SIZE dt) (next_power_of_2 (Z.of_nat N)) in
          if (Z.of_nat N >? BLOCK_SIZE)%Z then
            Raise (RuntimeError FeatureDimTooLarge)
          else
            let num_warps := Z.min (Z.max (BLOCK_SIZE / 256) 1) 8 in
            let yr := launch_fwd (data x_arg) y weight rstd M N N eps
                        (Z.to_nat BLOCK_SIZE) in
            Ok (Tensor (shape x) (fst yr), mean, snd yr,
                BLOCK_SIZE, num_warps)
      | _ => Raise ValueError
      end
  end.

(** *** [_rms_norm_bwd_dx_fused]

    The buffers the backward programs write: the input gradient,
    the per-group partial sums of the weight gradient, and the
    [2 * GROUP_SIZE_M] integers of [Lock] (the locks, then the
    first-writer flags). *)
Record bwd_mem : Type := BwdMem {
  DX : list R;
  DW : list R;
  Lock : list Z
}.

(** What the program of row [row] is to compute: the normalized
    entries, the weighted output gradient, the input gradient and
    the contribution of the row to the weight gradient. *)
Definition row_xhat (X Rstd : list R) (stride row j : nat) : R :=
  row_x X stride row j * nth row Rstd undef.
Definition row_wdy (DY W : list R) (stride row j : nat) : R :=
  nth j W undef * nth (row * stride + j) DY undef.
Definition row_c1 (DY X W Rstd : list R) (stride N row : nat) : R :=
  Rsum (map (fun j => row_xhat X Rstd stride row j
                      * row_wdy DY W stride row j) (seq 0 N)) / INR N.
Definition row_c2 (DY W : list R) (stride N row : nat) : R :=
  Rsum (map (row_wdy DY W stride row) (seq 0 N)) / INR N.
Definition row_dx (DY X W Rstd : list R) (stride N row j : nat) : R :=
  (row_wdy DY W stride row j
   - (row_xhat X Rstd stride row j * row_c1 DY X W Rstd stride N row
      + row_c2 DY W stride N row))
  * nth row Rstd undef.
Definition row_dw (DY X Rstd : list R) (stride row j : nat) : R :=
  nth (row * stride + j) DY undef * row_xhat X Rstd stride row j.

(** The sum of [row_dw] over the rows below [M] that belong to the
    lock group [g], and over all rows below [M]. *)
Definition group_dw (DY X Rstd : list R) (stride GROUP_SIZE_M M g j : nat)
  : R :=
  Rsum (map (fun r => if (r mod GROUP_SIZE_M =? g)%nat
                      then row_dw DY X Rstd stride r j else 0)
            (seq 0 M)).

(** One program of the grid, run on its own from the memory [m];
    [None] when it spins on its lock for ever. *)
Definition _rms_norm_bwd_dx_fused (DY X W Rstd : list R)
  (stride N : nat) (eps : R) (GROUP_SIZE_M BLOCK_SIZE_N : nat)
  (row : nat) (m : bwd_mem) : option bwd_mem :=
  let cols := arange BLOCK_SIZE_N in
  let mask := map (fun c => c <? N) cols in
  let Xp := (row * stride)%nat in
  let DYp := (row * stride)%nat in
  let DXp := (row * stride)%nat in
  (* Offset locks and weights gradient pointer *)
  let lock_id := (row mod GROUP_SIZE_M)%nat in
  let Lockp := lock_id in
  let Countp := (Lockp + GROUP_SIZE_M)%nat in
  let DWp := (lock_id * N)%nat in
  (* Load data *)
  let x := tl_load X Xp cols mask 0 in
  let dy := tl_load DY DYp cols mask 0 in
  let w := tl_load W 0 cols mask undef in
  let rstd := nth row Rstd undef in
  (* Compute dx *)
  let xhat := vscale x rstd in
  let wdy := vmul w dy in
  let xhat := tl_where mask xhat 0 in
  let wdy := tl_where mask wdy 0 in
  let c1 := Rsum (vmul xhat wdy) / INR N in
  let c2 := Rsum wdy / INR N in
  let dx := vscale (vsub wdy (vshift (vscale xhat c1) c2)) rstd in
  (* Write dx *)
  let DX' := tl_store (DX m) DXp cols dx mask in
  (* Accumulate partial sums for dw *)
  let partial_dw := vmul dy xhat in
  (* while tl.atomic_cas(Lock, 0, 1) == 1: pass *)
  let old := nth Lockp (Lock m) 0%Z in
  if (old =? 1)%Z then None
  else
    let Lock1 := if (old =? 0)%Z then upd (Lock m) Lockp 1%Z else Lock m in
    let count := nth Countp Lock1 0%Z in
    (* First store doesn't accumulate *)
    let Lock2 := if (count =? 0)%Z then upd Lock1 Countp 1%Z else Lock1 in
    let partial_dw :=
      if (count =? 0)%Z then partial_dw
      else vadd partial_dw (tl_load (DW m) DWp cols mask undef) in
    let DW' := tl_store (DW m) DWp cols partial_dw mask in
    (* Release the lock *)
    let Lock3 := upd Lock2 Lockp 0%Z in
    Some (BwdMem DX' DW' Lock3).

(** The launch [_rms_norm_bwd_dx_fused[(M,)](..)], with the programs
    run one after the other in the order of their ids. *)
Definition launch_bwd (DY X W Rstd : list R) (M stride N : nat) (eps : R)
  (GROUP_SIZE_M BLOCK_SIZE_N : nat) (m : bwd_mem) : option bwd_mem :=
  fold_left
    (fun om row =>
       match om with
       | Some m =>
           _rms_norm_bwd_dx_fused DY X W Rstd stride N eps
             GROUP_SIZE_M BLOCK_SIZE_N row m
       | None => None
       end)
    (seq 0 M) (Some m).

(** The buffers after the programs of the rows below [k], started
    on the buffers [DX0], [DW0] and on zeroed locks: every lock is
    free, the first-writer flag is set for the groups that had a
    row, their accumulators hold the sums of their rows, the other
    accumulators are as they were allocated, and the rows of [DX]
    below [k] are written. *)
Definition bwd_inv (DY X W Rstd : list R) (N GROUP_SIZE_M : nat)
  (DX0 DW0 : list R) (k : nat) (mem : bwd_mem) : Prop :=
  length (Lock mem) = (2 * GROUP_SIZE_M)%nat /\
  length (DW mem) = length DW0 /\
  length (DX mem) = length DX0 /\
  (forall g, (g < GROUP_SIZE_M)%nat ->
     nth g (Lock mem) 0%Z = 0%Z /\
     nth (g + GROUP_SIZE_M) (Lock mem) 0%Z
     = if (g <? k)%nat then 1%Z else 0%Z) /\
  (forall g j, (g < GROUP_SIZE_M)%nat -> (j < N)%nat ->
     nth (g * N + j) (DW mem) undef
     = if (g <? k)%nat then group_dw DY X Rstd N GROUP_SIZE_M k g j
       else nth (g * N + j) DW0 undef) /\
  (forall r i, (r < k)%nat -> (i < N)%nat ->
     nth (r * N + i) (DX mem) undef = row_dx DY X W Rstd N N r i).

(** *** [rmsnorm_backward] *)

(** The heuristics for the number of reduction streams. *)
Definition group_size_m (N : nat) : nat :=
  let GROUP_SIZE_M := 64%nat in
  let GROUP_SIZE_M :=
    if (Z.of_nat N <=? 8192)%Z then 96%nat else GROUP_SIZE_M in
  let GROUP_SIZE_M :=
    if (Z.of_nat N <=? 4096)%Z then 128%nat else GROUP_SIZE_M in
  let GROUP_SIZE_M :=
    if (Z.of_nat N <=? 1024)%Z then 256%nat else GROUP_SIZE_M in
  GROUP_SIZE_M.

(** The body of [rmsnorm_backward] under [if needs_inputs_grad:], up
    to the end of the launch: the buffers [dx], [_dw] and [locks]
    as the kernel leaves them.  The outer [None] is a launch that
    does not finish. *)
Definition rmsnorm_backward_buffers (dy x : tensor R) (w m v : list R)
  (eps : R) (num_warps BLOCK_SIZE : nat) : option (result bwd_mem) :=
  let N := length w in
  let GROUP_SIZE_M := group_size_m N in
  let locks := repeat 0%Z (2 * GROUP_SIZE_M) in
  let _dw := empty BufDW (GROUP_SIZE_M * length w) in
  let dx := empty BufDX (numel (shape dy)) in
  match rev (shape x) with
  | [] => Some (Raise IndexError)
  | last_dim :: _ =>
      match reshape x [Infer; Dim last_dim] with
      | Raise e => Some (Raise e)
      | Ok x_arg =>
          match shape x_arg with
          | [M; N] =>
              match launch_bwd (data dy) (data x) w v M N N eps
                      GROUP_SIZE_M BLOCK_SIZE (BwdMem dx _dw locks) with
              | Some mem => Some (Ok mem)
              | None => None
              end
          | _ => Some (Raise ValueError)
          end
      end
  end.

(** [rmsnorm_backward(dy, x, w, m, v, needs_inputs_grad, eps,
    num_warps, BLOCK_SIZE)]: returns [dx, None]. *)
Definition rmsnorm_backward (dy x : tensor R) (w m v : list R)
  (needs_inputs_grad : bool) (eps : R) (num_warps BLOCK_SIZE : nat)
  : option (result (option (tensor R) * option (tensor R))) :=
  if needs_inputs_grad then
    match rmsnorm_backward_buffers dy x w m v eps num_warps BLOCK_SIZE with
    | Some (Ok mem) => Some (Ok (Some (Tensor (shape dy) (DX mem)), None))
    | Some (Raise e) => Some (Raise e)
    | None => None
    end
  else Some (Ok (None, None)).

End Kernels.

End RMSNorm.

(* ================================================================== *)
(** * Example inputs *)
(* ================================================================== *)

Module Demo.

(** A base weight with [out_features = 2], [in_features = 3] and rank-1
    adapters, over the integers. *)
Definition dequant (w q : unit) : tensor Z :=
  Tensor [2; 3] [1; 2; 3; 4; 5; 6]%Z.
Definition lora_a : tensor Z := Tensor [3; 1] [1; 1; 1]%Z.
Definition lora_b : tensor Z := Tensor [1; 2] [1; 2]%Z.
Definition bias : tensor Z := Tensor [2] [100; 200]%Z.

(** Two tokens, as a matrix and as a batch of two sequences of one. *)
Definition x2 : tensor Z := Tensor [2; 3] [1; 0; 0; 0; 1; 0]%Z.
Definition x2_lora_a : tensor Z := Tensor [2; 1] [1; 1]%Z.
Definition grad2 : tensor Z := Tensor [2; 2] [1; 0; 0; 1]%Z.

Definition x3 : tensor Z := Tensor [2; 1; 3] [1; 0; 0; 0; 1; 0]%Z.
Definition x3_lora_a : tensor Z := Tensor [2; 1; 1] [1; 1]%Z.
Definition grad3 : tensor Z := Tensor [2; 1; 2] [1; 0; 0; 1]%Z.

End Demo.

(* ================================================================== *)
(** * compute_metrics.py: the evaluation loop on the commonsense task *)
(* ================================================================== *)

Module Harness.

Import Ascii String QArith.
Import Metrics.
Local Open Scope string_scope.

(** The characters the pattern [A|B|C|D|E] matches, and the strings
    that hold one of them. *)
Definition is_choice (c : ascii) : bool :=
  Ascii.eqb c "A" || Ascii.eqb c "B" || Ascii.eqb c "C"
  || Ascii.eqb c "D" || Ascii.eqb c "E".

Fixpoint has_choice (s : string) : bool :=
  match s with
  | EmptyString => false
  | String c s' => is_choice c || has_choice s'
  end.

(** Strings of white space only. *)
Fixpoint all_space (s : string) : bool :=
  match s with
  | EmptyString => true
  | String c s' => is_space c && all_space s'
  end.

(** An entry of [data_items] (the fields the loop reads) and an entry
    of the [generations] the loop returns. *)
Record example : Type := Example {
  instruction : string;
  answer : string
}.

Record generation_entry : Type := GenerationEntry {
  entry_instruction : string;
  entry_raw_generation : string;
  entry_generation : string;
  entry_answer : string
}.

(** The state of the loop: [correct_count], [total_count],
    [generations]. *)
Definition loop_state : Type := (nat * nat * list generation_entry)%type.

(** The body of the inner loop of [compute_metrics] for
    [task == "commonsense"], on one example of [data_items] and the
    text [pred] decoded for it. *)
Definition score_commonsense (trigger_tokens : string) (st : loop_state)
  (item : example * string) : loop_state :=
  let '(correct_count, total_count, generations) := st in
  let '(ex, pred) := item in
  let raw_generation := extract_output pred trigger_tokens in
  let answer := answer ex in
  let generation := raw_generation in
  let correct_count :=
    if String.eqb (strip generation) (strip answer)
    then S correct_count else correct_count in
  let total_count := S total_count in
  let instruction := instruction ex in
  (correct_count, total_count,
   (generations
    ++ [GenerationEntry instruction raw_generation generation answer])%list).

(** Whether the loop counts an item as correct. *)
Definition matches (trigger_tokens : string) (item : example * string)
  : bool :=
  String.eqb (strip (extract_output (snd item) trigger_tokens))
             (strip (answer (fst item))).

(** [compute_metrics] for [task == "commonsense"].  The model, the
    tokenizer and the batching are outside the embedding: [items] is
    the sequence, in evaluation order, of the examples with the texts
    decoded for them.  Returns [generations] and the value of
    [correct_count / total_count] (an exact rational here). *)
Definition compute_metrics_commonsense (trigger_tokens : string)
  (items : list (example * string))
  : result (list generation_entry * Q) :=
  let '(correct_count, total_count, generations) :=
    fold_left (score_commonsense trigger_tokens) items (0%nat, 0%nat, nil) in
  match total_count with
  | O => Raise ZeroDivisionError
  | S _ =>
      Ok (generations, Z.of_nat correct_count # Pos.of_nat total_count)
  end.

End Harness.

(* ================================================================== *)
(** * rmsnorm_kernels.py: the backward launch in another order *)
(* ================================================================== *)

Module RMSNormOrder.

Import RMSNorm.

(** The grid of [_rms_norm_bwd_dx_fused] does not fix the order of its
    programs.  [launch_bwd_in] runs them one after the other in the
    order [order] of their ids; [launch_bwd] is the case
    [order = 0, 1, .., M - 1]. *)
Definition launch_bwd_in (undef : R) (DY X W Rstd : list R)
  (stride N : nat) (eps : R) (GROUP_SIZE_M BLOCK_SIZE_N : nat)
  (order : list nat) (m : bwd_mem) : option bwd_mem :=
  fold_left
    (fun om row =>
       match om with
       | Some m =>
           _rms_norm_bwd_dx_fused undef DY X W Rstd stride N eps
             GROUP_SIZE_M BLOCK_SIZE_N row m
       | None => None
       end)
    order (Some m).

End RMSNormOrder.

(* ================================================================== *)
(** * Index arithmetic and list lemmas *)
(* ================================================================== *)

Lemma div_mod_block (q r d : nat) :
  r < d -> (q * d + r) / d = q /\ (q * d + r) mod d = r.
Proof.
  intros Hr. split.
  - symmetry. apply Nat.div_unique with (r := r); lia.
  - symmetry. apply Nat.mod_unique with (q := q); lia.
Qed.

Lemma flat_lt (i j a b : nat) : i < a -> j < b -> i * b + j < a * b.
Proof. intros Hi Hj. nia. Qed.

Lemma length_tabulate {A : Type} (n : nat) (f : nat -> A) :
  length (tabulate n f) = n.
Proof. unfold tabulate. now rewrite length_map, length_seq. Qed.

Lemma nth_tabulate {A : Type} (n : nat) (f : nat -> A) (p : nat) (d : A) :
  p < n -> nth p (tabulate n f) d = f p.
Proof.
  intros Hp. unfold tabulate.
  rewrite nth_indep with (d' := f 0) by now rewrite length_map, length_seq.
  rewrite map_nth, seq_nth by assumption. reflexivity.
Qed.

Lemma tabulate_ext {A : Type} (n : nat) (f g : nat -> A) :
  (forall p, p < n -> f p = g p) -> tabulate n f = tabulate n g.
Proof.
  intros Hfg. unfold tabulate. apply map_ext_in.
  intros p Hp. apply in_seq in Hp. apply Hfg. lia.
Qed.

Lemma tabulate_nth {A : Type} (l : list A) (d : A) :
  tabulate (length l) (fun p => nth p l d) = l.
Proof.
  apply nth_ext with (d := d) (d' := d).
  - apply length_tabulate.
  - intros p Hp. rewrite length_tabulate in Hp.
    exact (@nth_tabulate A (length l) (fun q => nth q l d) p d Hp).
Qed.

Lemma at_tabulate {A : Type} `{Scalar A} (n : nat) (f : nat -> A) (p : nat) :
  p < n -> at_ (tabulate n f) p = f p.
Proof. apply nth_tabulate. Qed.

(** The four coordinates of a flat position. *)
Lemma unravel4 (a n1 n2 d p : nat) :
  p < a * n1 * n2 * d ->
  exists i j k l,
    i < a /\ j < n1 /\ k < n2 /\ l < d /\
    p = ((i * n1 + j) * n2 + k) * d + l.
Proof.
  intros Hp.
  assert (Hd : d <> 0) by (intros ->; lia).
  assert (H2 : n2 <> 0) by (intros ->; lia).
  assert (H1 : n1 <> 0) by (intros ->; lia).
  exists (p / d / n2 / n1), ((p / d / n2) mod n1), ((p / d) mod n2), (p mod d).
  pose proof (Nat.div_mod_eq p d) as E0.
  pose proof (Nat.div_mod_eq (p / d) n2) as E1.
  pose proof (Nat.div_mod_eq (p / d / n2) n1) as E2.
  pose proof (Nat.mod_upper_bound p d Hd) as B0.
  pose proof (Nat.mod_upper_bound (p / d) n2 H2) as B1.
  pose proof (Nat.mod_upper_bound (p / d / n2) n1 H1) as B2.
  repeat split; try assumption.
  - apply Nat.Div0.div_lt_upper_bound.
    apply Nat.Div0.div_lt_upper_bound.
    apply Nat.Div0.div_lt_upper_bound. lia.
  - lia.
Qed.

Lemma transpose12_index_at (n1 n2 d i j k l : nat) :
  j < n1 -> k < n2 -> l < d ->
  transpose12_index n1 n2 d (((i * n2 + k) * n1 + j) * d + l)
  = ((i * n1 + j) * n2 + k) * d + l.
Proof.
  intros Hj Hk Hl. unfold transpose12_index.
  destruct (div_mod_block ((i * n2 + k) * n1 + j) l d Hl) as [-> ->].
  destruct (div_mod_block (i * n2 + k) j n1 Hj) as [-> ->].
  destruct (div_mod_block i k n2 Hk) as [-> ->].
  reflexivity.
Qed.

Lemma transpose12_index_lt (a n1 n2 d p : nat) :
  p < a * n2 * n1 * d -> transpose12_index n1 n2 d p < a * n1 * n2 * d.
Proof.
  intros Hp.
  destruct (unravel4 a n2 n1 d p Hp) as (i & k & j & l & Hi & Hk & Hj & Hl & ->).
  rewrite transpose12_index_at by assumption.
  repeat apply flat_lt; assumption.
Qed.

Lemma transpose12_index_invol (a n1 n2 d p : nat) :
  p < a * n1 * n2 * d ->
  transpose12_index n1 n2 d (transpose12_index n2 n1 d p) = p.
Proof.
  intros Hp.
  destruct (unravel4 a n1 n2 d p Hp) as (i & j & k & l & Hi & Hj & Hk & Hl & ->).
  rewrite !transpose12_index_at by assumption. reflexivity.
Qed.

(* ================================================================== *)
(** * reshape *)
(* ================================================================== *)

Lemma known_size_dims (s : list nat) : known_size (map Dim s) = numel s.
Proof. induction s as [|n s IH]; simpl; [reflexivity | now rewrite IH]. Qed.

Lemma count_infer_dims (s : list nat) : count_infer (map Dim s) = 0.
Proof. unfold count_infer. induction s as [|n s IH]; simpl; auto. Qed.

Lemma fill_infer_dims (s : list nat) (v : nat) : fill_infer (map Dim s) v = s.
Proof.
  unfold fill_infer. rewrite map_map. simpl. apply map_id.
Qed.

(** Reshaping to explicit sizes succeeds exactly when the element counts
    agree, whatever they are. *)
Lemma reshape_explicit {A : Type} (x : tensor A) (s : list nat) :
  numel (shape x) = numel s ->
  reshape x (map Dim s) = Ok (Tensor s (data x)).
Proof.
  intros Hn. unfold reshape, infer_size.
  rewrite count_infer_dims, known_size_dims, fill_infer_dims.
  rewrite (proj2 (Nat.eqb_eq _ _) Hn). reflexivity.
Qed.

(** [reshape(b, s, -1)] on a tensor with [b * s * h] elements. *)
Lemma reshape_infer_last {A : Type} (x : tensor A) (b s h : nat) :
  0 < b -> 0 < s -> numel (shape x) = b * s * h ->
  reshape x [Dim b; Dim s; Infer] = Ok (Tensor [b; s; h] (data x)).
Proof.
  intros Hb Hs Hn. unfold reshape, infer_size.
  change (count_infer [Dim b; Dim s; Infer]) with 1.
  change (known_size [Dim b; Dim s; Infer]) with (b * (s * 1)).
  rewrite Hn.
  assert (Hbs : b * (s * 1) <> 0) by nia.
  replace (b * s * h) with (h * (b * (s * 1))) by lia.
  rewrite Nat.Div0.mod_mul, Nat.div_mul by assumption.
  rewrite (proj2 (Nat.ltb_lt 0 _)) by lia.
  rewrite Nat.eqb_refl, orb_true_r.
  rewrite (proj2 (Nat.eqb_neq _ 0) Hbs).
  reflexivity.
Qed.

(* ================================================================== *)
(** * Head-shape adapters: round trip (C6) *)
(* ================================================================== *)

Lemma hidden_to_head_shape_ok {A : Type} `{Scalar A}
  (x : tensor A) (b s h heads : nat) :
  shape x = [b; s; h] -> 0 < heads -> h mod heads = 0 ->
  hidden_to_head_shape x heads
  = Ok (Tensor [b; heads; s; h / heads]
          (tabulate (b * heads * s * (h / heads * 1))
             (fun p => at_ (data x)
                         (transpose12_index s heads (h / heads * 1) p)))).
Proof.
  intros Hsh Hheads Hdiv. unfold hidden_to_head_shape. rewrite Hsh.
  destruct heads as [|n]; [lia|]. set (heads := S n) in *.
  change [Dim b; Dim s; Dim heads; Dim (h / heads)]
    with (map Dim [b; s; heads; h / heads]).
  rewrite reshape_explicit.
  - reflexivity.
  - rewrite Hsh. cbn [numel fold_right].
    pose proof (Nat.div_mod_eq h heads) as E. rewrite Hdiv in E. nia.
Qed.

(** C6, as the code has it: on a tensor of shape [(b, s, h)] with a
    non-empty batch and sequence axis ([b >= 1], [s >= 1]) and
    [heads >= 1] dividing [h], [head_to_hidden_shape] undoes
    [hidden_to_head_shape] exactly: same shape, same elements. *)
Theorem head_shape_round_trip {A : Type} `{Scalar A}
  (x : tensor A) (b s h heads : nat) :
  wf x -> shape x = [b; s; h] ->
  0 < b -> 0 < s -> 0 < heads -> h mod heads = 0 ->
  (y <- hidden_to_head_shape x heads ;; head_to_hidden_shape y) = Ok x.
Proof.
  intros Hwf Hsh Hb Hs Hheads Hdiv.
  rewrite (hidden_to_head_shape_ok x b s h heads Hsh Hheads Hdiv).
  set (hd := h / heads).
  assert (Hh : h = heads * hd).
  { pose proof (Nat.div_mod_eq h heads) as E. rewrite Hdiv in E.
    unfold hd. lia. }
  unfold bind, head_to_hidden_shape, transpose12. cbn [shape data numel fold_right].
  unfold bind.
  rewrite reshape_infer_last with (h := h); cbn [shape data]; try assumption.
  - destruct x as [sx dx]. cbn [shape data] in *. subst sx. do 2 apply f_equal.
    unfold wf in Hwf. cbn [shape data numel fold_right] in Hwf.
    transitivity (tabulate (length dx) (fun p => nth p dx zero)).
    + replace (length dx) with (b * s * heads * (hd * 1)) by lia.
      apply tabulate_ext. intros p Hp.
      rewrite at_tabulate by (apply transpose12_index_lt; exact Hp).
      rewrite (transpose12_index_invol b) by exact Hp. reflexivity.
    + apply tabulate_nth.
  - simpl. lia.
Qed.

(** The round trip at a concrete tensor of shape (1, 2, 4) split into
    two heads. *)
Lemma head_shape_round_trip_witness :
  let x : tensor Z := Tensor [1; 2; 4] [1; 2; 3; 4; 5; 6; 7; 8]%Z in
  (y <- hidden_to_head_shape x 2 ;; head_to_hidden_shape y) = Ok x.
Proof.
  intro x.
  apply (@head_shape_round_trip Z _ x 1 2 4 2);
    [reflexivity | reflexivity | lia | lia | lia | reflexivity].
Defined.

(** C6 as stated fails on an empty batch: the shape is (0, 2, 4), 2
    divides 4, and [reshape(bsz, seq_len, -1)] cannot infer the last
    size of a tensor without elements. *)
Lemma head_shape_round_trip_empty_batch :
  let x : tensor Z := Tensor [0; 2; 4] [] in
  wf x /\ shape x = [0; 2; 4] /\ Nat.divide 2 4 /\
  (y <- hidden_to_head_shape x 2 ;; head_to_hidden_shape y)
  = Raise (RuntimeError AmbiguousInfer) /\
  (y <- hidden_to_head_shape x 2 ;; head_to_hidden_shape y) <> Ok x.
Proof.
  intro x. repeat split.
  - exists 2. reflexivity.
  - discriminate.
Qed.

(* ================================================================== *)
(** * Key/value head repetition and its adjoint (C7) *)
(* ================================================================== *)

Lemma tabulate_const {A : Type} (n : nat) (v : A) :
  tabulate n (fun _ => v) = repeat v n.
Proof.
  unfold tabulate.
  assert (Hl : forall l : list nat,
             map (fun _ => v) l = repeat v (length l)).
  { induction l as [|i l IH]; simpl; [reflexivity | now rewrite IH]. }
  now rewrite Hl, length_seq.
Qed.

Lemma sum_list_const {A : Type} `{Scalar A} `{!Exact A} (n : nat) (v : A) :
  sum_list (tabulate n (fun _ => v)) = mul (of_nat n) v.
Proof.
  assert (Hl : forall l : list nat,
             sum_list (map (fun _ => v) l) = mul (of_nat (length l)) v).
  { induction l as [|i l IH]; simpl.
    - now rewrite mul_0_l.
    - rewrite IH, mul_add_distr_r, mul_1_l. reflexivity. }
  unfold tabulate. rewrite Hl, length_seq. reflexivity.
Qed.

Lemma map_as_tabulate {A : Type} `{Scalar A} (f : A -> A) (l : list A) :
  map f l = tabulate (length l) (fun p => f (at_ l p)).
Proof.
  apply nth_ext with (d := f zero) (d' := f zero).
  - now rewrite length_map, length_tabulate.
  - intros p Hp. rewrite length_map in Hp.
    rewrite nth_tabulate by assumption. apply map_nth.
Qed.

(** A flat position splits into its block and its offset in the block. *)
Lemma block_offset (p blk : nat) : p = (p / blk) * blk + p mod blk.
Proof. pose proof (Nat.div_mod_eq p blk). lia. Qed.

(** Summing [n] copies of every block adds every element to itself
    [n] times. *)
Lemma sum_dim2_of_copies {A : Type} `{Scalar A}
  (b kv n s d : nat) (dx e : list A) :
  length dx = b * kv * (s * d) ->
  (forall q r l, q < b * kv -> r < n -> l < s * d ->
     at_ e ((q * n + r) * (s * d) + l) = at_ dx (q * (s * d) + l)) ->
  sum_dim2 (Tensor [b; kv; n; s; d] e)
  = Ok (Tensor [b; kv; s; d] (map (fun v => sum_list (repeat v n)) dx)).
Proof.
  intros Hlen He. unfold sum_dim2. cbn [shape data numel fold_right].
  rewrite Nat.mul_1_r. do 2 apply f_equal.
  rewrite map_as_tabulate, Hlen.
  apply tabulate_ext. intros p Hp.
  assert (Hblk : s * d <> 0) by (intros E; rewrite E in Hp; lia).
  rewrite <- tabulate_const. apply f_equal.
  apply tabulate_ext. intros r Hr.
  rewrite He.
  - now rewrite <- block_offset.
  - apply Nat.Div0.div_lt_upper_bound. lia.
  - assumption.
  - now apply Nat.mod_upper_bound.
Qed.

Lemma at_expand_heads {A : Type} `{Scalar A}
  (b kv n s d : nat) (dx : list A) (q r l : nat) :
  q < b * kv -> r < n -> l < s * d ->
  at_ (expand_heads b kv n s d dx) ((q * n + r) * (s * d) + l)
  = at_ dx (q * (s * d) + l).
Proof.
  intros Hq Hr Hl. unfold expand_heads.
  rewrite at_tabulate by (repeat apply flat_lt; assumption).
  destruct (div_mod_block (q * n + r) l (s * d) Hl) as [_ ->].
  replace ((q * n + r) * (s * d) + l)
    with (q * (n * (s * d)) + (r * (s * d) + l)) by lia.
  assert (Hin : r * (s * d) + l < n * (s * d)) by (apply flat_lt; assumption).
  destruct (div_mod_block q _ _ Hin) as [-> _].
  reflexivity.
Qed.

(** [repeat_kv] followed by [repeat_kv_backward], whatever the element
    arithmetic is. *)
Lemma repeat_kv_backward_repeat_kv_sums {A : Type} `{Scalar A}
  (x : tensor A) (b kv s d n_rep : nat) :
  wf x -> shape x = [b; kv; s; d] -> 1 <= n_rep ->
  (y <- repeat_kv x n_rep ;; repeat_kv_backward y n_rep)
  = Ok (Tensor (shape x)
          (map (fun v => sum_list (repeat v n_rep)) (data x))).
Proof.
  intros Hwf Hsh Hn.
  destruct x as [sx dx]. unfold wf in Hwf. cbn [shape data] in *. subst sx.
  cbn [numel fold_right] in Hwf.
  assert (Hlen : length dx = b * kv * (s * d)) by lia.
  unfold repeat_kv. cbn [shape data].
  destruct (Nat.eqb_spec n_rep 1) as [-> | Hne].
  - (* n_rep == 1: the input itself is returned *)
    cbn [bind]. unfold repeat_kv_backward. cbn [shape].
    rewrite Nat.div_1_r.
    change [Dim b; Dim kv; Dim 1; Dim s; Dim d] with (map Dim [b; kv; 1; s; d]).
    rewrite reshape_explicit by (cbn [shape numel fold_right]; lia).
    cbn [bind data].
    apply sum_dim2_of_copies; [assumption|].
    intros q r l _ Hr _. replace r with 0 by lia. f_equal. lia.
  - change [Dim b; Dim (kv * n_rep); Dim s; Dim d]
      with (map Dim [b; kv * n_rep; s; d]).
    rewrite reshape_explicit by (cbn [shape numel fold_right]; lia).
    cbn [bind]. unfold repeat_kv_backward. cbn [shape data].
    destruct n_rep as [|m]; [lia|]. set (n := S m) in *.
    rewrite Nat.div_mul by (unfold n; lia).
    change [Dim b; Dim kv; Dim n; Dim s; Dim d] with (map Dim [b; kv; n; s; d]).
    rewrite reshape_explicit by (cbn [shape numel fold_right]; lia).
    cbn [bind data].
    apply sum_dim2_of_copies; [assumption|].
    intros q r l. apply at_expand_heads.
Qed.

(** C7, as the code has it: for every tensor [x] of shape
    [(b, kv_heads, s, d)] and every [n_rep >= 1],
    [repeat_kv_backward (repeat_kv x n_rep) n_rep] has the shape of
    [x] and each of its elements is the sum [v + (v + .. (v + 0))] of
    [n_rep] copies of the element [v] of [x], formed with the addition
    of the element type.  Where that arithmetic is exact (integer
    tensors, the reals) the result is [n_rep * x]; a floating-point
    sum of copies need not be the rounded product. *)
Theorem repeat_kv_backward_repeat_kv {A : Type} `{Scalar A}
  (x : tensor A) (b kv s d n_rep : nat) :
  wf x -> shape x = [b; kv; s; d] -> 1 <= n_rep ->
  (y <- repeat_kv x n_rep ;; repeat_kv_backward y n_rep)
  = Ok (Tensor (shape x)
          (map (fun v => sum_list (repeat v n_rep)) (data x))) /\
  (Exact A ->
   (y <- repeat_kv x n_rep ;; repeat_kv_backward y n_rep)
   = Ok (scale n_rep x)).
Proof.
  intros Hwf Hsh Hn.
  pose proof (repeat_kv_backward_repeat_kv_sums x b kv s d n_rep Hwf Hsh Hn)
    as Hrun.
  split; [exact Hrun|].
  intros HE. rewrite Hrun. unfold scale. do 2 f_equal.
  apply map_ext. intros v.
  now rewrite <- tabulate_const, sum_list_const.
Qed.

(** The adjoint identity at a concrete integer tensor of shape
    (1, 2, 1, 2) repeated three times. *)
Lemma repeat_kv_backward_repeat_kv_witness :
  let x : tensor Z := Tensor [1; 2; 1; 2] [1; 2; 3; 4]%Z in
  (y <- repeat_kv x 3 ;; repeat_kv_backward y 3) = Ok (scale 3 x).
Proof.
  intro x.
  apply (proj2 (@repeat_kv_backward_repeat_kv Z _ x 1 2 1 2 3
                  eq_refl eq_refl ltac:(lia)) Z_Exact).
Defined.

(** C7 as stated fails in floating point.  In binary32, for the
    tensor of shape (1, 1, 1, 1) holding 0.1 (13421773 * 2^-27) and
    [n_rep = 7], the round trip returns the sum of seven copies,
    11744052 * 2^-24 (0.70000005), whereas [7 * x] is the product
    rounded once, 11744051 * 2^-24 (0.69999999). *)
Lemma repeat_kv_backward_repeat_kv_binary32 :
  let x : tensor binary32 :=
    Tensor [1; 1; 1; 1] [SpecFloat.S754_finite false 13421773 (-27)] in
  wf x /\
  (y <- repeat_kv x 7 ;; repeat_kv_backward y 7)
  = Ok (Tensor [1; 1; 1; 1] [SpecFloat.S754_finite false 11744052 (-24)]) /\
  scale 7 x
  = Tensor [1; 1; 1; 1] [SpecFloat.S754_finite false 11744051 (-24)] /\
  (y <- repeat_kv x 7 ;; repeat_kv_backward y 7) <> Ok (scale 7 x).
Proof.
  intro x.
  assert (Hrun : (y <- repeat_kv x 7 ;; repeat_kv_backward y 7)
                 = Ok (Tensor [1; 1; 1; 1]
                         [SpecFloat.S754_finite false 11744052 (-24)]))
    by (vm_compute; reflexivity).
  assert (Hscale : scale 7 x
                   = Tensor [1; 1; 1; 1]
                       [SpecFloat.S754_finite false 11744051 (-24)])
    by (vm_compute; reflexivity).
  split; [reflexivity|]. split; [exact Hrun|]. split; [exact Hscale|].
  rewrite Hrun, Hscale. discriminate.
Qed.

(* ================================================================== *)
(** * Shapes of broadcasts, transposes and matrix products *)
(* ================================================================== *)

Lemma numel_app (s1 s2 : list nat) : numel (s1 ++ s2) = numel s1 * numel s2.
Proof.
  induction s1 as [|n s1 IH]; simpl; [lia | rewrite IH; lia].
Qed.

Lemma split_last2_app (lead : list nat) (m n : nat) :
  split_last2 (lead ++ [m; n]) = Some (lead, m, n).
Proof.
  unfold split_last2. rewrite rev_app_distr. simpl.
  now rewrite rev_involutive.
Qed.

Lemma broadcast_rev_prefix (r l : list nat) :
  broadcast_rev (r ++ l) r = Ok (r ++ l).
Proof.
  induction r as [|x r IH]; simpl.
  - now destruct l.
  - rewrite IH. simpl. now rewrite Nat.eqb_refl.
Qed.

(** A shape broadcasts with any of its suffixes to itself. *)
Lemma broadcast_suffix (lead s : list nat) :
  broadcast (lead ++ s) s = Ok (lead ++ s).
Proof.
  unfold broadcast. rewrite rev_app_distr, broadcast_rev_prefix. simpl.
  now rewrite <- rev_app_distr, rev_involutive.
Qed.

Lemma broadcast_refl (s : list nat) : broadcast s s = Ok s.
Proof. exact (broadcast_suffix [] s). Qed.

Lemma broadcast_nil_r (s : list nat) : broadcast s [] = Ok s.
Proof.
  pose proof (broadcast_suffix s []) as E. now rewrite app_nil_r in E.
Qed.

Lemma shape_eqb_refl (s : list nat) : shape_eqb s s = true.
Proof. unfold shape_eqb. now destruct (list_eq_dec Nat.eq_dec s s). Qed.

Lemma mT_ok {A : Type} `{Scalar A} (x : tensor A) (lead : list nat) (m n : nat) :
  shape x = lead ++ [m; n] ->
  exists y, mT x = Ok y /\ shape y = lead ++ [n; m].
Proof.
  intros Hs. unfold mT. rewrite Hs, split_last2_app.
  eexists. split; reflexivity.
Qed.

Lemma t_ok {A : Type} `{Scalar A} (x : tensor A) (m n : nat) :
  shape x = [m; n] -> t_ x = Ok (T_ x) /\ shape (T_ x) = [n; m].
Proof.
  intros Hs. unfold t_, T_. rewrite Hs. split; reflexivity.
Qed.

(** Product of (batches of) matrices. *)
Lemma matmul_ok {A : Type} `{Scalar A} (a b : tensor A)
  (ba bb batch : list nat) (m k n : nat) :
  shape a = ba ++ [m; k] -> shape b = bb ++ [k; n] ->
  broadcast ba bb = Ok batch ->
  exists c, matmul a b = Ok c /\ shape c = batch ++ [m; n].
Proof.
  intros Ha Hb Hbc. unfold matmul. rewrite Ha, Hb, !length_app.
  cbn [length].
  replace (length ba + 2 =? 0) with false by (symmetry; apply Nat.eqb_neq; lia).
  replace (length bb + 2 =? 0) with false by (symmetry; apply Nat.eqb_neq; lia).
  replace (length ba + 2 =? 1) with false by (symmetry; apply Nat.eqb_neq; lia).
  replace (length bb + 2 =? 1) with false by (symmetry; apply Nat.eqb_neq; lia).
  cbn [orb]. rewrite !split_last2_app, Nat.eqb_refl, Hbc. cbn [bind].
  eexists. split; reflexivity.
Qed.

(** A vector times a matrix. *)
Lemma matmul_vec_ok {A : Type} `{Scalar A} (a b : tensor A) (k n : nat) :
  shape a = [k] -> shape b = [k; n] ->
  exists c, matmul a b = Ok c /\ shape c = [n].
Proof.
  intros Ha Hb. unfold matmul. rewrite Ha, Hb. cbn [length Nat.eqb orb].
  change [1; k] with ([] ++ [1; k]). change [k; n] with ([] ++ [k; n]).
  rewrite !split_last2_app, Nat.eqb_refl. cbn.
  eexists. split; reflexivity.
Qed.

(** Any tensor with trailing size [k] times a [k x n] matrix keeps its
    leading axes. *)
Lemma matmul_right_2d {A : Type} `{Scalar A} (a b : tensor A)
  (lead : list nat) (k n : nat) :
  shape a = lead ++ [k] -> shape b = [k; n] ->
  exists c, matmul a b = Ok c /\ shape c = lead ++ [n].
Proof.
  intros Ha Hb.
  induction lead as [|m lead' _] using rev_ind.
  - now apply matmul_vec_ok with (k := k).
  - rewrite <- app_assoc in Ha. cbn [app] in Ha.
    destruct (matmul_ok a b lead' [] lead' m k n Ha Hb (broadcast_nil_r lead'))
      as (c & Hc & Hsc).
    exists c. split; [assumption|]. now rewrite Hsc, <- app_assoc.
Qed.

Lemma tadd_same_shape {A : Type} `{Scalar A} (a b : tensor A) :
  shape b = shape a ->
  exists c, tadd a b = Ok c /\ shape c = shape a.
Proof.
  intros Hs. unfold tadd. rewrite Hs, broadcast_refl. cbn [bind].
  eexists. split; reflexivity.
Qed.

Lemma tadd_bias {A : Type} `{Scalar A} (a b : tensor A)
  (lead : list nat) (n : nat) :
  shape a = lead ++ [n] -> shape b = [n] ->
  exists c, tadd a b = Ok c /\ shape c = lead ++ [n].
Proof.
  intros Ha Hb. unfold tadd. rewrite Ha, Hb, broadcast_suffix. cbn [bind].
  eexists. split; reflexivity.
Qed.

Lemma iadd_same_shape {A : Type} `{Scalar A} (a b : tensor A) :
  shape b = shape a ->
  exists c, iadd a b = Ok c /\ tadd a b = Ok c /\ shape c = shape a.
Proof.
  intros Hs. destruct (tadd_same_shape a b Hs) as (c & Hc & Hsc).
  exists c. unfold iadd. rewrite Hc. cbn [bind].
  rewrite Hsc, shape_eqb_refl. auto.
Qed.


(* ================================================================== *)
(** * Elements of broadcasts, transposes and matrix products *)
(* ================================================================== *)

(** An operand of the shape of the result is read at the same flat
    position. *)
Lemma ravel_unravel (s : list nat) (p : nat) :
  p < numel s ->
  ravel s (map (fun ni => if fst ni =? 1 then 0 else snd ni)
               (combine s (unravel s p))) = p.
Proof.
  revert p. induction s as [|n rest IH]; intros p Hp.
  - simpl in *. lia.
  - cbn [unravel combine map ravel fst snd]. cbn [numel fold_right] in Hp.
    fold (numel rest) in *.
    assert (Hrest : numel rest <> 0) by (intros E; rewrite E in Hp; lia).
    rewrite IH by (now apply Nat.mod_upper_bound).
    destruct (Nat.eqb_spec n 1) as [-> | Hn].
    + rewrite Nat.mod_small by lia. lia.
    + pose proof (Nat.div_mod_eq p (numel rest)). lia.
Qed.

Lemma bcast_at_same (s : list nat) (p : nat) :
  p < numel s -> bcast_at s s p = p.
Proof.
  intros Hp. unfold bcast_at. rewrite Nat.sub_diag. cbn [skipn].
  now apply ravel_unravel.
Qed.

Lemma bcast_at_nil (res : list nat) (p : nat) : bcast_at [] res p = 0.
Proof. reflexivity. Qed.

Lemma mod_mod_mul (p c n : nat) : (p mod (c * n)) mod n = p mod n.
Proof.
  destruct (Nat.eq_dec n 0) as [-> | Hn].
  - now rewrite Nat.mul_0_r.
  - rewrite (Nat.mul_comm c n), Nat.Div0.mod_mul_r.
    replace (p mod n + n * ((p / n) mod c))
      with (p mod n + (p / n) mod c * n) by lia.
    rewrite Nat.Div0.mod_add. apply Nat.Div0.mod_mod.
Qed.

Lemma unravel_last (lead : list nat) (n p : nat) :
  p < numel (lead ++ [n]) ->
  skipn (length lead) (unravel (lead ++ [n]) p) = [p mod n].
Proof.
  revert p. induction lead as [|a lead IH]; intros p Hp.
  - cbn [app length skipn unravel numel fold_right] in *.
    rewrite Nat.div_1_r. f_equal. symmetry.
    apply Nat.mod_small. lia.
  - cbn [app unravel length skipn]. fold (numel (lead ++ [n])).
    cbn [app numel fold_right] in Hp. fold (numel (lead ++ [n])) in Hp.
    assert (HK : numel (lead ++ [n]) <> 0)
      by (intros E; rewrite E in Hp; lia).
    rewrite IH by (now apply Nat.mod_upper_bound).
    rewrite numel_app. cbn [numel fold_right]. rewrite Nat.mul_1_r.
    now rewrite mod_mod_mul.
Qed.

(** A vector added to the trailing axis is read at the position in that
    axis. *)
Lemma bcast_at_bias (lead : list nat) (n p : nat) :
  p < numel (lead ++ [n]) -> bcast_at [n] (lead ++ [n]) p = p mod n.
Proof.
  intros Hp. unfold bcast_at. rewrite length_app. cbn [length].
  replace (length lead + 1 - 1) with (length lead) by lia.
  rewrite unravel_last by assumption.
  cbn [combine map ravel fst snd numel fold_right].
  destruct (Nat.eqb_spec n 1) as [-> | Hn]; [|lia].
  rewrite Nat.mod_1_r. lia.
Qed.

Lemma tadd_same_shape_at {A : Type} `{Scalar A} (a b c : tensor A) (p : nat) :
  shape b = shape a -> tadd a b = Ok c -> p < numel (shape a) ->
  at_ (data c) p = add (at_ (data a) p) (at_ (data b) p).
Proof.
  intros Hs Hc Hp. unfold tadd in Hc. rewrite Hs, broadcast_refl in Hc.
  cbn [bind] in Hc. injection Hc as <-. cbn [data].
  rewrite at_tabulate by assumption.
  now rewrite !bcast_at_same.
Qed.

Lemma tadd_bias_at {A : Type} `{Scalar A} (a b c : tensor A)
  (lead : list nat) (n p : nat) :
  shape a = lead ++ [n] -> shape b = [n] -> tadd a b = Ok c ->
  p < numel (lead ++ [n]) ->
  at_ (data c) p = add (at_ (data a) p) (at_ (data b) (p mod n)).
Proof.
  intros Ha Hb Hc Hp. unfold tadd in Hc.
  rewrite Ha, Hb, broadcast_suffix in Hc.
  cbn [bind] in Hc. injection Hc as <-. cbn [data].
  rewrite at_tabulate by assumption.
  now rewrite bcast_at_same, bcast_at_bias.
Qed.

(** The transpose of a matrix, element by element. *)
Lemma T_at {A : Type} `{Scalar A} (x : tensor A) (m n i j : nat) :
  shape x = [m; n] -> i < m -> j < n ->
  at_ (data (T_ x)) (j * m + i) = at_ (data x) (i * n + j).
Proof.
  intros Hs Hi Hj. unfold T_. rewrite Hs. cbn [rev app data].
  rewrite at_tabulate
    by (cbn [numel fold_right]; rewrite Nat.mul_1_r; now apply flat_lt).
  f_equal. cbn [unravel numel fold_right rev app ravel].
  rewrite !Nat.mul_1_r, !Nat.div_1_r.
  destruct (div_mod_block j i m Hi) as [-> ->]. lia.
Qed.

Lemma mT_at {A : Type} `{Scalar A} (x y : tensor A) (m n i j : nat) :
  shape x = [m; n] -> mT x = Ok y -> i < m -> j < n ->
  at_ (data y) (j * m + i) = at_ (data x) (i * n + j).
Proof.
  intros Hs Hy Hi Hj. unfold mT in Hy. rewrite Hs in Hy.
  change [m; n] with ([] ++ [m; n]) in Hy. rewrite split_last2_app in Hy.
  injection Hy as <-. cbn [data numel fold_right].
  rewrite at_tabulate by (rewrite Nat.add_0_r; now apply flat_lt).
  f_equal. unfold swap_last2_index.
  destruct (div_mod_block j i m Hi) as [-> ->].
  rewrite (Nat.mod_small j n), (Nat.div_small j n) by lia. lia.
Qed.

(** The rows of a tensor times a matrix, element by element: row [r]
    of the product is row [r] of the left operand times the matrix. *)
Lemma matmul_right_2d_at {A : Type} `{Scalar A} (a b c : tensor A)
  (lead : list nat) (k n r j : nat) :
  shape a = lead ++ [k] -> shape b = [k; n] -> matmul a b = Ok c ->
  r < numel lead -> j < n ->
  at_ (data c) (r * n + j)
  = sum_list (tabulate k (fun t => mul (at_ (data a) (r * k + t))
                                       (at_ (data b) (t * n + j)))).
Proof.
  intros Ha Hb Hc Hr Hj. unfold matmul in Hc. rewrite Ha, Hb in Hc.
  induction lead as [|m lead' _] using rev_ind.
  - (* a vector *)
    cbn [app length Nat.eqb orb] in Hc.
    change [1; k] with ([] ++ [1; k]) in Hc.
    change [k; n] with ([] ++ [k; n]) in Hc.
    rewrite !split_last2_app, Nat.eqb_refl in Hc.
    cbn in Hc. injection Hc as <-. cbn [data].
    cbn [numel fold_right] in Hr. replace r with 0 by lia.
    match goal with
    | |- at_ (map ?f (seq 0 ?m)) _ = _ =>
        change (map f (seq 0 m)) with (tabulate m f)
    end.
    rewrite at_tabulate by lia. cbn [Nat.mul Nat.add].
    rewrite (Nat.mod_small j n) by lia. reflexivity.
  - rewrite <- app_assoc in Hc. cbn [app] in Hc.
    rewrite !length_app in Hc. cbn [length] in Hc.
    replace (length lead' + 2 =? 0) with false in Hc
      by (symmetry; apply Nat.eqb_neq; lia).
    replace (length lead' + 2 =? 1) with false in Hc
      by (symmetry; apply Nat.eqb_neq; lia).
    cbn [Nat.add Nat.eqb orb] in Hc.
    change [k; n] with ([] ++ [k; n]) in Hc.
    rewrite !split_last2_app, Nat.eqb_refl, broadcast_nil_r in Hc.
    cbn [bind] in Hc. injection Hc as <-. cbn [data].
    rewrite numel_app in Hr. cbn [numel fold_right] in Hr.
    rewrite Nat.mul_1_r in Hr.
    assert (Hm : m <> 0) by (intros ->; lia).
    rewrite at_tabulate by (now apply flat_lt).
    destruct (div_mod_block r j n Hj) as [-> ->].
    apply f_equal. apply tabulate_ext. intros t _.
    rewrite bcast_at_same
      by (apply Nat.Div0.div_lt_upper_bound; lia).
    pose proof (Nat.div_mod_eq r m) as E.
    do 3 f_equal. lia.
Qed.

(** ** The same, as entries and dot products *)

Lemma dot_ext {A : Type} `{Scalar A} (k : nat) (u v u' v' : nat -> A) :
  (forall t, t < k -> u t = u' t) -> (forall t, t < k -> v t = v' t) ->
  dot k u v = dot k u' v'.
Proof.
  intros Hu Hv. unfold dot. f_equal. apply tabulate_ext.
  intros t Ht. now rewrite Hu, Hv.
Qed.

Lemma T_entry {A : Type} `{Scalar A} (x : tensor A) (m n i j : nat) :
  shape x = [m; n] -> i < m -> j < n ->
  entry (T_ x) m j i = entry x n i j.
Proof. apply T_at. Qed.

Lemma matmul_right_2d_entry {A : Type} `{Scalar A} (a b c : tensor A)
  (lead : list nat) (k n r j : nat) :
  shape a = lead ++ [k] -> shape b = [k; n] -> matmul a b = Ok c ->
  r < numel lead -> j < n ->
  entry c n r j = dot k (entry a k r) (fun t => entry b n t j).
Proof. apply matmul_right_2d_at. Qed.

(** Batches of matrices with the same batch axes are multiplied matrix
    by matrix. *)
Lemma matmul_batched_entry {A : Type} `{Scalar A} (a b c : tensor A)
  (batch : list nat) (m k n bi i j : nat) :
  shape a = batch ++ [m; k] -> shape b = batch ++ [k; n] ->
  matmul a b = Ok c ->
  bi < numel batch -> i < m -> j < n ->
  entry c n (bi * m + i) j
  = dot k (entry a k (bi * m + i)) (fun t => entry b n (bi * k + t) j).
Proof.
  intros Ha Hb Hc Hbi Hi Hj. unfold matmul in Hc.
  rewrite Ha, Hb, !length_app in Hc. cbn [length] in Hc.
  replace (length batch + 2 =? 0) with false in Hc
    by (symmetry; apply Nat.eqb_neq; lia).
  replace (length batch + 2 =? 1) with false in Hc
    by (symmetry; apply Nat.eqb_neq; lia).
  cbn [orb] in Hc.
  rewrite !split_last2_app, Nat.eqb_refl, broadcast_refl in Hc.
  cbn [bind] in Hc. injection Hc as <-. unfold entry, dot. cbn [data].
  rewrite at_tabulate by (repeat apply flat_lt; assumption).
  destruct (div_mod_block (bi * m + i) j n Hj) as [-> ->].
  destruct (div_mod_block bi i m Hi) as [-> ->].
  now rewrite bcast_at_same.
Qed.

Lemma mT_entry {A : Type} `{Scalar A} (x y : tensor A)
  (batch : list nat) (m n bi i j : nat) :
  shape x = batch ++ [m; n] -> mT x = Ok y ->
  bi < numel batch -> i < m -> j < n ->
  entry y m (bi * n + j) i = entry x n (bi * m + i) j.
Proof.
  intros Hs Hy Hbi Hi Hj. unfold mT in Hy.
  rewrite Hs, split_last2_app in Hy. injection Hy as <-.
  unfold entry. cbn [data].
  rewrite at_tabulate by (repeat apply flat_lt; assumption).
  f_equal. unfold swap_last2_index.
  destruct (div_mod_block (bi * n + j) i m Hi) as [-> ->].
  destruct (div_mod_block bi j n Hj) as [-> ->].
  reflexivity.
Qed.

Lemma tadd_same_shape_entry {A : Type} `{Scalar A} (a b c : tensor A)
  (lead : list nat) (n r j : nat) :
  shape a = lead ++ [n] -> shape b = shape a -> tadd a b = Ok c ->
  r < numel lead -> j < n ->
  entry c n r j = add (entry a n r j) (entry b n r j).
Proof.
  intros Ha Hb Hc Hr Hj. unfold entry.
  apply tadd_same_shape_at; try assumption.
  rewrite Ha, numel_app. cbn [numel fold_right]. rewrite Nat.mul_1_r.
  now apply flat_lt.
Qed.

Lemma tadd_bias_entry {A : Type} `{Scalar A} (a b c : tensor A)
  (lead : list nat) (n r j : nat) :
  shape a = lead ++ [n] -> shape b = [n] -> tadd a b = Ok c ->
  r < numel lead -> j < n ->
  entry c n r j = add (entry a n r j) (at_ (data b) j).
Proof.
  intros Ha Hb Hc Hr Hj. unfold entry.
  rewrite (tadd_bias_at a b c lead n (r * n + j) Ha Hb Hc).
  - now destruct (div_mod_block r j n Hj) as [_ ->].
  - rewrite numel_app. cbn [numel fold_right]. rewrite Nat.mul_1_r.
    now apply flat_lt.
Qed.

(* ================================================================== *)
(** * Quantized LoRA forward (C3) and backward (C2) *)
(* ================================================================== *)

Section LoRA_facts.

Context {A : Type} `{Scalar A}.
Variables packed quant_state : Type.
Variable dequantize_nf4 : packed -> quant_state -> tensor A.

(** C3: for an input [x] of shape [(..., in_features)], a base weight
    that dequantizes to [(out_features, in_features)], adapters
    [A : (in_features, rank)] and [B : (rank, out_features)] and an
    optional bias of shape [(out_features,)], [lora_forward] returns
    [(output, main, lora_a_out)] with [main = x @ W (+ b)], [W] the
    transposed dequantized weight of shape (in_features,
    out_features), [lora_a_out = x @ A] and
    [output = main + lora_a_out @ B]; the output has the leading axes
    of [x] and trailing size [out_features].  Entry by entry, for every
    row [r] of [x]: [main[r, j]] is the dot product of [x[r, :]] with
    the row [j] of the dequantized weight, plus [b[j]] when there is a
    bias; [lora_a_out[r, q]] is the dot product of [x[r, :]] with
    [A[:, q]]; [output[r, j]] is [main[r, j]] plus the dot product of
    [lora_a_out[r, :]] with [B[:, j]].  The function is pure: its
    arguments are values, none is changed. *)
Theorem lora_forward_triple
  (w : packed) (qs : quant_state) (w_lora_a w_lora_b : tensor A)
  (b : option (tensor A)) (x : tensor A)
  (lead : list nat) (in_features out_features rank : nat) :
  shape (dequantize_nf4 w qs) = [out_features; in_features] ->
  shape w_lora_a = [in_features; rank] ->
  shape w_lora_b = [rank; out_features] ->
  shape x = lead ++ [in_features] ->
  (forall bias, b = Some bias -> shape bias = [out_features]) ->
  exists xw lora_a_out lora_out main output,
    lora_forward dequantize_nf4 w qs w_lora_a w_lora_b b x
    = Ok (output, main, lora_a_out) /\
    shape (T_ (dequantize_nf4 w qs)) = [in_features; out_features] /\
    matmul x (T_ (dequantize_nf4 w qs)) = Ok xw /\
    match b with
    | Some bias => tadd xw bias = Ok main
    | None => main = xw
    end /\
    matmul x w_lora_a = Ok lora_a_out /\
    matmul lora_a_out w_lora_b = Ok lora_out /\
    tadd main lora_out = Ok output /\
    shape output = lead ++ [out_features] /\
    shape main = lead ++ [out_features] /\
    shape lora_a_out = lead ++ [rank] /\
    (forall r j, r < numel lead -> j < out_features ->
       entry main out_features r j
       = let base := dot in_features (entry x in_features r)
                         (entry (dequantize_nf4 w qs) in_features j) in
         match b with
         | Some bias => add base (at_ (data bias) j)
         | None => base
         end) /\
    (forall r q, r < numel lead -> q < rank ->
       entry lora_a_out rank r q
       = dot in_features (entry x in_features r)
             (fun t => entry w_lora_a rank t q)) /\
    (forall r j, r < numel lead -> j < out_features ->
       entry output out_features r j
       = add (entry main out_features r j)
             (dot rank (entry lora_a_out rank r)
                  (fun q => entry w_lora_b out_features q j))).
Proof.
  intros Hw Ha Hb Hx Hbias.
  destruct (t_ok _ _ _ Hw) as [Ht HsW].
  destruct (matmul_right_2d x _ lead _ _ Hx HsW) as (xw & Hxw & Hsxw).
  assert (Hxw_at : forall r j, r < numel lead -> j < out_features ->
            entry xw out_features r j
            = dot in_features (entry x in_features r)
                  (entry (dequantize_nf4 w qs) in_features j)).
  { intros r j Hr Hj.
    rewrite (matmul_right_2d_entry x _ xw lead _ _ r j Hx HsW Hxw Hr Hj).
    apply dot_ext; [reflexivity|].
    intros t Ht'. now apply T_entry. }
  assert (Hmain : exists main,
             match b with
             | Some bias => tadd xw bias = Ok main
             | None => main = xw
             end /\ shape main = lead ++ [out_features] /\
             (forall r j, r < numel lead -> j < out_features ->
                entry main out_features r j
                = let base := dot in_features (entry x in_features r)
                                (entry (dequantize_nf4 w qs) in_features j) in
                  match b with
                  | Some bias => add base (at_ (data bias) j)
                  | None => base
                  end)).
  { destruct b as [bias|].
    - destruct (tadd_bias xw bias lead _ Hsxw (Hbias bias eq_refl))
        as (main & Hm & Hsm).
      exists main. repeat split; try assumption.
      intros r j Hr Hj. cbv zeta.
      rewrite (tadd_bias_entry xw bias main lead _ r j Hsxw
                 (Hbias bias eq_refl) Hm Hr Hj).
      now rewrite Hxw_at.
    - exists xw. repeat split; try assumption. }
  destruct Hmain as (main & Hm & Hsm & Hmain_at).
  destruct (matmul_right_2d x _ lead _ _ Hx Ha) as (la & Hla & Hsla).
  destruct (matmul_right_2d la _ lead _ _ Hsla Hb) as (lo & Hlo & Hslo).
  assert (Hss : shape lo = shape main) by congruence.
  destruct (tadd_same_shape main lo Hss) as (out & Hout & Hsout).
  exists xw, la, lo, main, out.
  split.
  { unfold lora_forward, to_. rewrite Ht. cbn [bind]. rewrite Hxw.
    destruct b as [bias|]; cbn [bind].
    - rewrite Hm. cbn [bind]. rewrite Hla. cbn [bind].
      rewrite Hlo. cbn [bind]. rewrite Hout. reflexivity.
    - subst main. rewrite Hla. cbn [bind].
      rewrite Hlo. cbn [bind]. rewrite Hout. reflexivity. }
  repeat (split; [assumption || congruence|]).
  split.
  - intros r q Hr Hq.
    exact (matmul_right_2d_entry x _ la lead _ _ r q Hx Ha Hla Hr Hq).
  - intros r j Hr Hj.
    rewrite (tadd_same_shape_entry main lo out lead _ r j Hsm Hss Hout Hr Hj).
    f_equal.
    exact (matmul_right_2d_entry la _ lo lead _ _ r j Hsla Hb Hlo Hr Hj).
Qed.

(** C2, as the code has it: for activations [x : batch ++ (s,
    in_features)], [x_lora_a : batch ++ (s, rank)] and
    [grad_y : batch ++ (s, out_features)], [lora_backward] returns
    exactly [(grad_A, grad_B, grad_x)] with
    [grad_medium = grad_y @ B^T], [grad_A = x^T @ grad_medium],
    [grad_B = x_lora_a^T @ grad_y] and
    [grad_x = grad_y @ W^T + grad_medium @ A^T]; no component belongs
    to the quantized weight.  [grad_x] has the shape of [x]; [grad_A]
    and [grad_B] have the shapes [batch ++ (in_features, rank)] and
    [batch ++ (rank, out_features)]: those of [A] and [B] when
    [batch] is empty (2-D activations), with the batch axes kept in
    front otherwise.  Entry by entry, for the matrix [bi] of the batch
    and its token [i] (row [bi * s + i]):
    [grad_medium[row, q] = sum_o grad_y[row, o] * B[q, o]],
    [grad_A[bi][t, q] = sum_i x[row, t] * grad_medium[row, q]],
    [grad_B[bi][q, o] = sum_i x_lora_a[row, q] * grad_y[row, o]] and
    [grad_x[row, t] = sum_o grad_y[row, o] * Wq[o, t]
                      + sum_q grad_medium[row, q] * A[t, q]]
    with [Wq] the dequantized weight. *)
Theorem lora_backward_triple
  (w : packed) (qs : quant_state) (w_lora_a w_lora_b : tensor A)
  (x x_lora_a grad_y : tensor A)
  (batch : list nat) (s in_features out_features rank : nat) :
  shape (dequantize_nf4 w qs) = [out_features; in_features] ->
  shape w_lora_a = [in_features; rank] ->
  shape w_lora_b = [rank; out_features] ->
  shape x = batch ++ [s; in_features] ->
  shape x_lora_a = batch ++ [s; rank] ->
  shape grad_y = batch ++ [s; out_features] ->
  exists b_t x_t x_lora_a_t grad_medium base_path lora_path
         grad_A grad_B grad_x,
    lora_backward dequantize_nf4 w qs w_lora_a w_lora_b x x_lora_a grad_y
    = Ok (grad_A, grad_B, grad_x) /\
    mT w_lora_b = Ok b_t /\
    matmul grad_y b_t = Ok grad_medium /\
    mT x = Ok x_t /\
    matmul x_t grad_medium = Ok grad_A /\
    mT x_lora_a = Ok x_lora_a_t /\
    matmul x_lora_a_t grad_y = Ok grad_B /\
    matmul grad_y (T_ (T_ (dequantize_nf4 w qs))) = Ok base_path /\
    matmul grad_medium (T_ w_lora_a) = Ok lora_path /\
    tadd base_path lora_path = Ok grad_x /\
    shape grad_A = batch ++ [in_features; rank] /\
    shape grad_B = batch ++ [rank; out_features] /\
    shape grad_x = shape x /\
    (forall row q, row < numel batch * s -> q < rank ->
       entry grad_medium rank row q
       = dot out_features (entry grad_y out_features row)
             (entry w_lora_b out_features q)) /\
    (forall bi t q, bi < numel batch -> t < in_features -> q < rank ->
       entry grad_A rank (bi * in_features + t) q
       = dot s (fun i => entry x in_features (bi * s + i) t)
             (fun i => entry grad_medium rank (bi * s + i) q)) /\
    (forall bi q o, bi < numel batch -> q < rank -> o < out_features ->
       entry grad_B out_features (bi * rank + q) o
       = dot s (fun i => entry x_lora_a rank (bi * s + i) q)
             (fun i => entry grad_y out_features (bi * s + i) o)) /\
    (forall row t, row < numel batch * s -> t < in_features ->
       entry grad_x in_features row t
       = add (dot out_features (entry grad_y out_features row)
                  (fun o => entry (dequantize_nf4 w qs) in_features o t))
             (dot rank (entry grad_medium rank row)
                  (entry w_lora_a rank t))).
Proof.
  intros Hw Ha Hb Hx Hxl Hg.
  assert (Hrows : forall n, batch ++ [s; n] = (batch ++ [s]) ++ [n])
    by (intros; now rewrite <- app_assoc).
  assert (Hnrows : numel (batch ++ [s]) = numel batch * s).
  { rewrite numel_app. cbn [numel fold_right]. lia. }
  destruct (t_ok _ _ _ Hw) as [Ht HsW].
  destruct (mT_ok w_lora_b [] _ _ Hb) as (bt & Hbt & Hsbt).
  cbn [app] in Hsbt.
  destruct (matmul_ok grad_y bt batch [] batch s out_features rank
              Hg Hsbt (broadcast_nil_r batch)) as (gm & Hgm & Hsgm).
  destruct (mT_ok x batch _ _ Hx) as (xt & Hxt & Hsxt).
  destruct (matmul_ok xt gm batch batch batch in_features s rank
              Hsxt Hsgm (broadcast_refl batch)) as (gA & HgA & HsgA).
  destruct (mT_ok x_lora_a batch _ _ Hxl) as (xlt & Hxlt & Hsxlt).
  destruct (matmul_ok xlt grad_y batch batch batch rank s out_features
              Hsxlt Hg (broadcast_refl batch)) as (gB & HgB & HsgB).
  assert (HsWT : shape (T_ (T_ (dequantize_nf4 w qs)))
                 = [out_features; in_features]).
  { unfold T_ at 1. cbn [shape]. now rewrite HsW. }
  destruct (matmul_ok grad_y _ batch [] batch s out_features in_features
              Hg HsWT (broadcast_nil_r batch)) as (bp & Hbp & Hsbp).
  assert (HsAT : shape (T_ w_lora_a) = [rank; in_features]).
  { unfold T_. cbn [shape]. now rewrite Ha. }
  destruct (matmul_ok gm _ batch [] batch s rank in_features
              Hsgm HsAT (broadcast_nil_r batch)) as (lp & Hlp & Hslp).
  assert (Hss : shape lp = shape bp) by congruence.
  destruct (iadd_same_shape bp lp Hss) as (gx & Hgx & Hgx' & Hsgx).
  exists bt, xt, xlt, gm, bp, lp, gA, gB, gx.
  split.
  { unfold lora_backward, to_. rewrite Ht. cbn [bind].
    rewrite Hbt. cbn [bind]. rewrite Hgm. cbn [bind].
    rewrite Hxt. cbn [bind]. rewrite HgA. cbn [bind].
    rewrite Hxlt. cbn [bind]. rewrite HgB. cbn [bind].
    rewrite Hbp. cbn [bind]. rewrite Hlp. cbn [bind].
    rewrite Hgx. reflexivity. }
  repeat (split; [assumption || congruence|]).
  rewrite Hrows in Hg, Hsgm, Hsbp, Hslp.
  assert (Hgm_at : forall row q, row < numel batch * s -> q < rank ->
            entry gm rank row q
            = dot out_features (entry grad_y out_features row)
                  (entry w_lora_b out_features q)).
  { intros row q Hr Hq.
    rewrite (matmul_right_2d_entry grad_y bt gm (batch ++ [s]) _ _ row q
               Hg Hsbt Hgm ltac:(lia) Hq).
    apply dot_ext; [reflexivity|]. intros o Ho.
    pose proof (mT_entry w_lora_b bt [] rank out_features 0 q o
                  Hb Hbt ltac:(cbn; lia) Hq Ho) as E.
    cbn [Nat.mul Nat.add] in E. exact E. }
  split; [exact Hgm_at|]. split; [|split].
  - intros bi t q Hbi Ht' Hq.
    rewrite <- Hrows in Hsgm.
    rewrite (matmul_batched_entry xt gm gA batch _ _ _ bi t q
               Hsxt Hsgm HgA Hbi Ht' Hq).
    apply dot_ext; [|reflexivity]. intros i Hi.
    exact (mT_entry x xt batch s in_features bi i t Hx Hxt Hbi Hi Ht').
  - intros bi q o Hbi Hq Ho.
    rewrite <- Hrows in Hg.
    rewrite (matmul_batched_entry xlt grad_y gB batch _ _ _ bi q o
               Hsxlt Hg HgB Hbi Hq Ho).
    apply dot_ext; [|reflexivity]. intros i Hi.
    exact (mT_entry x_lora_a xlt batch s rank bi i q Hxl Hxlt Hbi Hi Hq).
  - intros row t Hr Ht'.
    rewrite (tadd_same_shape_entry bp lp gx (batch ++ [s]) _ row t
               Hsbp Hss Hgx' ltac:(lia) Ht').
    f_equal.
    + rewrite (matmul_right_2d_entry grad_y _ bp (batch ++ [s]) _ _ row t
                 Hg HsWT Hbp ltac:(lia) Ht').
      apply dot_ext; [reflexivity|]. intros o Ho.
      rewrite (T_entry (T_ (dequantize_nf4 w qs)) in_features out_features
                 t o HsW Ht' Ho).
      exact (T_entry (dequantize_nf4 w qs) out_features in_features
               o t Hw Ho Ht').
    + rewrite (matmul_right_2d_entry gm _ lp (batch ++ [s]) _ _ row t
                 Hsgm HsAT Hlp ltac:(lia) Ht').
      apply dot_ext; [reflexivity|]. intros q Hq.
      exact (T_entry w_lora_a in_features rank t q Ha Ht' Hq).
Qed.

End LoRA_facts.

(** The forward triple on two tokens with a bias. *)
Lemma lora_forward_triple_witness :
  exists output main lora_a_out,
    lora_forward Demo.dequant tt tt Demo.lora_a Demo.lora_b
                 (Some Demo.bias) Demo.x2
    = Ok (output, main, lora_a_out) /\
    shape output = [2; 2].
Proof.
  destruct (@lora_forward_triple Z _ unit unit Demo.dequant tt tt
              Demo.lora_a Demo.lora_b (Some Demo.bias) Demo.x2 [2] 3 2 1)
    as (xw & la & lo & main & out & Hrun & _ & _ & _ & _ & _ & _ & Hs & _).
  - reflexivity.
  - reflexivity.
  - reflexivity.
  - reflexivity.
  - intros b Hb. injection Hb as <-. reflexivity.
  - exists out, main, la. split; assumption.
Defined.

(** The backward triple on two tokens given as a matrix: the adapter
    gradients have the shapes of the adapters. *)
Lemma lora_backward_triple_witness :
  exists grad_A grad_B grad_x,
    lora_backward Demo.dequant tt tt Demo.lora_a Demo.lora_b
                  Demo.x2 Demo.x2_lora_a Demo.grad2
    = Ok (grad_A, grad_B, grad_x) /\
    shape grad_A = shape Demo.lora_a /\
    shape grad_B = shape Demo.lora_b /\
    shape grad_x = shape Demo.x2.
Proof.
  destruct (@lora_backward_triple Z _ unit unit Demo.dequant tt tt
              Demo.lora_a Demo.lora_b Demo.x2 Demo.x2_lora_a Demo.grad2
              [] 2 3 2 1)
    as (bt & xt & xlt & gm & bp & lp & gA & gB & gx & Hrun
        & _ & _ & _ & _ & _ & _ & _ & _ & _ & HA & HB & HX & _);
    try reflexivity.
  exists gA, gB, gx. repeat split; assumption.
Defined.

(** C2 as stated fails on batched activations: with [x] of shape
    (2, 1, 3) the gradients returned for [A : (3, 1)] and [B : (1, 2)]
    have the shapes (2, 3, 1) and (2, 1, 2). *)
Lemma lora_backward_batched_shapes :
  exists grad_A grad_B grad_x,
    lora_backward Demo.dequant tt tt Demo.lora_a Demo.lora_b
                  Demo.x3 Demo.x3_lora_a Demo.grad3
    = Ok (grad_A, grad_B, grad_x) /\
    shape grad_A = [2; 3; 1] /\ shape grad_A <> shape Demo.lora_a /\
    shape grad_B = [2; 1; 2] /\ shape grad_B <> shape Demo.lora_b.
Proof.
  do 3 eexists. split; [reflexivity|].
  repeat split; discriminate.
Qed.

(** ** The tensor operations on small inputs *)

Example matmul_2x3_3x2 :
  matmul (Tensor [2; 3] [1; 2; 3; 4; 5; 6]%Z)
         (Tensor [3; 2] [1; 0; 0; 1; 1; 1]%Z)
  = Ok (Tensor [2; 2] [4; 5; 10; 11]%Z).
Proof. reflexivity. Qed.

Example matmul_vector_matrix :
  matmul (Tensor [3] [1; 2; 3]%Z) (Tensor [3; 2] [1; 0; 0; 1; 1; 1]%Z)
  = Ok (Tensor [2] [4; 5]%Z).
Proof. reflexivity. Qed.

Example matmul_batched :
  (y <- mT (Tensor [2; 1; 2] [1; 2; 3; 4]%Z) ;;
   matmul y (Tensor [2; 1; 2] [1; 2; 3; 4]%Z))
  = Ok (Tensor [2; 2; 2] [1; 2; 2; 4; 9; 12; 12; 16]%Z).
Proof. reflexivity. Qed.

Example matmul_inner_mismatch :
  matmul (Tensor [2; 3] [1; 2; 3; 4; 5; 6]%Z) (Tensor [2; 1] [1; 1]%Z)
  = Raise (RuntimeError MatmulMismatch).
Proof. reflexivity. Qed.

Example transpose_2x3 :
  T_ (Tensor [2; 3] [1; 2; 3; 4; 5; 6]%Z)
  = Tensor [3; 2] [1; 4; 2; 5; 3; 6]%Z.
Proof. reflexivity. Qed.

Example tadd_bias_row :
  tadd (Tensor [2; 3] [1; 2; 3; 4; 5; 6]%Z) (Tensor [3] [10; 20; 30]%Z)
  = Ok (Tensor [2; 3] [11; 22; 33; 14; 25; 36]%Z).
Proof. reflexivity. Qed.

Example tadd_mismatch :
  tadd (Tensor [2; 3] [1; 2; 3; 4; 5; 6]%Z) (Tensor [2] [10; 20]%Z)
  = Raise (RuntimeError BroadcastMismatch).
Proof. reflexivity. Qed.

Example hidden_to_head_shape_2_heads :
  hidden_to_head_shape (Tensor [1; 2; 4] [1; 2; 3; 4; 5; 6; 7; 8]%Z) 2
  = Ok (Tensor [1; 2; 2; 2] [1; 2; 5; 6; 3; 4; 7; 8]%Z).
Proof. reflexivity. Qed.

Example hidden_to_head_shape_indivisible :
  hidden_to_head_shape (Tensor [1; 2; 3] [1; 2; 3; 4; 5; 6]%Z) 2
  = Raise (RuntimeError InvalidShape).
Proof. reflexivity. Qed.

Example repeat_kv_3 :
  repeat_kv (Tensor [1; 2; 1; 2] [1; 2; 3; 4]%Z) 3
  = Ok (Tensor [1; 6; 1; 2] [1; 2; 1; 2; 1; 2; 3; 4; 3; 4; 3; 4]%Z).
Proof. reflexivity. Qed.

Example lora_forward_two_tokens :
  lora_forward Demo.dequant tt tt Demo.lora_a Demo.lora_b
               (Some Demo.bias) Demo.x2
  = Ok (Tensor [2; 2] [102; 206; 103; 207]%Z,
        Tensor [2; 2] [101; 204; 102; 205]%Z,
        Tensor [2; 1] [1; 1]%Z).
Proof. reflexivity. Qed.

Example lora_backward_two_tokens :
  lora_backward Demo.dequant tt tt Demo.lora_a Demo.lora_b
                Demo.x2 Demo.x2_lora_a Demo.grad2
  = Ok (Tensor [3; 1] [1; 2; 0]%Z,
        Tensor [1; 2] [1; 1]%Z,
        Tensor [2; 3] [2; 3; 4; 6; 7; 8]%Z).
Proof. reflexivity. Qed.

(* ================================================================== *)
(** * Answer extraction of the harness (C9, C10) *)
(* ================================================================== *)

Module MetricsFacts.

Import Ascii String QArith Qabs.
Import Metrics.
Local Open Scope string_scope.

(** ** Strings *)

Lemma append_nil_r (s : string) : s ++ "" = s.
Proof. induction s as [|c s IH]; simpl; [reflexivity | now rewrite IH]. Qed.

Lemma append_assoc (s1 s2 s3 : string) : (s1 ++ s2) ++ s3 = s1 ++ s2 ++ s3.
Proof.
  induction s1 as [|c s1 IH]; simpl; [reflexivity | now rewrite IH].
Qed.

Lemma length_append (s1 s2 : string) :
  String.length (s1 ++ s2) = (String.length s1 + String.length s2)%nat.
Proof.
  induction s1 as [|c s1 IH]; simpl; [reflexivity | now rewrite IH].
Qed.

Lemma length_zero (s : string) :
  (String.length s =? 0)%nat = true <-> s = "".
Proof. destruct s; simpl; split; intros E; congruence. Qed.

Lemma prefix_occurs (t p : string) :
  prefix t p = true -> exists post, p = t ++ post.
Proof.
  revert p. induction t as [|c t IH]; intros p Hp.
  - exists p. reflexivity.
  - destruct p as [|c' p]; simpl in Hp; [discriminate|].
    destruct (ascii_dec c c') as [<- | Hne]; [|discriminate].
    destruct (IH p Hp) as [post ->]. exists post. reflexivity.
Qed.

(** ** [find] and [extract_output] *)

Lemma find_from_absent (pred trigger : string) (i : Z) :
  ~ occurs trigger pred -> find_from i pred trigger = (-1)%Z.
Proof.
  revert i. induction pred as [|c pred IH]; intros i Habs.
  - cbn [find_from]. destruct (prefix trigger "") eqn:Hp; [|reflexivity].
    exfalso. apply Habs. destruct (prefix_occurs _ _ Hp) as [post E].
    exists "", post. exact E.
  - cbn [find_from]. destruct (prefix trigger (String c pred)) eqn:Hp.
    + exfalso. apply Habs. destruct (prefix_occurs _ _ Hp) as [post E].
      exists "", post. exact E.
    + apply IH. intros (pre & post & E). apply Habs.
      exists (String c pre), post. simpl. now rewrite E.
Qed.

(** An absent trigger gives the empty generation. *)
Lemma extract_output_absent (pred trigger : string) :
  ~ occurs trigger pred -> extract_output pred trigger = "".
Proof.
  intros Habs. unfold extract_output.
  destruct (String.length trigger =? 0)%nat eqn:Hl.
  - exfalso. apply Habs. apply length_zero in Hl. subst trigger.
    exists "", pred. reflexivity.
  - unfold find. now rewrite find_from_absent.
Qed.

(** ** The pattern *)

Lemma take_digits_spec (s ds rest : string) :
  take_digits s = (ds, rest) ->
  s = ds ++ rest /\ all_digits ds = true /\ starts_without_digit rest = true.
Proof.
  revert ds rest. induction s as [|c s IH]; simpl; intros ds rest E.
  - inversion E; subst. auto.
  - destruct (is_digit c) eqn:Hc.
    + destruct (take_digits s) as [ds' rest'].
      inversion E; subst.
      destruct (IH _ _ eq_refl) as (-> & Had & Hr).
      simpl. rewrite Hc. auto.
    + inversion E; subst. simpl. rewrite Hc. auto.
Qed.

Lemma take_digits_append (ds rest : string) :
  all_digits ds = true -> starts_without_digit rest = true ->
  take_digits (ds ++ rest) = (ds, rest).
Proof.
  intros Hd Hr. induction ds as [|c ds IH]; simpl.
  - destruct rest as [|c r]; [reflexivity|].
    simpl in Hr. apply negb_true_iff in Hr. simpl. now rewrite Hr.
  - simpl in Hd. apply andb_true_iff in Hd as [Hc Hd].
    now rewrite Hc, IH.
Qed.

Lemma point_is_no_digit (c : ascii) :
  Ascii.eqb c "." = true -> is_digit c = false.
Proof. intros E. apply Ascii.eqb_eq in E. now subst. Qed.

Lemma minus_is_no_digit (c : ascii) :
  Ascii.eqb c "-" = true -> is_digit c = false.
Proof. intros E. apply Ascii.eqb_eq in E. now subst. Qed.

Lemma digit_is_no_sign (c : ascii) :
  is_digit c = true -> Ascii.eqb c "-" = false /\ Ascii.eqb c "+" = false.
Proof.
  intros Hc. split; apply Ascii.eqb_neq; intros ->; discriminate.
Qed.

Lemma match_unsigned_spec (s m rest : string) :
  match_unsigned s = Some (m, rest) ->
  s = m ++ rest /\ unsigned_literal m /\ starts_without_digit rest = true.
Proof.
  unfold match_unsigned.
  destruct (take_digits s) as [i r1] eqn:Ei.
  destruct (take_digits_spec _ _ _ Ei) as (-> & Hi & Hr1).
  destruct (String.length i =? 0)%nat eqn:Hl; [discriminate|].
  assert (Hne : i <> "").
  { intros ->. discriminate. }
  destruct r1 as [|c r].
  - simpl. intros E. inversion E; subst.
    split; [now rewrite !append_nil_r | split; [|reflexivity]].
    exists i, "", "". repeat (split; [reflexivity || assumption|]). auto.
  - destruct (Ascii.eqb c ".") eqn:Hc.
    + apply Ascii.eqb_eq in Hc. subst c.
      destruct (take_digits r) as [f r3] eqn:Ef.
      destruct (take_digits_spec _ _ _ Ef) as (-> & Hf & Hr3).
      intros E. inversion E; subst.
      split; [now rewrite !append_assoc | split; [|assumption]].
      exists i, ".", f. repeat (split; [reflexivity || assumption|]). auto.
    + destruct (take_digits (String c r)) as [f r3] eqn:Ef.
      assert (Ef' : take_digits (String c r) = ("", String c r)).
      { simpl in Hr1. apply negb_true_iff in Hr1. simpl. now rewrite Hr1. }
      rewrite Ef' in Ef. inversion Ef; subst.
      intros E. inversion E; subst.
      split; [now rewrite !append_nil_r | split; [|assumption]].
      exists i, "", "". repeat (split; [reflexivity || assumption|]). auto.
Qed.

Lemma unsigned_literal_number (m : string) :
  unsigned_literal m -> number_literal m /\ number_literal (String "-" m).
Proof.
  intros (i & d & f & -> & Hne & Hi & Hdf).
  assert (Hd : d = "" \/ d = ".") by (destruct Hdf as [[? _] | [? _]]; auto).
  assert (Hf : all_digits f = true)
    by (destruct Hdf as [[_ ->] | [_ ?]]; auto).
  split.
  - exists "", i, d, f. auto 10.
  - exists "-", i, d, f. auto 10.
Qed.

Lemma unsigned_literal_starts_with_digit (m : string) :
  unsigned_literal m ->
  exists c m', m = String c m' /\ is_digit c = true.
Proof.
  intros (i & d & f & -> & Hne & Hi & _).
  destruct i as [|c i]; [congruence|].
  simpl in Hi. apply andb_true_iff in Hi as [Hc _].
  exists c, (i ++ d ++ f). auto.
Qed.

(** A match of the unsigned pattern is a decimal literal of [float]. *)
Lemma unsigned_decimal_literal (m : string) :
  unsigned_literal m -> exists q, unsigned_decimal m = Ok q.
Proof.
  intros (i & d & f & -> & Hne & Hi & Hdf).
  assert (Hl : (String.length i =? 0)%nat = false).
  { destruct i; [congruence | reflexivity]. }
  unfold unsigned_decimal.
  destruct Hdf as [[-> ->] | [-> Hf]].
  - rewrite take_digits_append by auto. rewrite Hl. cbn [append]. eauto.
  - rewrite take_digits_append by auto.
    cbn [append]. change (Ascii.eqb "." ".") with true.
    rewrite Hf, Hl. cbn [andb negb]. eauto.
Qed.

Lemma match_number_spec (s m rest : string) :
  match_number s = Some (m, rest) ->
  s = m ++ rest /\ number_literal m /\
  (exists v, float m = Ok v) /\
  has_digit m = true /\ starts_without_digit rest = true.
Proof.
  assert (Hu : forall s m rest,
             match_unsigned s = Some (m, rest) ->
             s = m ++ rest /\ number_literal m /\
             (exists v, float m = Ok v) /\
             has_digit m = true /\ starts_without_digit rest = true).
  { clear. intros s m rest E.
    destruct (match_unsigned_spec _ _ _ E) as (-> & Hlit & Hr).
    destruct (unsigned_literal_starts_with_digit _ Hlit) as (c & m' & Em & Hc).
    destruct (unsigned_decimal_literal _ Hlit) as (q & Hq).
    split; [reflexivity|]. split; [now apply unsigned_literal_number|].
    split; [|split; [|assumption]].
    - subst m. unfold float.
      destruct (digit_is_no_sign _ Hc) as [-> ->].
      rewrite Hq. cbn. eauto.
    - subst m. simpl. now rewrite Hc. }
  unfold match_number. destruct s as [|c s']; [apply Hu|].
  destruct (Ascii.eqb c "-") eqn:Hc; [|apply Hu].
  destruct (match_unsigned s') as [[m' rest']|] eqn:Em; [|apply Hu].
  intros E. inversion E; subst.
  apply Ascii.eqb_eq in Hc. subst c.
  destruct (match_unsigned_spec _ _ _ Em) as (-> & Hlit & Hr).
  destruct (unsigned_literal_starts_with_digit _ Hlit) as (c & m'' & Em' & Hd).
  destruct (unsigned_decimal_literal _ Hlit) as (q & Hq).
  split; [reflexivity|]. split; [now apply unsigned_literal_number|].
  split; [|split; [|assumption]].
  - unfold float. change (Ascii.eqb "-" "-") with true.
    rewrite Hq. cbn. eauto.
  - subst m'. cbn [has_digit]. rewrite Hd. now rewrite orb_true_r.
Qed.

(** ** [findall] *)

Lemma has_digit_append (a b : string) :
  has_digit (a ++ b) = has_digit a || has_digit b.
Proof.
  induction a as [|c a IH]; simpl; [reflexivity|].
  now rewrite IH, orb_assoc.
Qed.

Lemma has_digit_remove_commas (s : string) :
  has_digit (remove_commas s) = has_digit s.
Proof.
  induction s as [|c s IH]; simpl; [reflexivity|].
  destruct (Ascii.eqb c ",") eqn:Hc.
  - apply Ascii.eqb_eq in Hc. subst c. exact IH.
  - simpl. now rewrite IH.
Qed.

(** A match takes at least one character. *)
Lemma match_number_shorter (s m rest : string) :
  match_number s = Some (m, rest) ->
  (String.length rest < String.length s)%nat.
Proof.
  intros E. destruct (match_number_spec _ _ _ E) as (-> & _ & _ & Hd & _).
  rewrite length_append. destruct m; [discriminate | simpl; lia].
Qed.

(** Where the pattern does not match, the first character is no
    digit. *)
Lemma match_number_none (c : ascii) (s : string) :
  match_number (String c s) = None -> is_digit c = false.
Proof.
  assert (Hu : match_unsigned (String c s) = None -> is_digit c = false).
  { unfold match_unsigned. simpl.
    destruct (is_digit c); [|reflexivity].
    destruct (take_digits s) as [ds rest]. simpl.
    destruct rest as [|c' r]; [|destruct (Ascii.eqb c' ".")];
      destruct (take_digits _); discriminate. }
  unfold match_number. destruct (Ascii.eqb c "-") eqn:Hc; [|exact Hu].
  intros _. now apply minus_is_no_digit.
Qed.

(** The fuel [findall] gives is enough: more changes nothing. *)
Lemma findall_from_enough (f1 f2 : nat) (s : string) :
  (String.length s <= f1)%nat -> (String.length s <= f2)%nat ->
  findall_from f1 s = findall_from f2 s.
Proof.
  revert f2 s. induction f1 as [|f1 IH]; intros f2 s H1 H2.
  - destruct s; [|simpl in H1; lia]. now destruct f2.
  - destruct f2 as [|f2].
    + destruct s; [reflexivity | simpl in H2; lia].
    + destruct s as [|c s]; [reflexivity|]. cbn [findall_from].
      destruct (match_number (String c s)) as [[m rest]|] eqn:Em.
      * apply match_number_shorter in Em. simpl in *.
        f_equal. apply IH; lia.
      * simpl in *. apply IH; lia.
Qed.

(** Every string [findall] returns is in the language of the pattern
    and is accepted by [float]. *)
Lemma findall_from_literals (fuel : nat) (s m : string) :
  List.In m (findall_from fuel s) ->
  number_literal m /\ exists v, float m = Ok v.
Proof.
  revert s. induction fuel as [|fuel IH]; intros s Hin; [destruct Hin|].
  destruct s as [|c s]; [destruct Hin|]. cbn [findall_from] in Hin.
  destruct (match_number (String c s)) as [[m' rest]|] eqn:Em.
  - destruct Hin as [<- | Hin]; [|now apply IH with (s := rest)].
    destruct (match_number_spec _ _ _ Em) as (_ & Hl & Hv & _). auto.
  - now apply IH with (s := s).
Qed.

(** A string with a digit has a match. *)
Lemma findall_from_nonempty (fuel : nat) (s : string) :
  has_digit s = true -> (String.length s <= fuel)%nat ->
  findall_from fuel s <> [].
Proof.
  revert s. induction fuel as [|fuel IH]; intros s Hd Hl.
  - destruct s; [discriminate | simpl in Hl; lia].
  - destruct s as [|c s]; [discriminate|]. cbn [findall_from].
    destruct (match_number (String c s)) as [[m rest]|] eqn:Em;
      [discriminate|].
    apply match_number_none in Em. simpl in Hd, Hl. rewrite Em in Hd.
    apply IH; [exact Hd | lia].
Qed.

(** A string without digits has none. *)
Lemma findall_from_no_digit (fuel : nat) (s : string) :
  has_digit s = false -> findall_from fuel s = [].
Proof.
  revert s. induction fuel as [|fuel IH]; intros s Hd; [reflexivity|].
  destruct s as [|c s]; [reflexivity|]. cbn [findall_from].
  destruct (match_number (String c s)) as [[m rest]|] eqn:Em.
  - destruct (match_number_spec _ _ _ Em) as (E & _ & _ & Hm & _).
    rewrite E, has_digit_append, Hm in Hd. discriminate.
  - apply IH. simpl in Hd. now apply orb_false_iff in Hd.
Qed.


Lemma last_in (l : list string) (d : string) :
  l <> [] -> List.In (List.last l d) l.
Proof.
  induction l as [|x l IH]; [congruence|]. intros _.
  destruct l as [|y l]; [now left|].
  right. apply IH. discriminate.
Qed.


(** [extract_answer_number] never raises. *)
Lemma extract_answer_number_total (sentence : string) :
  exists v, extract_answer_number sentence = Ok v.
Proof.
  unfold extract_answer_number.
  destruct (findall (remove_commas sentence)) as [|m ms] eqn:E; [eauto|].
  assert (Hin : List.In (List.last (m :: ms) "") (m :: ms))
    by (apply last_in; discriminate).
  rewrite <- E in Hin at 2. unfold findall in Hin.
  destruct (findall_from_literals _ _ _ Hin) as (_ & v & Hv).
  exists v. now rewrite Hv.
Qed.

Lemma numeric_match_inf (answer : pyfloat) :
  numeric_match answer PosInf = false.
Proof. now destruct answer. Qed.

Lemma extract_answer_number_no_match (sentence : string) :
  findall (remove_commas sentence) = [] ->
  extract_answer_number sentence = Ok PosInf.
Proof. intros E. unfold extract_answer_number. now rewrite E. Qed.

Lemma extract_answer_number_no_digit (sentence : string) :
  has_digit sentence = false ->
  extract_answer_number sentence = Ok PosInf.
Proof.
  intros Hd. apply extract_answer_number_no_match.
  apply findall_from_no_digit. now rewrite has_digit_remove_commas.
Qed.

Lemma prefix_append (t post : string) : prefix t (t ++ post) = true.
Proof.
  induction t as [|c t IH]; simpl; [now destruct post|].
  destruct (ascii_dec c c); [exact IH | congruence].
Qed.

Lemma find_from_present (pred trigger : string) (i : Z) :
  occurs trigger pred -> (i <= find_from i pred trigger)%Z.
Proof.
  intros (pre & post & ->). revert i.
  induction pre as [|c pre IH]; intros i.
  - cbn [append]. destruct trigger; simpl.
    + destruct post; simpl; lia.
    + rewrite prefix_append.
      destruct (ascii_dec a a); [lia | congruence].
  - cbn [append find_from].
    destruct (prefix trigger (String c (pre ++ trigger ++ post)));
      [lia|].
    specialize (IH (i + 1)%Z). lia.
Qed.

(** [find] answers [-1] exactly when the trigger does not occur. *)
Lemma find_absent_iff (pred trigger : string) :
  find pred trigger = (-1)%Z <-> ~ occurs trigger pred.
Proof.
  split.
  - intros E Hocc. pose proof (find_from_present pred trigger 0 Hocc).
    unfold find in E. lia.
  - apply find_from_absent.
Qed.

(** C9, as the code has it: the answer extraction degrades locally
    instead of raising.  (1) When the trigger does not occur in the
    decoded generation, [extract_output] returns the empty string.
    (2) When the pattern finds no numeric literal in the (comma-free)
    answer span, which is the case exactly when the span has no
    digit, [extract_answer_number] returns positive infinity, and (3)
    positive infinity fails the 0.001-tolerance match against every
    ground truth.  (4) [extract_answer_number] returns a float for
    every string: it never raises.  (5) So in the numeric comparison
    a generation without the trigger, and any generation without a
    number, is scored incorrect, without an exception.  (6) In the
    letter comparison and (7) in the comparison of the commonsense
    task, a generation without the trigger is scored incorrect
    exactly when the ground truth is not blank: against a ground
    truth that is empty once stripped it is counted correct. *)
Theorem answer_extraction_degrades_locally :
  (forall pred trigger,
      ~ occurs trigger pred -> extract_output pred trigger = "") /\
  (forall sentence,
      (findall (remove_commas sentence) = [] <-> has_digit sentence = false) /\
      (findall (remove_commas sentence) = [] ->
       extract_answer_number sentence = Ok PosInf)) /\
  (forall answer, numeric_match answer PosInf = false) /\
  (forall sentence, exists v, extract_answer_number sentence = Ok v) /\
  (forall answer pred trigger,
      ~ occurs trigger pred ->
      score_number answer (extract_output pred trigger) = Ok false) /\
  (forall answer sentence,
      has_digit sentence = false ->
      score_number answer sentence = Ok false) /\
  (forall answer pred trigger,
      ~ occurs trigger pred ->
      (score_letter answer (extract_output pred trigger) = true
       <-> strip answer = "")) /\
  (forall ex pred trigger,
      ~ occurs trigger pred ->
      (Harness.matches trigger (ex, pred) = true
       <-> strip (Harness.answer ex) = "")).
Proof.
  split; [exact extract_output_absent|].
  split.
  { intros sentence. split; [|apply extract_answer_number_no_match].
    split.
    - intros E. destruct (has_digit sentence) eqn:Hd; [|reflexivity].
      exfalso. rewrite <- has_digit_remove_commas in Hd.
      now apply (findall_from_nonempty _ _ Hd (le_n _)).
    - intros Hd. apply findall_from_no_digit.
      now rewrite has_digit_remove_commas. }
  split; [exact numeric_match_inf|].
  split; [exact extract_answer_number_total|].
  assert (Hs : forall answer sentence,
             has_digit sentence = false ->
             score_number answer sentence = Ok false).
  { intros answer sentence Hd. unfold score_number.
    rewrite extract_answer_number_no_digit by exact Hd.
    cbn [bind]. now rewrite numeric_match_inf. }
  assert (Hblank : forall t : string, String.eqb "" t = true <-> t = "").
  { intros t. rewrite String.eqb_eq. split; intros E; now symmetry. }
  split; [|split; [exact Hs|split]].
  - intros answer pred trigger Habs.
    rewrite extract_output_absent by exact Habs. now apply Hs.
  - intros answer pred trigger Habs.
    rewrite extract_output_absent by exact Habs.
    unfold score_letter.
    change (strip (extract_answer_letter "")) with "".
    apply Hblank.
  - intros ex pred trigger Habs.
    unfold Harness.matches. cbn [fst snd].
    rewrite extract_output_absent by exact Habs.
    change (strip "") with "".
    apply Hblank.
Qed.

(** A generation that stops before the response marker. *)
Lemma answer_extraction_degrades_locally_witness :
  extract_output "Below is an instruction" "### Response:" = "" /\
  score_number (Finite (42 # 1))
    (extract_output "Below is an instruction" "### Response:") = Ok false /\
  score_number (Finite (42 # 1)) "I do not know" = Ok false.
Proof.
  destruct answer_extraction_degrades_locally
    as (Hout & _ & _ & _ & Hscore & Hnum & _).
  assert (Habs : ~ occurs "### Response:" "Below is an instruction")
    by (apply find_absent_iff; reflexivity).
  split; [exact (Hout _ _ Habs)|].
  split; [exact (Hscore _ _ _ Habs)|].
  apply Hnum. reflexivity.
Defined.

(** C9 as stated fails: a generation without the trigger is not
    always scored as a wrong answer.  Against a blank ground truth
    the empty extraction is counted correct, in the letter comparison
    and on the commonsense task, where an evaluation of this single
    item ends with accuracy 1. *)
Lemma absent_trigger_counted_correct :
  ~ occurs "### Response:" "Below is an instruction" /\
  extract_output "Below is an instruction" "### Response:" = "" /\
  score_letter " "
    (extract_output "Below is an instruction" "### Response:") = true /\
  ~ occurs "the correct answer is " "yes" /\
  Harness.compute_metrics_commonsense "the correct answer is "
    [(Harness.Example "Is the sky blue?" " ", "yes")]
  = Ok ([Harness.GenerationEntry "Is the sky blue?" "" "" " "], 1 # 1).
Proof.
  split; [apply find_absent_iff; reflexivity|].
  split; [reflexivity|]. split; [reflexivity|].
  split; [apply find_absent_iff; reflexivity|].
  reflexivity.
Qed.



(** ** The harness on small inputs *)

Example findall_signs_and_points :
  findall "a-5.-3.2.1--7 -x 1.2.3 4."
  = ["-5."; "-3.2"; "1"; "-7"; "1.2"; "3"; "4."]%list.
Proof. reflexivity. Qed.

Example extract_output_strips :
  extract_output "Q ### Response: The answer is 42" "### Response:"
  = "The answer is 42".
Proof. reflexivity. Qed.

Example score_number_42 :
  score_number (Finite (42 # 1))
    (extract_output "Q ### Response: The answer is 42" "### Response:")
  = Ok true.
Proof. reflexivity. Qed.

Example score_letter_mismatch :
  extract_answer_letter "The correct choice is B." = "B" /\
  score_letter "C" "The correct choice is B." = false.
Proof. split; reflexivity. Qed.

End MetricsFacts.

(* ================================================================== *)
(** * Fused RMS normalization (C5, C4, C1) *)
(* ================================================================== *)

Module RMSNormFacts.

Import RMSNorm.

(** ** The tiling ceiling of [rmsnorm_forward] (C5) *)

Lemma lor_ge_l (a b : Z) : (0 <= b -> a <= Z.lor a b)%Z.
Proof.
  intros Hb. pose proof (Z.sub_lor_l_same_l b a) as E.
  assert (0 <= Z.land b (Z.lnot a))%Z by (apply Z.land_nonneg; auto).
  lia.
Qed.

Lemma smear_ge (n s : Z) :
  (0 <= n -> 0 <= n <= Z.lor n (Z.shiftr n s))%Z.
Proof.
  intros Hn. split; [assumption|].
  apply lor_ge_l. now apply Z.shiftr_nonneg.
Qed.

(** [next_power_of_2] does not go below its argument. *)
Lemma next_power_of_2_ge (n : Z) : (0 <= n -> n <= next_power_of_2 n)%Z.
Proof.
  intros Hn. destruct (Z.eq_dec n 0) as [-> | Hne]; [discriminate|].
  unfold next_power_of_2.
  set (n0 := (n - 1)%Z). assert (H0 : (0 <= n0)%Z) by (unfold n0; lia).
  pose proof (smear_ge n0 1 H0) as [_ H1].
  set (n1 := Z.lor n0 (Z.shiftr n0 1)) in *.
  pose proof (smear_ge n1 2 ltac:(lia)) as [_ H2].
  set (n2 := Z.lor n1 (Z.shiftr n1 2)) in *.
  pose proof (smear_ge n2 4 ltac:(lia)) as [_ H3].
  set (n3 := Z.lor n2 (Z.shiftr n2 4)) in *.
  pose proof (smear_ge n3 8 ltac:(lia)) as [_ H4].
  set (n4 := Z.lor n3 (Z.shiftr n3 8)) in *.
  pose proof (smear_ge n4 16 ltac:(lia)) as [_ H5].
  set (n5 := Z.lor n4 (Z.shiftr n4 16)) in *.
  pose proof (smear_ge n5 32 ltac:(lia)) as [_ H6].
  unfold n0 in *. lia.
Qed.

(** [x.reshape(-1, N)] on a tensor whose last axis has [N >= 1]
    entries. *)
Lemma reshape_rows {A : Type} (x : tensor A) (lead : list nat) (N : nat) :
  shape x = (lead ++ [N])%list -> (0 < N)%nat ->
  reshape x [Infer; Dim N] = Ok (Tensor [numel lead; N] (data x)).
Proof.
  intros Hs HN. unfold reshape, infer_size.
  change (count_infer [Infer; Dim N]) with 1%nat.
  change (known_size [Infer; Dim N]) with (N * 1)%nat.
  rewrite Hs, numel_app. cbn [numel fold_right].
  rewrite Nat.Div0.mod_mul, Nat.div_mul by lia.
  rewrite (proj2 (Nat.ltb_lt 0 _)) by lia.
  rewrite Nat.eqb_refl, orb_true_r.
  rewrite (proj2 (Nat.eqb_neq _ 0)) by lia.
  reflexivity.
Qed.

Lemma reshape_rows_empty {A : Type} (x : tensor A) (lead : list nat) :
  shape x = (lead ++ [0])%list ->
  reshape x [Infer; Dim 0] = Raise (RuntimeError AmbiguousInfer).
Proof.
  intros Hs. unfold reshape, infer_size.
  change (count_infer [Infer; Dim 0]) with 1%nat.
  change (known_size [Infer; Dim 0]) with 0%nat.
  rewrite Hs, numel_app. cbn [numel fold_right].
  rewrite Nat.mul_0_r. reflexivity.
Qed.

Lemma MAX_FUSED_SIZE_pos (dt : dtype) : (0 < MAX_FUSED_SIZE dt)%Z.
Proof. destruct dt; reflexivity. Qed.

(** C5: on an input whose rows have [N] entries, [rmsnorm_forward]
    raises its "feature dim >= 64KB" error exactly when [N] exceeds
    the ceiling [65536 // element_size]: above the ceiling the error
    is raised and no row is processed, at or below it this error is
    not raised. *)
Theorem rmsnorm_forward_feature_dim
  (undef : R) (uninit : buffer -> nat -> R)
  (dt : dtype) (x : tensor R) (weight : list R) (eps : R)
  (lead : list nat) (N : nat) :
  shape x = (lead ++ [N])%list ->
  (rmsnorm_forward undef uninit dt x weight eps
   = Raise (RuntimeError FeatureDimTooLarge)
   <-> (Z.of_nat N > 65536 / element_size dt)%Z).
Proof.
  intros Hs. fold (MAX_FUSED_SIZE dt).
  pose proof (MAX_FUSED_SIZE_pos dt) as Hmax.
  unfold rmsnorm_forward. rewrite Hs, rev_app_distr. cbn [rev app].
  destruct N as [|n].
  - rewrite (reshape_rows_empty x lead Hs). cbn [bind].
    split; [discriminate | lia].
  - rewrite (reshape_rows x lead (S n) Hs) by lia. cbn [bind shape].
    pose proof (next_power_of_2_ge (Z.of_nat (S n)) ltac:(lia)) as Hp.
    destruct (Z.gtb_spec (Z.of_nat (S n))
                (Z.min (MAX_FUSED_SIZE dt) (next_power_of_2 (Z.of_nat (S n)))))
      as [Hgt | Hle].
    + split; [lia | reflexivity].
    + split; [discriminate | lia].
Qed.

(** The ceiling for float32 is 16384 entries; a row of 20000 is
    refused. *)
Lemma rmsnorm_forward_feature_dim_witness :
  let N := Z.to_nat 20000 in
  rmsnorm_forward 0%R (fun _ _ => 0%R) float32
    (Tensor [1%nat; N] (repeat 0%R N)) (repeat 1%R N) (1 / 100000)%R
  = Raise (RuntimeError FeatureDimTooLarge).
Proof.
  intro N.
  apply (rmsnorm_forward_feature_dim 0%R (fun _ _ => 0%R) float32
           (Tensor [1%nat; N] (repeat 0%R N)) (repeat 1%R N)
           (1 / 100000)%R [1%nat] N).
  - reflexivity.
  - vm_compute. reflexivity.
Defined.

(** ** Block operations, lane by lane *)

Local Open Scope R_scope.

Lemma combine_map_map {A B C : Type} (f : A -> B) (g : A -> C) (l : list A) :
  combine (map f l) (map g l) = map (fun a => (f a, g a)) l.
Proof. induction l as [|a l IH]; simpl; [reflexivity | now rewrite IH]. Qed.

Lemma vadd_lanes {A : Type} (f g : A -> R) (l : list A) :
  vadd (map f l) (map g l) = map (fun a => f a + g a) l.
Proof. unfold vadd. now rewrite combine_map_map, map_map. Qed.

Lemma vsub_lanes {A : Type} (f g : A -> R) (l : list A) :
  vsub (map f l) (map g l) = map (fun a => f a - g a) l.
Proof. unfold vsub. now rewrite combine_map_map, map_map. Qed.

Lemma vmul_lanes {A : Type} (f g : A -> R) (l : list A) :
  vmul (map f l) (map g l) = map (fun a => f a * g a) l.
Proof. unfold vmul. now rewrite combine_map_map, map_map. Qed.

Lemma vscale_lanes {A : Type} (f : A -> R) (c : R) (l : list A) :
  vscale (map f l) c = map (fun a => f a * c) l.
Proof. unfold vscale. now rewrite map_map. Qed.

Lemma vshift_lanes {A : Type} (f : A -> R) (c : R) (l : list A) :
  vshift (map f l) c = map (fun a => f a + c) l.
Proof. unfold vshift. now rewrite map_map. Qed.

Lemma tl_where_lanes {A : Type} (m : A -> bool) (f : A -> R) (other : R)
  (l : list A) :
  tl_where (map m l) (map f l) other
  = map (fun a => if m a then f a else other) l.
Proof. unfold tl_where. now rewrite combine_map_map, map_map. Qed.

Lemma tl_load_lanes {A : Type} (undef : R) (mem : list R) (ptr : nat)
  (c : A -> nat) (m : A -> bool) (other : R) (l : list A) :
  tl_load undef mem ptr (map c l) (map m l) other
  = map (fun a => if m a then nth (ptr + c a) mem undef else other) l.
Proof. unfold tl_load. now rewrite combine_map_map, map_map. Qed.

Lemma tl_store_lanes {A : Type} (mem : list R) (ptr : nat)
  (c : A -> nat) (v : A -> R) (m : A -> bool) (l : list A) :
  tl_store mem ptr (map c l) (map v l) (map m l)
  = fold_left (fun mem a => if m a then upd mem (ptr + c a) (v a) else mem)
              l mem.
Proof.
  unfold tl_store. rewrite !combine_map_map.
  revert mem. induction l as [|a l IH]; intros mem; simpl;
    [reflexivity | now rewrite IH].
Qed.

Lemma repeat_lanes {A : Type} (v : R) (l : list A) :
  repeat v (length l) = map (fun _ => v) l.
Proof. induction l as [|a l IH]; simpl; [reflexivity | now rewrite IH]. Qed.

(** ** Writing one cell *)

Lemma length_upd {V : Type} (mem : list V) (p : nat) (v : V) :
  length (upd mem p v) = length mem.
Proof.
  revert p. induction mem as [|x mem IH]; intros [|p]; simpl; auto.
Qed.

Lemma nth_upd_same {V : Type} (mem : list V) (p : nat) (v d : V) :
  (p < length mem)%nat -> nth p (upd mem p v) d = v.
Proof.
  revert p. induction mem as [|x mem IH]; intros [|p] Hp; simpl in *;
    try lia; auto. apply IH. lia.
Qed.

Lemma nth_upd_other {V : Type} (mem : list V) (p q : nat) (v d : V) :
  p <> q -> nth q (upd mem p v) d = nth q mem d.
Proof.
  revert p q. induction mem as [|x mem IH]; intros [|p] [|q] Hpq; simpl;
    auto; try congruence.
Qed.

(** A masked store of consecutive lanes. *)
Lemma length_store_lanes (m : nat -> bool) (v : nat -> R) (base : nat)
  (l : list nat) (mem : list R) :
  length (fold_left (fun mem j => if m j then upd mem (base + j) (v j)
                                  else mem) l mem)
  = length mem.
Proof.
  revert mem. induction l as [|j l IH]; intros mem; simpl; [reflexivity|].
  rewrite IH. destruct (m j); [apply length_upd | reflexivity].
Qed.

Lemma nth_store_lanes_miss (m : nat -> bool) (v : nat -> R) (base : nat)
  (l : list nat) (mem : list R) (p : nat) (d : R) :
  (forall j, In j l -> m j = true -> (base + j)%nat <> p) ->
  nth p (fold_left (fun mem j => if m j then upd mem (base + j) (v j)
                                  else mem) l mem) d
  = nth p mem d.
Proof.
  revert mem. induction l as [|j l IH]; intros mem Hmiss; simpl;
    [reflexivity|].
  rewrite IH by (intros; apply Hmiss; simpl; auto).
  destruct (m j) eqn:Hm; [|reflexivity].
  apply nth_upd_other. apply Hmiss; simpl; auto.
Qed.

Lemma nth_store_lanes_hit (m : nat -> bool) (v : nat -> R) (base : nat)
  (l : list nat) (mem : list R) (j0 : nat) (d : R) :
  NoDup l -> In j0 l -> m j0 = true -> (base + j0 < length mem)%nat ->
  nth (base + j0)
      (fold_left (fun mem j => if m j then upd mem (base + j) (v j)
                               else mem) l mem) d
  = v j0.
Proof.
  revert mem. induction l as [|j l IH]; intros mem Hnd Hin Hm Hlen;
    [destruct Hin|].
  inversion Hnd as [|? ? Hnotin Hnd']; subst. simpl.
  destruct Hin as [-> | Hin].
  - rewrite Hm. rewrite nth_store_lanes_miss.
    + now apply nth_upd_same.
    + intros j Hj _ E. apply Hnotin. now replace j0 with j by lia.
  - apply IH; try assumption.
    destruct (m j); [now rewrite length_upd | assumption].
Qed.

(** ** Sums over chunks *)

Lemma Rsum_app (a b : list R) : Rsum (a ++ b) = Rsum a + Rsum b.
Proof.
  induction a as [|x a IH]; simpl; [lra | rewrite IH; lra].
Qed.

Lemma Rsum_map_add {A : Type} (f g : A -> R) (l : list A) :
  Rsum (map (fun a => f a + g a) l) = Rsum (map f l) + Rsum (map g l).
Proof.
  induction l as [|a l IH]; simpl; [lra | rewrite IH; lra].
Qed.

Lemma Rsum_map_zero {A : Type} (f : A -> R) (l : list A) :
  (forall a, In a l -> f a = 0) -> Rsum (map f l) = 0.
Proof.
  induction l as [|a l IH]; intros Hz; simpl; [reflexivity|].
  rewrite Hz by (left; reflexivity).
  rewrite IH by (intros; apply Hz; right; assumption). lra.
Qed.

Lemma Rsum_map_ext {A : Type} (f g : A -> R) (l : list A) :
  (forall a, In a l -> f a = g a) -> Rsum (map f l) = Rsum (map g l).
Proof. intros E. f_equal. now apply map_ext_in. Qed.

Lemma seq_from (a n : nat) : seq a n = map (Nat.add a) (seq 0 n).
Proof.
  revert a. induction n as [|n IH]; intros a; simpl; [reflexivity|].
  rewrite Nat.add_0_r. f_equal.
  rewrite (IH (S a)), (IH 1%nat), map_map.
  apply map_ext. intros j. lia.
Qed.

(** The block accumulator after a loop over chunks, lane by lane. *)
Lemma fold_vadd_lanes (h : nat -> nat -> R) (offs : list nat)
  (a0 : nat -> R) (l : list nat) :
  fold_left (fun acc off => vadd acc (map (h off) l)) offs (map a0 l)
  = map (fun j => fold_left (fun s off => s + h off j) offs (a0 j)) l.
Proof.
  revert a0. induction offs as [|off offs IH]; intros a0; simpl;
    [reflexivity|].
  rewrite vadd_lanes. apply (IH (fun j => a0 j + h off j)).
Qed.

Lemma Rsum_fold_lanes (h : nat -> nat -> R) (offs : list nat)
  (a0 : nat -> R) (l : list nat) :
  Rsum (map (fun j => fold_left (fun s off => s + h off j) offs (a0 j)) l)
  = Rsum (map a0 l) + Rsum (map (fun off => Rsum (map (h off) l)) offs).
Proof.
  revert a0. induction offs as [|off offs IH]; intros a0; simpl.
  - now rewrite Rplus_0_r.
  - rewrite (IH (fun j => a0 j + h off j)), Rsum_map_add. lra.
Qed.

(** Summing chunk by chunk is summing over all positions. *)
Lemma Rsum_chunks (g : nat -> R) (B n : nat) :
  Rsum (map (fun off => Rsum (map (fun j => g (off + j)%nat) (seq 0 B)))
            (map (fun i => (i * B)%nat) (seq 0 n)))
  = Rsum (map g (seq 0 (n * B))).
Proof.
  induction n as [|n IH]; [reflexivity|].
  rewrite seq_S, !map_app, Rsum_app, IH. cbn [map Rsum Nat.add].
  replace (S n * B)%nat with (n * B + B)%nat by lia.
  rewrite seq_app, map_app, Rsum_app. cbn [Nat.add].
  rewrite (seq_from (n * B) B), map_map.
  unfold Rsum at 2. cbn [fold_right]. fold (Rsum (map (fun j => g (n * B + j)%nat) (seq 0 B))).
  now rewrite Rplus_0_r.
Qed.

(** Masked positions beyond [N] add nothing. *)
Lemma Rsum_masked (f : nat -> R) (N n : nat) :
  (N <= n)%nat ->
  Rsum (map (fun i => if i <? N then f i else 0) (seq 0 n))
  = Rsum (map f (seq 0 N)).
Proof.
  intros Hn. replace n with (N + (n - N))%nat by lia.
  rewrite seq_app, map_app, Rsum_app. cbn [Nat.add].
  rewrite (Rsum_map_zero _ (seq N (n - N))).
  - rewrite Rplus_0_r. apply Rsum_map_ext. intros i Hi.
    apply in_seq in Hi. now rewrite (proj2 (Nat.ltb_lt i N)) by lia.
  - intros i Hi. apply in_seq in Hi.
    now rewrite (proj2 (Nat.ltb_ge i N)) by lia.
Qed.

(** The chunks of [range(0, N, BLOCK_SIZE)] cover the row. *)
Lemma chunks_cover (N B : nat) :
  (0 < B)%nat -> (N <= (N + B - 1) / B * B)%nat.
Proof.
  intros HB.
  pose proof (Nat.div_mod_eq (N + B - 1) B) as E.
  pose proof (Nat.mod_upper_bound (N + B - 1) B ltac:(lia)) as Hm.
  lia.
Qed.

(** The reduction of the first loop of [_rms_norm_fwd_fused]: the sum
    of the squares of the row, whatever the block size. *)
Lemma sum_squares_chunked (x : nat -> R) (N B : nat) :
  (0 < B)%nat ->
  Rsum (fold_left
          (fun _var off =>
             vadd _var
               (map (fun j => (if (off + j <? N)%nat then x (off + j)%nat
                               else 0)
                              * (if (off + j <? N)%nat then x (off + j)%nat
                                 else 0))
                    (seq 0 B)))
          (range_step N B) (repeat 0 B))
  = Rsum (map (fun i => x i * x i) (seq 0 N)).
Proof.
  intros HB. unfold range_step.
  replace (repeat 0 B) with (map (fun _ : nat => 0) (seq 0 B))
    by (now rewrite <- repeat_lanes, length_seq).
  rewrite (fold_vadd_lanes
             (fun off j => (if (off + j <? N)%nat then x (off + j)%nat else 0)
                           * (if (off + j <? N)%nat then x (off + j)%nat
                              else 0))).
  rewrite Rsum_fold_lanes.
  rewrite (Rsum_map_zero (fun _ => 0)) by reflexivity.
  rewrite (Rsum_chunks (fun i => (if (i <? N)%nat then x i else 0)
                                 * (if (i <? N)%nat then x i else 0))).
  rewrite <- (Rsum_masked (fun i => x i * x i) N
                ((N + B - 1) / B * B)) by now apply chunks_cover.
  rewrite Rplus_0_l. apply Rsum_map_ext. intros i _.
  destruct (i <? N)%nat; lra.
Qed.

(** ** Stores over chunks *)

Lemma fold_left_map {A B C : Type} (f : A -> C -> A) (c : B -> C)
  (l : list B) (a : A) :
  fold_left f (map c l) a = fold_left (fun a j => f a (c j)) l a.
Proof.
  revert a. induction l as [|j l IH]; intros a; simpl; [reflexivity|].
  apply IH.
Qed.

Lemma fold_left_chunks {A : Type} (f : A -> nat -> A) (B n : nat) (a : A) :
  fold_left
    (fun a off => fold_left (fun a j => f a (off + j)%nat) (seq 0 B) a)
    (map (fun i => (i * B)%nat) (seq 0 n)) a
  = fold_left f (seq 0 (n * B)) a.
Proof.
  induction n as [|n IH]; [reflexivity|].
  rewrite seq_S, map_app, fold_left_app, IH. cbn [map fold_left Nat.add].
  replace (S n * B)%nat with (n * B + B)%nat by lia.
  rewrite seq_app, fold_left_app. cbn [Nat.add].
  now rewrite (seq_from (n * B) B), fold_left_map.
Qed.

(** The second loop of [_rms_norm_fwd_fused] is one masked store over
    the positions of all chunks. *)
Lemma store_chunked (undef : R) (X W Y : list R) (Xp Yp N B : nat)
  (rstd : R) :
  fold_left
    (fun Y off =>
       let cols := map (Nat.add off) (arange B) in
       let mask := map (fun c => c <? N) cols in
       let w := tl_load undef W 0 cols mask undef in
       let x := tl_load undef X Xp cols mask 0 in
       let x_hat := vscale x rstd in
       let y := vmul x_hat w in
       tl_store Y Yp cols y mask)
    (range_step N B) Y
  = fold_left
      (fun Y p =>
         if p <? N then
           upd Y (Yp + p)
               ((if p <? N then nth (Xp + p) X undef else 0) * rstd
                * (if p <? N then nth (0 + p) W undef else undef))
         else Y)
      (seq 0 ((N + B - 1) / B * B)) Y.
Proof.
  unfold range_step, arange.
  rewrite <- (fold_left_chunks
                (fun Y p =>
                   if p <? N then
                     upd Y (Yp + p)
                       ((if p <? N then nth (Xp + p) X undef else 0) * rstd
                        * (if p <? N then nth (0 + p) W undef else undef))
                   else Y)).
  generalize (map (fun i => (i * B)%nat) (seq 0 ((N + B - 1) / B))).
  intros offs. revert Y.
  induction offs as [|off offs IH]; intros Y; [reflexivity|].
  cbn [fold_left]. rewrite <- IH. f_equal. cbv zeta.
  rewrite map_map.
  rewrite (tl_load_lanes undef W 0 (Nat.add off)
             (fun j => (off + j <? N)%nat) undef).
  rewrite (tl_load_lanes undef X Xp (Nat.add off)
             (fun j => (off + j <? N)%nat) 0).
  rewrite vscale_lanes, vmul_lanes.
  now rewrite (tl_store_lanes Y Yp (Nat.add off) _
                 (fun j => (off + j <? N)%nat)).
Qed.

(** ** The forward program of one row *)

Lemma fold_left_ext {A B : Type} (f g : A -> B -> A) (l : list B) (a : A) :
  (forall a b, f a b = g a b) -> fold_left f l a = fold_left g l a.
Proof.
  intros E. revert a. induction l as [|b l IH]; intros a; simpl;
    [reflexivity|]. now rewrite E, IH.
Qed.

Section Forward.

Variable undef : R.
Variables (X Y W Rstd : list R) (stride N : nat) (eps : R).
Variables (BLOCK_SIZE row : nat).
Hypothesis block_pos : (0 < BLOCK_SIZE)%nat.

Let x := row_x undef X stride row.
Let rstd := row_rstd undef X stride N eps row.

Lemma fwd_sum_squares :
  Rsum (fold_left
          (fun _var off =>
             let cols := map (Nat.add off) (arange BLOCK_SIZE) in
             let mask := map (fun c => c <? N) cols in
             let x := tl_load undef X (row * stride) cols mask 0 in
             let x := tl_where mask x 0 in
             vadd _var (vmul x x))
          (range_step N BLOCK_SIZE) (repeat 0 BLOCK_SIZE))
  = Rsum (map (fun i => x i * x i) (seq 0 N)).
Proof.
  rewrite <- (sum_squares_chunked x N BLOCK_SIZE block_pos).
  f_equal. apply fold_left_ext. intros _var off. cbv zeta.
  unfold arange. rewrite map_map.
  rewrite (tl_load_lanes undef X (row * stride) (Nat.add off)
             (fun j => (off + j <? N)%nat) 0).
  rewrite tl_where_lanes, vmul_lanes. f_equal.
  apply map_ext. intros j. unfold x, row_x.
  destruct (off + j <? N)%nat; reflexivity.
Qed.

Lemma fwd_rstd :
  snd (_rms_norm_fwd_fused undef X Y W Rstd stride N eps BLOCK_SIZE row)
  = upd Rstd row rstd.
Proof.
  pose proof fwd_sum_squares as E. cbv zeta in E.
  unfold _rms_norm_fwd_fused. cbv zeta. cbn [snd].
  rewrite E. reflexivity.
Qed.

Lemma fwd_Y :
  fst (_rms_norm_fwd_fused undef X Y W Rstd stride N eps BLOCK_SIZE row)
  = fold_left
      (fun Y p => if p <? N then
                    upd Y (row * stride + p) (x p * rstd * nth p W undef)
                  else Y)
      (seq 0 ((N + BLOCK_SIZE - 1) / BLOCK_SIZE * BLOCK_SIZE)) Y.
Proof.
  pose proof fwd_sum_squares as E. cbv zeta in E.
  pose proof (store_chunked undef X W Y (row * stride) (row * stride)
                N BLOCK_SIZE rstd) as Es. cbv zeta in Es.
  unfold _rms_norm_fwd_fused. cbv zeta. cbn [fst].
  rewrite E.
  change (1 / sqrt (Rsum (map (fun i => x i * x i) (seq 0 N)) / INR N
                    + eps)) with rstd.
  rewrite Es.
  apply fold_left_ext. intros Y' p.
  destruct (p <? N)%nat; reflexivity.
Qed.

Hypothesis Y_fits : (row * stride + N <= length Y)%nat.

(** What the program of one row leaves in [Y] and [Rstd]. *)
Lemma fwd_program_spec :
  let out :=
    _rms_norm_fwd_fused undef X Y W Rstd stride N eps BLOCK_SIZE row in
  snd out = upd Rstd row rstd /\
  length (fst out) = length Y /\
  (forall i d, (i < N)%nat ->
     nth (row * stride + i) (fst out) d = x i * rstd * nth i W undef) /\
  (forall p d, (p < row * stride \/ row * stride + N <= p)%nat ->
     nth p (fst out) d = nth p Y d).
Proof.
  cbv zeta. rewrite fwd_rstd, fwd_Y.
  pose proof (chunks_cover N BLOCK_SIZE block_pos) as Hcov.
  split; [reflexivity|]. split; [|split].
  - apply (length_store_lanes (fun p => p <? N)
             (fun p => x p * rstd * nth p W undef)).
  - intros i d Hi.
    apply (nth_store_lanes_hit (fun p => p <? N)
             (fun p => x p * rstd * nth p W undef)).
    + apply seq_NoDup.
    + apply in_seq. lia.
    + now apply Nat.ltb_lt.
    + lia.
  - intros p d Hp.
    apply (nth_store_lanes_miss (fun p => p <? N)
             (fun p => x p * rstd * nth p W undef)).
    intros j _ Hj. apply Nat.ltb_lt in Hj. lia.
Qed.

End Forward.

(** ** The forward launch and [rmsnorm_forward] *)

(** After the programs of the rows below [M], every such row has its
    [rstd] and its normalized entries; the buffers keep their sizes. *)
Lemma launch_fwd_rows (undef : R) (X Y W Rstd : list R) (M N : nat)
  (eps : R) (BLOCK_SIZE : nat) :
  (0 < BLOCK_SIZE)%nat -> (M * N <= length Y)%nat -> (M <= length Rstd)%nat ->
  let out := launch_fwd undef X Y W Rstd M N N eps BLOCK_SIZE in
  length (fst out) = length Y /\ length (snd out) = length Rstd /\
  forall r, (r < M)%nat ->
    nth r (snd out) undef = row_rstd undef X N N eps r /\
    forall i, (i < N)%nat ->
      nth (r * N + i) (fst out) undef
      = row_x undef X N r i * row_rstd undef X N N eps r * nth i W undef.
Proof.
  intros HB. unfold launch_fwd. induction M as [|M IH]; intros HY HR.
  - cbn. repeat split; intros; lia.
  - cbv zeta in *. rewrite seq_S, fold_left_app. cbn [Nat.add fold_left].
    destruct IH as (HlY & HlR & Hrows); [lia | lia |].
    set (prev := fold_left _ (seq 0 M) (Y, Rstd)) in *.
    destruct (fwd_program_spec undef X (fst prev) W (snd prev) N N eps
                BLOCK_SIZE M HB ltac:(rewrite HlY; lia))
      as (Hr & Hl & Hy & Hframe).
    split; [now rewrite Hl|]. split; [now rewrite Hr, length_upd|].
    intros r Hlt. destruct (Nat.eq_dec r M) as [-> | Hne].
    + split; [|intros i Hi; now apply Hy].
      rewrite Hr. apply nth_upd_same. lia.
    + destruct (Hrows r ltac:(lia)) as (Hrr & Hry). split.
      * rewrite Hr, nth_upd_other by lia. exact Hrr.
      * intros i Hi. rewrite Hframe by nia. now apply Hry.
Qed.

(** On rows of [1 <= N <= MAX_FUSED_SIZE] entries [rmsnorm_forward]
    returns, for every row, the reciprocal root of its mean square and
    its normalized, weighted entries. *)
Lemma rmsnorm_forward_rows (undef : R) (uninit : buffer -> nat -> R)
  (dt : dtype) (x : tensor R) (weight : list R) (eps : R)
  (lead : list nat) (N : nat) :
  shape x = (lead ++ [N])%list -> (0 < N)%nat ->
  (Z.of_nat N <= MAX_FUSED_SIZE dt)%Z ->
  exists y mean rstd BLOCK_SIZE num_warps,
    rmsnorm_forward undef uninit dt x weight eps
    = Ok (Tensor (shape x) y, mean, rstd, BLOCK_SIZE, num_warps) /\
    (Z.of_nat N <= BLOCK_SIZE)%Z /\
    length y = numel (shape x) /\ length rstd = numel lead /\
    forall r, (r < numel lead)%nat ->
      nth r rstd undef = row_rstd undef (data x) N N eps r /\
      forall i, (i < N)%nat ->
        nth (r * N + i) y undef
        = row_x undef (data x) N r i * row_rstd undef (data x) N N eps r
          * nth i weight undef.
Proof.
  intros Hs HN Hmax. unfold rmsnorm_forward.
  rewrite Hs, rev_app_distr. cbn [rev app].
  rewrite (reshape_rows x lead N Hs HN). cbn [bind shape data].
  pose proof (next_power_of_2_ge (Z.of_nat N) ltac:(lia)) as Hp.
  set (B := Z.min (MAX_FUSED_SIZE dt) (next_power_of_2 (Z.of_nat N))).
  assert (HB : (Z.of_nat N <= B)%Z) by (unfold B; lia).
  destruct (Z.gtb_spec (Z.of_nat N) B) as [Hgt | _]; [lia|].
  assert (Hnumel : numel (lead ++ [N]) = (numel lead * N)%nat).
  { rewrite numel_app. cbn [numel fold_right]. lia. }
  destruct (launch_fwd_rows undef (data x)
              (empty uninit BufY (numel (lead ++ [N]))) weight
              (empty uninit BufRstd (numel lead)) (numel lead) N eps
              (Z.to_nat B))
    as (HlY & HlR & Hrows).
  - lia.
  - unfold empty. rewrite length_tabulate. lia.
  - unfold empty. rewrite length_tabulate. lia.
  - do 5 eexists. split; [reflexivity|].
    split; [exact HB|]. split; [|split].
    + rewrite HlY. unfold empty. now rewrite length_tabulate.
    + rewrite HlR. unfold empty. now rewrite length_tabulate.
    + exact Hrows.
Qed.

(** ** The normalization of one row (C4) *)

Lemma rstd_of_example (s : R) :
  0 <= s -> s * s = 15 / 2 + 1 / 100000 ->
  36514 / 100000 + 7 / 1000000 < 1 / s < 36514 / 100000 + 9 / 1000000.
Proof.
  intros Hs Hsq.
  assert (Hlo : 273861 / 100000 < s) by nra.
  assert (Hhi : s < 273862 / 100000) by nra.
  assert (Hpos : 0 < s) by lra.
  assert (Hr : 1 / s * s = 1) by (field; lra).
  assert (Hrpos : 0 < 1 / s).
  { unfold Rdiv. rewrite Rmult_1_l. now apply Rinv_0_lt_compat. }
  split; nra.
Qed.

(** C4: the forward program of a row of width [N] computes
    [var = mean(x_i^2)] over the row, with no mean subtracted, stores
    [rstd = 1 / sqrt(var + eps)] at the index of the row and writes
    [y_i = (x_i * rstd) * w_i], for every block size.  For
    [x = [1, 2, 3, 4]], [w = [1, 1, 1, 1]] and [eps = 1e-5] this is
    [var = 7.5], [rstd = 0.36515] up to 5e-6 and
    [y = [0.365, 0.730, 1.095, 1.461]] up to 5e-4. *)
Theorem rms_norm_fwd_row :
  (forall (undef : R) (X Y W Rstd : list R) (stride N : nat) (eps : R)
          (BLOCK_SIZE row : nat),
      (0 < BLOCK_SIZE)%nat ->
      (row * stride + N <= length Y)%nat ->
      (row < length Rstd)%nat ->
      let x := fun i => nth (row * stride + i) X undef in
      let var := Rsum (map (fun i => x i * x i) (seq 0 N)) / INR N in
      let rstd := 1 / sqrt (var + eps) in
      let out :=
        _rms_norm_fwd_fused undef X Y W Rstd stride N eps BLOCK_SIZE row in
      nth row (snd out) undef = rstd /\
      (forall i, (i < N)%nat ->
         nth (row * stride + i) (fst out) undef
         = (x i * rstd) * nth i W undef)) /\
  (forall (undef : R) (Y Rstd : list R) (BLOCK_SIZE : nat),
      (0 < BLOCK_SIZE)%nat -> length Y = 4%nat -> length Rstd = 1%nat ->
      let X := [1; 2; 3; 4] in
      let out :=
        _rms_norm_fwd_fused undef X Y [1; 1; 1; 1] Rstd 4 4 (1 / 100000)
          BLOCK_SIZE 0 in
      let y := fun i => nth i (fst out) undef in
      row_var undef X 4 4 0 = 75 / 10 /\
      Rabs (nth 0 (snd out) undef - 36515 / 100000) < 5 / 1000000 /\
      Rabs (y 0%nat - 365 / 1000) < 5 / 10000 /\
      Rabs (y 1%nat - 730 / 1000) < 5 / 10000 /\
      Rabs (y 2%nat - 1095 / 1000) < 5 / 10000 /\
      Rabs (y 3%nat - 1461 / 1000) < 5 / 10000).
Proof.
  assert (General :
    forall (undef : R) (X Y W Rstd : list R) (stride N : nat) (eps : R)
           (BLOCK_SIZE row : nat),
      (0 < BLOCK_SIZE)%nat ->
      (row * stride + N <= length Y)%nat ->
      (row < length Rstd)%nat ->
      let out :=
        _rms_norm_fwd_fused undef X Y W Rstd stride N eps BLOCK_SIZE row in
      nth row (snd out) undef = row_rstd undef X stride N eps row /\
      (forall i, (i < N)%nat ->
         nth (row * stride + i) (fst out) undef
         = (row_x undef X stride row i * row_rstd undef X stride N eps row)
           * nth i W undef)).
  { intros undef X Y W Rstd stride N eps B row HB HY HR.
    destruct (fwd_program_spec undef X Y W Rstd stride N eps B row HB HY)
      as (Hr & _ & Hy & _).
    cbv zeta. split.
    - rewrite Hr. now apply nth_upd_same.
    - intros i Hi. now apply Hy. }
  split; [exact General|].
  intros undef Y Rstd B HB HY HR X out y.
  assert (Hvar : row_var undef X 4 4 0 = 75 / 10).
  { unfold row_var, row_x, X. cbn. lra. }
  destruct (General undef X Y [1; 1; 1; 1] Rstd 4%nat 4%nat (1 / 100000)
              B 0%nat HB ltac:(simpl; lia) ltac:(lia)) as [Hr Hy].
  fold out in Hr, Hy.
  set (r := row_rstd undef X 4 4 (1 / 100000) 0) in *.
  assert (Hb : 36514 / 100000 + 7 / 1000000 < r
               < 36514 / 100000 + 9 / 1000000).
  { unfold r, row_rstd. rewrite Hvar.
    apply rstd_of_example.
    - apply sqrt_pos.
    - rewrite sqrt_sqrt by lra. lra. }
  split; [exact Hvar|].
  split; [rewrite Hr; apply Rabs_def1; lra|].
  unfold y.
  pose proof (Hy 0%nat ltac:(lia)) as H0.
  pose proof (Hy 1%nat ltac:(lia)) as H1.
  pose proof (Hy 2%nat ltac:(lia)) as H2.
  pose proof (Hy 3%nat ltac:(lia)) as H3.
  cbn [Nat.mul Nat.add nth] in H0, H1, H2, H3.
  unfold row_x, X in H0, H1, H2, H3.
  cbn [Nat.mul Nat.add nth] in H0, H1, H2, H3.
  rewrite H0, H1, H2, H3.
  repeat split; apply Rabs_def1; lra.
Qed.

(** The row [4, 3] with weights [1, 2]: the program stores the
    reciprocal root of [12.5 + eps] and the scaled entries. *)
Lemma rms_norm_fwd_row_witness :
  let out :=
    _rms_norm_fwd_fused 0 [4; 3] [7; 7] [1; 2] [7] 2 2 (1 / 100000) 2 0 in
  let var := Rsum (map (fun i => nth (0 * 2 + i) [4; 3] 0
                                 * nth (0 * 2 + i) [4; 3] 0) (seq 0 2))
             / INR 2 in
  nth 0 (snd out) 0 = 1 / sqrt (var + 1 / 100000).
Proof.
  intros out var.
  destruct rms_norm_fwd_row as [General _].
  apply (General 0 [4; 3] [7; 7] [1; 2] [7] 2%nat 2%nat (1 / 100000)
           2%nat 0%nat); simpl; lia.
Defined.

(** ** The backward program of one row *)

Lemma tl_load_arange (undef : R) (mem : list R) (ptr : nat)
  (m : nat -> bool) (other : R) (B : nat) :
  tl_load undef mem ptr (arange B) (map m (arange B)) other
  = map (fun j => if m j then nth (ptr + j) mem undef else other) (arange B).
Proof.
  rewrite <- (map_id (arange B)) at 1.
  apply (tl_load_lanes undef mem ptr (fun j => j) m other).
Qed.

Lemma tl_store_arange (mem : list R) (ptr : nat) (v : nat -> R)
  (m : nat -> bool) (B : nat) :
  tl_store mem ptr (arange B) (map v (arange B)) (map m (arange B))
  = fold_left (fun mem j => if m j then upd mem (ptr + j) (v j) else mem)
              (arange B) mem.
Proof.
  rewrite <- (map_id (arange B)) at 1.
  apply (tl_store_lanes mem ptr (fun j => j) v m).
Qed.

(** Lanes beyond the row add nothing to a block sum. *)
Lemma Rsum_lanes (f : nat -> R) (N B : nat) :
  (N <= B)%nat ->
  Rsum (map (fun j => if j <? N then f j else 0) (arange B))
  = Rsum (map f (seq 0 N)).
Proof. apply Rsum_masked. Qed.

Section Backward.

Variable undef : R.
Variables (DY X W Rstd : list R) (stride N : nat) (eps : R).
Variables (GROUP_SIZE_M BLOCK_SIZE_N row : nat) (m : bwd_mem).

Hypothesis block_covers : (N <= BLOCK_SIZE_N)%nat.

Let g := (row mod GROUP_SIZE_M)%nat.
Let dx := row_dx undef DY X W Rstd stride N row.
Let dw := row_dw undef DY X Rstd stride row.

(** The program in terms of the row. *)
Lemma bwd_program_lanes :
  _rms_norm_bwd_dx_fused undef DY X W Rstd stride N eps
    GROUP_SIZE_M BLOCK_SIZE_N row m
  = let DX' :=
      fold_left (fun mem j => if j <? N then upd mem (row * stride + j) (dx j)
                              else mem)
                (arange BLOCK_SIZE_N) (DX m) in
    let old := nth g (Lock m) 0%Z in
    if (old =? 1)%Z then None
    else
      let Lock1 := if (old =? 0)%Z then upd (Lock m) g 1%Z else Lock m in
      let count := nth (g + GROUP_SIZE_M) Lock1 0%Z in
      let Lock2 := if (count =? 0)%Z
                   then upd Lock1 (g + GROUP_SIZE_M) 1%Z else Lock1 in
      let DW' :=
        fold_left
          (fun mem j =>
             if j <? N then
               upd mem (g * N + j)
                   (if (count =? 0)%Z then dw j
                    else dw j + nth (g * N + j) (DW m) undef)
             else mem)
          (arange BLOCK_SIZE_N) (DW m) in
      Some (BwdMem DX' DW' (upd Lock2 g 0%Z)).
Proof.
  assert (Hsum : forall F f : nat -> R,
             (forall j, F j = if j <? N then f j else 0) ->
             Rsum (map F (arange BLOCK_SIZE_N)) = Rsum (map f (seq 0 N))).
  { intros F f HF. rewrite <- (Rsum_lanes f N BLOCK_SIZE_N block_covers).
    apply Rsum_map_ext. intros j _. apply HF. }
  unfold _rms_norm_bwd_dx_fused. cbv zeta. fold g.
  destruct (nth g (Lock m) 0%Z =? 1)%Z; [reflexivity|].
  rewrite !tl_load_arange.
  rewrite !vscale_lanes, !vmul_lanes, !tl_where_lanes.
  rewrite !vmul_lanes, !vscale_lanes, !vshift_lanes, !vsub_lanes,
    !vscale_lanes.
  rewrite (Hsum _ (fun j => row_xhat undef X Rstd stride row j
                            * row_wdy undef DY W stride row j))
    by (intros j; unfold row_xhat, row_wdy, row_x;
        destruct (j <? N)%nat; cbn [Nat.add]; ring).
  rewrite (Hsum _ (row_wdy undef DY W stride row))
    by (intros j; unfold row_wdy; destruct (j <? N)%nat; cbn [Nat.add];
        ring).
  f_equal. f_equal.
  - rewrite tl_store_arange.
    apply fold_left_ext. intros mem j.
    destruct (j <? N)%nat; reflexivity.
  - destruct (nth (g + GROUP_SIZE_M)
                (if (nth g (Lock m) 0 =? 0)%Z then upd (Lock m) g 1%Z
                 else Lock m) 0 =? 0)%Z.
    + rewrite tl_store_arange.
      apply fold_left_ext. intros mem j.
      destruct (j <? N)%nat; reflexivity.
    + rewrite vadd_lanes, tl_store_arange.
      apply fold_left_ext. intros mem j.
      destruct (j <? N)%nat; reflexivity.
Qed.

End Backward.

(** ** The launch of the backward programs *)



Section Launch.

Variable undef : R.
Variables (DY X W Rstd : list R) (N : nat) (eps : R).
Variables (GROUP_SIZE_M BLOCK_SIZE_N : nat) (DX0 DW0 : list R).

Hypothesis groups_pos : (0 < GROUP_SIZE_M)%nat.
Hypothesis block_covers : (N <= BLOCK_SIZE_N)%nat.
Hypothesis DW_fits : (GROUP_SIZE_M * N <= length DW0)%nat.

Let inv := bwd_inv undef DY X W Rstd N GROUP_SIZE_M DX0 DW0.
Let gsum := group_dw undef DY X Rstd N GROUP_SIZE_M.

Lemma group_dw_S (k g j : nat) :
  gsum (S k) g j
  = gsum k g j + (if (k mod GROUP_SIZE_M =? g)%nat
                  then row_dw undef DY X Rstd N k j else 0).
Proof.
  unfold gsum, group_dw. rewrite seq_S, map_app, Rsum_app.
  cbn [Nat.add map Rsum fold_right]. lra.
Qed.

Lemma group_dw_first (k j : nat) :
  (k < GROUP_SIZE_M)%nat -> gsum k k j = 0.
Proof.
  intros Hk. unfold gsum, group_dw. apply Rsum_map_zero.
  intros r Hr. apply in_seq in Hr.
  rewrite Nat.mod_small by lia.
  destruct (Nat.eqb_spec r k); [lia | reflexivity].
Qed.

Lemma inv_init :
  inv 0 (BwdMem DX0 DW0 (repeat 0%Z (2 * GROUP_SIZE_M))).
Proof.
  unfold inv, bwd_inv. cbn [DX DW Lock].
  rewrite repeat_length.
  repeat split; try reflexivity; try (intros; lia).
  - apply nth_repeat.
  - apply nth_repeat.
Qed.

(** One more program keeps the invariant. *)
Lemma inv_step (k : nat) (mem : bwd_mem) :
  inv k mem -> (S k * N <= length DX0)%nat ->
  exists mem',
    _rms_norm_bwd_dx_fused undef DY X W Rstd N N eps
      GROUP_SIZE_M BLOCK_SIZE_N k mem = Some mem' /\
    inv (S k) mem'.
Proof.
  intros (HlL & HlW & HlX & Hlock & Hdw & Hdx) Hfits.
  rewrite bwd_program_lanes by exact block_covers. cbv zeta.
  set (g := (k mod GROUP_SIZE_M)%nat).
  assert (Hg : (g < GROUP_SIZE_M)%nat)
    by (apply Nat.mod_upper_bound; lia).
  assert (Hgk : (g <= k)%nat) by (apply Nat.Div0.mod_le).
  assert (Hother : forall g', (g' < GROUP_SIZE_M)%nat -> g' <> g ->
                              g' <> k).
  { intros g' Hg' Hne ->. apply Hne. unfold g.
    now rewrite Nat.mod_small. }
  destruct (Hlock g Hg) as [Hfree Hcount].
  rewrite Hfree. cbn [Z.eqb].
  rewrite nth_upd_other by lia. rewrite Hcount.
  eexists. split; [reflexivity|].
  unfold inv, bwd_inv. cbn [DX DW Lock].
  split; [|split; [|split; [|split; [|split]]]].
  - rewrite length_upd. destruct (g <? k)%nat; cbn [Z.eqb];
      now rewrite ?length_upd.
  - now rewrite length_store_lanes.
  - now rewrite length_store_lanes.
  - intros g' Hg'.
    destruct (Hlock g' Hg') as [Hfree' Hcount'].
    destruct (Nat.eq_dec g' g) as [-> | Hne].
    + split.
      * apply nth_upd_same.
        destruct (g <? k)%nat; cbn [Z.eqb]; rewrite ?length_upd; lia.
      * rewrite nth_upd_other by lia.
        rewrite (proj2 (Nat.ltb_lt g (S k))) by lia.
        destruct (g <? k)%nat eqn:E; cbn [Z.eqb].
        -- rewrite nth_upd_other by lia. exact Hcount.
        -- apply nth_upd_same. rewrite length_upd. lia.
    + pose proof (Hother g' Hg' Hne) as Hk.
      assert (Ek : (g' <? S k)%nat = (g' <? k)%nat).
      { destruct (Nat.ltb_spec g' (S k)), (Nat.ltb_spec g' k);
          try reflexivity; lia. }
      rewrite Ek. split.
      * rewrite nth_upd_other by lia.
        destruct (g <? k)%nat; cbn [Z.eqb];
          rewrite ?nth_upd_other by lia; exact Hfree'.
      * rewrite nth_upd_other by lia.
        destruct (g <? k)%nat; cbn [Z.eqb];
          rewrite ?nth_upd_other by lia; exact Hcount'.
  - intros g' j Hg' Hj.
    destruct (Nat.eq_dec g' g) as [-> | Hne].
    + rewrite (proj2 (Nat.ltb_lt g (S k))) by lia.
      unfold arange.
      rewrite (nth_store_lanes_hit (fun j => j <? N)).
      * rewrite group_dw_S. fold g. rewrite Nat.eqb_refl.
        destruct (g <? k)%nat eqn:E; cbn [Z.eqb].
        -- rewrite (Hdw g j Hg Hj), E. fold gsum. lra.
        -- assert (g = k) by (apply Nat.ltb_ge in E; lia).
           replace (gsum k g j) with 0; [lra|].
           symmetry. subst g. rewrite H. apply group_dw_first. lia.
      * apply seq_NoDup.
      * apply in_seq. lia.
      * now apply Nat.ltb_lt.
      * rewrite HlW. nia.
    + pose proof (Hother g' Hg' Hne) as Hk.
      assert (Ek : (g' <? S k)%nat = (g' <? k)%nat).
      { destruct (Nat.ltb_spec g' (S k)), (Nat.ltb_spec g' k);
          try reflexivity; lia. }
      rewrite Ek.
      rewrite (nth_store_lanes_miss (fun j => j <? N)).
      * rewrite (Hdw g' j Hg' Hj).
        destruct (g' <? k)%nat; [|reflexivity].
        fold gsum. rewrite group_dw_S. fold g.
        destruct (Nat.eqb_spec g g'); [congruence | lra].
      * intros j' _ Hj'. apply Nat.ltb_lt in Hj'. nia.
  - intros r i Hr Hi.
    destruct (Nat.eq_dec r k) as [-> | Hne].
    + unfold arange.
      rewrite (nth_store_lanes_hit (fun j => j <? N)); try reflexivity.
      * apply seq_NoDup.
      * apply in_seq. lia.
      * now apply Nat.ltb_lt.
      * rewrite HlX. nia.
    + rewrite (nth_store_lanes_miss (fun j => j <? N)).
      * apply Hdx; lia.
      * intros j' _ Hj'. apply Nat.ltb_lt in Hj'. nia.
Qed.

(** The launch finishes and leaves the invariant of all its rows. *)
Lemma launch_bwd_inv (M : nat) :
  (M * N <= length DX0)%nat ->
  exists mem,
    launch_bwd undef DY X W Rstd M N N eps GROUP_SIZE_M BLOCK_SIZE_N
      (BwdMem DX0 DW0 (repeat 0%Z (2 * GROUP_SIZE_M))) = Some mem /\
    inv M mem.
Proof.
  unfold launch_bwd. induction M as [|M IH]; intros Hfits.
  - eexists. split; [reflexivity | apply inv_init].
  - destruct IH as (mem & Hrun & Hinv); [lia|].
    rewrite seq_S, fold_left_app, Hrun. cbn [Nat.add fold_left].
    now apply inv_step.
Qed.

End Launch.


(** ** [rmsnorm_backward] (C1) *)

Lemma group_size_m_cases (N : nat) :
  group_size_m N = 64%nat \/ group_size_m N = 96%nat \/
  group_size_m N = 128%nat \/ group_size_m N = 256%nat.
Proof.
  unfold group_size_m.
  destruct (Z.of_nat N <=? 1024)%Z; [auto|].
  destruct (Z.of_nat N <=? 4096)%Z; [auto|].
  destruct (Z.of_nat N <=? 8192)%Z; auto.
Qed.

Lemma group_size_m_pos (N : nat) : (0 < group_size_m N)%nat.
Proof. destruct (group_size_m_cases N) as [E | [E | [E | E]]]; lia. Qed.

(** What the body of [rmsnorm_backward] leaves in its buffers, and
    what the function returns. *)
Lemma rmsnorm_backward_spec
  (undef : R) (uninit : buffer -> nat -> R)
  (dy x : tensor R) (w m v : list R) (eps : R)
  (num_warps BLOCK_SIZE : nat) (lead : list nat) (N : nat) :
  shape x = (lead ++ [N])%list -> shape dy = shape x ->
  (0 < N)%nat -> length w = N -> (N <= BLOCK_SIZE)%nat ->
  let M := numel lead in
  let G := group_size_m N in
  exists mem,
    rmsnorm_backward_buffers undef uninit dy x w m v eps num_warps BLOCK_SIZE
    = Some (Ok mem) /\
    rmsnorm_backward undef uninit dy x w m v true eps num_warps BLOCK_SIZE
    = Some (Ok (Some (Tensor (shape dy) (DX mem)), None)) /\
    bwd_inv undef (data dy) (data x) w v N G
      (empty uninit BufDX (M * N)) (empty uninit BufDW (G * N)) M mem.
Proof.
  intros Hx Hdy HN Hw HB M G.
  assert (Hbuf : exists mem,
             rmsnorm_backward_buffers undef uninit dy x w m v eps
               num_warps BLOCK_SIZE = Some (Ok mem) /\
             bwd_inv undef (data dy) (data x) w v N G
               (empty uninit BufDX (M * N)) (empty uninit BufDW (G * N))
               M mem).
  { unfold rmsnorm_backward_buffers.
    rewrite Hx, rev_app_distr. cbn [rev app].
    rewrite (reshape_rows x lead N Hx HN). cbn [shape data].
    rewrite Hw, Hdy, Hx, numel_app. cbn [numel fold_right].
    rewrite Nat.mul_1_r. fold M G.
    destruct (launch_bwd_inv undef (data dy) (data x) w v N eps G BLOCK_SIZE
                (empty uninit BufDX (M * N)) (empty uninit BufDW (G * N))
                (group_size_m_pos N) HB
                ltac:(unfold empty; rewrite length_tabulate; lia) M
                ltac:(unfold empty; rewrite length_tabulate; lia))
      as (mem & Hrun & Hinv).
    rewrite Hrun. eauto. }
  destruct Hbuf as (mem & Hrun & Hinv).
  exists mem. split; [assumption|]. split; [|assumption].
  unfold rmsnorm_backward. now rewrite Hrun.
Qed.





End RMSNormFacts.

(* ================================================================== *)
(** * Finite sums in exact arithmetic *)
(* ================================================================== *)

Lemma sum_list_app {A : Type} `{Scalar A} `{!Exact A} (l1 l2 : list A) :
  sum_list (l1 ++ l2) = add (sum_list l1) (sum_list l2).
Proof.
  unfold sum_list. induction l1 as [|a l1 IH]; cbn [app fold_right].
  - now rewrite add_0_l.
  - now rewrite IH, add_assoc.
Qed.

Lemma sum_list_map_ext {A B : Type} `{Scalar A} (f g : B -> A) (l : list B) :
  (forall b, In b l -> f b = g b) ->
  sum_list (map f l) = sum_list (map g l).
Proof. intros E. f_equal. now apply map_ext_in. Qed.

Lemma sum_list_map_add {A B : Type} `{Scalar A} `{!Exact A} (f g : B -> A) (l : list B) :
  sum_list (map (fun b => add (f b) (g b)) l)
  = add (sum_list (map f l)) (sum_list (map g l)).
Proof.
  unfold sum_list. induction l as [|b l IH]; cbn [map fold_right].
  - now rewrite add_0_l.
  - rewrite IH.
    rewrite <- !add_assoc. f_equal.
    rewrite !add_assoc. f_equal. apply add_comm.
Qed.

Lemma sum_list_map_zero {A B : Type} `{Scalar A} `{!Exact A} (l : list B) :
  sum_list (map (fun _ => zero) l) = zero.
Proof.
  unfold sum_list. induction l as [|b l IH]; cbn [map fold_right];
    [reflexivity|]. now rewrite IH, add_0_l.
Qed.

(** The order of two nested sums does not matter. *)
Lemma sum_list_exchange {A B C : Type} `{Scalar A} `{!Exact A} (f : B -> C -> A)
  (lb : list B) (lc : list C) :
  sum_list (map (fun b => sum_list (map (f b) lc)) lb)
  = sum_list (map (fun c => sum_list (map (fun b => f b c) lb)) lc).
Proof.
  induction lb as [|b lb IH]; cbn [map].
  - change (sum_list []) with zero. now rewrite sum_list_map_zero.
  - change (sum_list (?a :: ?l)) with (add a (sum_list l)).
    rewrite IH, <- sum_list_map_add. reflexivity.
Qed.

(** A sum times a scalar is the sum of the products. *)
Lemma sum_list_mul_r {A B : Type} `{Scalar A} `{!Exact A} (f : B -> A) (c : A)
  (l : list B) :
  mul (sum_list (map f l)) c = sum_list (map (fun b => mul (f b) c) l).
Proof.
  unfold sum_list. induction l as [|b l IH]; cbn [map fold_right].
  - apply mul_0_l.
  - now rewrite mul_add_distr_r, IH.
Qed.

(** A sum over [a * m] positions, block by block. *)
Lemma sum_list_blocks {A : Type} `{Scalar A} `{!Exact A} (a m : nat) (F : nat -> A) :
  sum_list (tabulate (a * m) F)
  = sum_list (tabulate a
                (fun i => sum_list (tabulate m (fun j => F (i * m + j))))).
Proof.
  unfold tabulate. induction a as [|a IH].
  - reflexivity.
  - replace (S a * m) with (a * m + m) by lia.
    rewrite seq_app, map_app, sum_list_app, IH.
    rewrite seq_S, map_app, sum_list_app. cbn [map Nat.add].
    f_equal.
    change (sum_list [?v]) with (add v zero). rewrite add_0_r.
    rewrite (RMSNormFacts.seq_from (a * m) m), map_map. reflexivity.
Qed.

(* ================================================================== *)
(** * Head-shape adapters: failures, entries, the other round trip *)
(* ================================================================== *)

(** Reshaping to explicit sizes with another element count fails. *)
Lemma reshape_explicit_fail {A : Type} (x : tensor A) (s : list nat) :
  numel (shape x) <> numel s ->
  reshape x (map Dim s) = Raise (RuntimeError InvalidShape).
Proof.
  intros Hn. unfold reshape, infer_size.
  rewrite count_infer_dims, known_size_dims.
  rewrite (proj2 (Nat.eqb_neq _ _) Hn). reflexivity.
Qed.

Lemma divides_iff_mul_div (h heads : nat) :
  0 < heads -> (heads * (h / heads) = h <-> h mod heads = 0).
Proof. intros Hh. pose proof (Nat.div_mod_eq h heads). lia. Qed.

(** X1: on a tensor of shape [(b, s, h)], [hidden_to_head_shape]
    succeeds exactly when [num_heads >= 1] and either the tensor has
    no row ([b * s = 0]) or [num_heads] divides [h].  With
    [num_heads = 0] the integer division raises [ZeroDivisionError];
    with rows and a [num_heads] that does not divide [h] the reshape
    raises the invalid-shape [RuntimeError]. *)
Theorem hidden_to_head_shape_succeeds_iff {A : Type} `{Scalar A}
  (x : tensor A) (b s h heads : nat) :
  shape x = [b; s; h] ->
  ((exists y, hidden_to_head_shape x heads = Ok y)
   <-> 0 < heads /\ (b * s = 0 \/ h mod heads = 0)) /\
  (heads = 0 -> hidden_to_head_shape x heads = Raise ZeroDivisionError) /\
  (0 < heads -> 0 < b * s -> h mod heads <> 0 ->
   hidden_to_head_shape x heads = Raise (RuntimeError InvalidShape)).
Proof.
  intros Hsh.
  assert (Hzero : heads = 0 ->
                  hidden_to_head_shape x heads = Raise ZeroDivisionError).
  { intros ->. unfold hidden_to_head_shape. now rewrite Hsh. }
  assert (Hrun : 0 < heads ->
            hidden_to_head_shape x heads
            = (y <- reshape x (map Dim [b; s; heads; h / heads]) ;;
               transpose12 y)).
  { intros Hh. unfold hidden_to_head_shape. rewrite Hsh.
    destruct heads; [lia | reflexivity]. }
  assert (Hbad : 0 < heads -> 0 < b * s -> h mod heads <> 0 ->
            hidden_to_head_shape x heads = Raise (RuntimeError InvalidShape)).
  { intros Hh Hbs Hmod. rewrite (Hrun Hh), reshape_explicit_fail;
      [reflexivity|].
    rewrite Hsh. cbn [numel fold_right].
    pose proof (divides_iff_mul_div h heads Hh). nia. }
  assert (Hgood : 0 < heads -> b * s = 0 \/ h mod heads = 0 ->
            exists y, hidden_to_head_shape x heads = Ok y).
  { intros Hh Hc. rewrite (Hrun Hh), reshape_explicit.
    - cbn [bind]. unfold transpose12. cbn [shape]. eauto.
    - rewrite Hsh. cbn [numel fold_right].
      pose proof (divides_iff_mul_div h heads Hh).
      destruct Hc as [Hc | Hc]; nia. }
  split; [|split; assumption].
  split.
  - intros [y Hy]. destruct (Nat.eq_dec heads 0) as [E | E].
    + rewrite (Hzero E) in Hy. discriminate.
    + split; [lia|].
      destruct (Nat.eq_dec (b * s) 0) as [Ebs | Ebs]; [now left|].
      destruct (Nat.eq_dec (h mod heads) 0) as [Em | Em]; [now right|].
      rewrite Hbad in Hy by lia. discriminate.
  - intros [Hh Hc]. now apply Hgood.
Qed.

(** One head of four does not divide a hidden size of six. *)
Lemma hidden_to_head_shape_succeeds_iff_witness :
  hidden_to_head_shape (Tensor [1; 1; 6] [1; 2; 3; 4; 5; 6]%Z) 4
  = Raise (RuntimeError InvalidShape).
Proof.
  apply (@hidden_to_head_shape_succeeds_iff Z _
           (Tensor [1; 1; 6] [1; 2; 3; 4; 5; 6]%Z) 1 1 6 4);
    [reflexivity | lia | simpl; lia | simpl; lia].
Defined.

(** X2: when [num_heads >= 1] divides [h], [hidden_to_head_shape]
    turns [(b, s, h)] into [(b, num_heads, s, h // num_heads)] and the
    entry [(bi, hd, si, d)] of the result is the entry
    [(bi, si, hd * head_dim + d)] of the input: head [hd] receives the
    [hd]-th slice of [head_dim] consecutive features of every token. *)
Theorem hidden_to_head_shape_entries {A : Type} `{Scalar A}
  (x : tensor A) (b s h heads : nat) :
  shape x = [b; s; h] -> 0 < heads -> h mod heads = 0 ->
  exists y,
    hidden_to_head_shape x heads = Ok y /\
    shape y = [b; heads; s; h / heads] /\
    wf y /\
    forall bi hd si d,
      bi < b -> hd < heads -> si < s -> d < h / heads ->
      at_ (data y) (((bi * heads + hd) * s + si) * (h / heads) + d)
      = at_ (data x) ((bi * s + si) * h + hd * (h / heads) + d).
Proof.
  intros Hsh Hh Hdiv.
  rewrite (hidden_to_head_shape_ok x b s h heads Hsh Hh Hdiv).
  eexists. split; [reflexivity|]. cbn [shape data].
  split; [reflexivity|]. split.
  - unfold wf. cbn [shape data numel fold_right].
    rewrite length_tabulate. lia.
  - intros bi hd si d Hbi Hhd Hsi Hd.
    rewrite Nat.mul_1_r.
    rewrite at_tabulate by (repeat apply flat_lt; assumption).
    rewrite transpose12_index_at by assumption.
    f_equal.
    pose proof (proj2 (divides_iff_mul_div h heads Hh) Hdiv). nia.
Qed.

(** Two tokens of four features split into two heads. *)
Lemma hidden_to_head_shape_entries_witness :
  exists y,
    hidden_to_head_shape (Tensor [1; 2; 4] [1; 2; 3; 4; 5; 6; 7; 8]%Z) 2
    = Ok y /\
    shape y = [1; 2; 2; 2].
Proof.
  destruct (@hidden_to_head_shape_entries Z _
              (Tensor [1; 2; 4] [1; 2; 3; 4; 5; 6; 7; 8]%Z) 1 2 4 2)
    as (y & Hy & Hs & _); [reflexivity | lia | reflexivity |].
  exists y. split; assumption.
Defined.

(** X3: on a tensor of shape [(b, heads, s, d)], [head_to_hidden_shape]
    raises when the batch or the sequence axis is empty (the size [-1]
    cannot be inferred); otherwise it returns a tensor of shape
    [(b, s, heads * d)] whose entry [(bi, si, hd * d + di)] is the
    entry [(bi, hd, si, di)] of the input: the heads of a token are
    laid side by side. *)
Theorem head_to_hidden_shape_entries {A : Type} `{Scalar A}
  (x : tensor A) (b heads s d : nat) :
  shape x = [b; heads; s; d] ->
  (b * s = 0 ->
   head_to_hidden_shape x = Raise (RuntimeError AmbiguousInfer)) /\
  (0 < b * s ->
   exists y,
     head_to_hidden_shape x = Ok y /\
     shape y = [b; s; heads * d] /\
     wf y /\
     forall bi hd si di,
       bi < b -> hd < heads -> si < s -> di < d ->
       at_ (data y) ((bi * s + si) * (heads * d) + hd * d + di)
       = at_ (data x) (((bi * heads + hd) * s + si) * d + di)).
Proof.
  intros Hsh. unfold head_to_hidden_shape, transpose12. rewrite Hsh.
  cbn [bind numel fold_right]. split.
  - intros Hbs. unfold reshape, infer_size.
    change (count_infer [Dim b; Dim s; Infer]) with 1.
    change (known_size [Dim b; Dim s; Infer]) with (b * (s * 1)).
    cbn [shape numel fold_right bind].
    replace (b * (s * 1)) with 0 by lia.
    replace (b * (s * (heads * (d * 1)))) with 0 by nia.
    reflexivity.
  - intros Hbs.
    rewrite reshape_infer_last with (h := heads * d);
      [| nia | nia | cbn [shape numel fold_right]; lia].
    eexists. split; [reflexivity|]. cbn [shape data].
    split; [reflexivity|]. split.
    + unfold wf. cbn [shape data numel fold_right].
      rewrite length_tabulate. lia.
    + intros bi hd si di Hbi Hhd Hsi Hdi.
      rewrite Nat.mul_1_r.
      replace ((bi * s + si) * (heads * d) + hd * d + di)
        with (((bi * s + si) * heads + hd) * d + di) by lia.
      rewrite at_tabulate by (repeat apply flat_lt; assumption).
      now rewrite transpose12_index_at.
Qed.

(** Two heads of two tokens. *)
Lemma head_to_hidden_shape_entries_witness :
  exists y,
    head_to_hidden_shape (Tensor [1; 2; 2; 1] [1; 2; 3; 4]%Z) = Ok y /\
    shape y = [1; 2; 2].
Proof.
  destruct (@head_to_hidden_shape_entries Z _
              (Tensor [1; 2; 2; 1] [1; 2; 3; 4]%Z) 1 2 2 1)
    as (_ & Hok); [reflexivity|].
  destruct Hok as (y & Hy & Hs & _); [simpl; lia|].
  exists y. split; assumption.
Defined.

(** X4: the round trip in the other direction.  On a tensor [y] of
    shape [(b, heads, s, d)] with [b >= 1], [s >= 1] and [heads >= 1],
    splitting [head_to_hidden_shape y] into [heads] heads again gives
    [y] back: same shape, same elements. *)
Theorem hidden_shape_round_trip {A : Type} `{Scalar A}
  (y : tensor A) (b heads s d : nat) :
  wf y -> shape y = [b; heads; s; d] ->
  0 < b -> 0 < s -> 0 < heads ->
  (z <- head_to_hidden_shape y ;; hidden_to_head_shape z heads) = Ok y.
Proof.
  intros Hwf Hsh Hb Hs Hh.
  unfold head_to_hidden_shape, transpose12. rewrite Hsh.
  cbn [bind numel fold_right].
  rewrite reshape_infer_last with (h := heads * d);
    [| assumption | assumption | cbn [shape numel fold_right]; lia].
  cbn [bind].
  rewrite (hidden_to_head_shape_ok _ b s (heads * d) heads);
    [| reflexivity | assumption | rewrite Nat.mul_comm; apply Nat.Div0.mod_mul].
  replace (heads * d / heads) with d
    by (rewrite Nat.mul_comm, Nat.div_mul; lia).
  destruct y as [sy dy]. cbn [shape data] in *. subst sy.
  do 2 apply f_equal.
  unfold wf in Hwf. cbn [shape data numel fold_right] in Hwf.
  transitivity (tabulate (length dy) (fun p => nth p dy zero)).
  - replace (length dy) with (b * heads * s * (d * 1)) by lia.
    apply tabulate_ext. intros p Hp.
    rewrite at_tabulate by (apply transpose12_index_lt; exact Hp).
    rewrite (transpose12_index_invol b) by exact Hp. reflexivity.
  - apply tabulate_nth.
Qed.

Lemma hidden_shape_round_trip_witness :
  let y : tensor Z := Tensor [1; 2; 2; 2] [1; 2; 3; 4; 5; 6; 7; 8]%Z in
  (z <- head_to_hidden_shape y ;; hidden_to_head_shape z 2) = Ok y.
Proof.
  intro y.
  apply (@hidden_shape_round_trip Z _ y 1 2 2 2);
    [reflexivity | reflexivity | lia | lia | lia].
Defined.

(* ================================================================== *)
(** * Key/value head repetition: entries, failures, adjointness *)
(* ================================================================== *)

Lemma repeat_kv_run {A : Type} `{Scalar A}
  (x : tensor A) (b kv s d n_rep : nat) :
  shape x = [b; kv; s; d] ->
  exists y,
    repeat_kv x n_rep = Ok y /\
    shape y = [b; kv * n_rep; s; d] /\
    forall q r l, q < b * kv -> r < n_rep -> l < s * d ->
      at_ (data y) ((q * n_rep + r) * (s * d) + l)
      = at_ (data x) (q * (s * d) + l).
Proof.
  intros Hsh. unfold repeat_kv. rewrite Hsh.
  destruct (Nat.eqb_spec n_rep 1) as [-> | Hne].
  - exists x. split; [reflexivity|]. split.
    + now rewrite Hsh, Nat.mul_1_r.
    + intros q r l _ Hr _. f_equal. nia.
  - change [Dim b; Dim (kv * n_rep); Dim s; Dim d]
      with (map Dim [b; kv * n_rep; s; d]).
    rewrite reshape_explicit by (cbn [shape numel fold_right]; lia).
    eexists. split; [reflexivity|]. cbn [shape data].
    split; [reflexivity|].
    intros q r l. apply at_expand_heads.
Qed.

(** X5: for [n_rep >= 1], [repeat_kv] on a tensor of shape
    [(b, kv, s, d)] returns a tensor of shape [(b, kv * n_rep, s, d)]
    whose head [hh] is the head [hh // n_rep] of the input, so that
    every key/value head appears [n_rep] times in a row
    (torch.repeat_interleave along the head axis). *)
Theorem repeat_kv_entries {A : Type} `{Scalar A}
  (x : tensor A) (b kv s d n_rep : nat) :
  shape x = [b; kv; s; d] -> 1 <= n_rep ->
  exists y,
    repeat_kv x n_rep = Ok y /\
    shape y = [b; kv * n_rep; s; d] /\
    forall bi hh si di,
      bi < b -> hh < kv * n_rep -> si < s -> di < d ->
      at_ (data y) (((bi * (kv * n_rep) + hh) * s + si) * d + di)
      = at_ (data x) (((bi * kv + hh / n_rep) * s + si) * d + di).
Proof.
  intros Hsh Hrep.
  destruct (repeat_kv_run x b kv s d n_rep Hsh) as (y & Hy & Hs & Hat).
  exists y. split; [assumption|]. split; [assumption|].
  intros bi hh si di Hbi Hhh Hsi Hdi.
  assert (Hn : n_rep <> 0) by lia.
  pose proof (Nat.div_mod_eq hh n_rep) as E.
  pose proof (Nat.mod_upper_bound hh n_rep Hn) as Hr.
  assert (Hq : hh / n_rep < kv)
    by (apply Nat.Div0.div_lt_upper_bound; lia).
  set (q' := hh / n_rep) in *. set (r := hh mod n_rep) in *.
  replace (((bi * (kv * n_rep) + hh) * s + si) * d + di)
    with (((bi * kv + q') * n_rep + r) * (s * d) + (si * d + di)) by nia.
  rewrite Hat; [f_equal; nia | nia | assumption | nia].
Qed.

Lemma repeat_kv_entries_witness :
  exists y,
    repeat_kv (Tensor [1; 2; 1; 2] [1; 2; 3; 4]%Z) 3 = Ok y /\
    shape y = [1; 6; 1; 2].
Proof.
  destruct (@repeat_kv_entries Z _ (Tensor [1; 2; 1; 2] [1; 2; 3; 4]%Z)
              1 2 1 2 3) as (y & Hy & Hs & _); [reflexivity | lia |].
  exists y. split; assumption.
Defined.

Lemma repeat_kv_backward_run {A : Type} `{Scalar A}
  (g : tensor A) (b kv s d n_rep : nat) :
  shape g = [b; kv * n_rep; s; d] -> 0 < n_rep ->
  exists y,
    repeat_kv_backward g n_rep = Ok y /\
    shape y = [b; kv; s; d] /\
    length (data y) = b * kv * (s * d) /\
    forall q l, q < b * kv -> l < s * d ->
      at_ (data y) (q * (s * d) + l)
      = sum_list (tabulate n_rep
                    (fun r => at_ (data g) ((q * n_rep + r) * (s * d) + l))).
Proof.
  intros Hsh Hn. unfold repeat_kv_backward. rewrite Hsh.
  destruct n_rep as [|m]; [lia|]. set (n := S m) in *.
  rewrite Nat.div_mul by (unfold n; lia).
  change [Dim b; Dim kv; Dim n; Dim s; Dim d] with (map Dim [b; kv; n; s; d]).
  rewrite reshape_explicit by (rewrite Hsh; cbn [numel fold_right]; lia).
  cbn [bind]. unfold sum_dim2. cbn [shape data numel fold_right].
  rewrite Nat.mul_1_r.
  eexists. split; [reflexivity|]. cbn [shape data].
  split; [reflexivity|]. split; [apply length_tabulate|].
  intros q l Hq Hl.
  rewrite at_tabulate by (apply flat_lt; assumption).
  destruct (div_mod_block q l (s * d) Hl) as [-> ->].
  reflexivity.
Qed.

(** X6: on a gradient of shape [(b, H, s, d)], [repeat_kv_backward]
    raises [ZeroDivisionError] for [n_rep = 0] and the invalid-shape
    [RuntimeError] when [n_rep] does not divide [H] and the gradient
    has elements; when [n_rep >= 1] divides [H] it returns a tensor of
    shape [(b, H // n_rep, s, d)] whose head [h] is the sum of the
    [n_rep] consecutive heads [h * n_rep .. h * n_rep + n_rep - 1] of
    the gradient. *)
Theorem repeat_kv_backward_entries {A : Type} `{Scalar A}
  (g : tensor A) (b H' s d n_rep : nat) :
  shape g = [b; H'; s; d] ->
  (n_rep = 0 -> repeat_kv_backward g n_rep = Raise ZeroDivisionError) /\
  (0 < n_rep -> 0 < b * s * d -> H' mod n_rep <> 0 ->
   repeat_kv_backward g n_rep = Raise (RuntimeError InvalidShape)) /\
  (0 < n_rep -> H' mod n_rep = 0 ->
   exists y,
     repeat_kv_backward g n_rep = Ok y /\
     shape y = [b; H' / n_rep; s; d] /\
     wf y /\
     forall bi h si di,
       bi < b -> h < H' / n_rep -> si < s -> di < d ->
       at_ (data y) (((bi * (H' / n_rep) + h) * s + si) * d + di)
       = sum_list
           (tabulate n_rep
              (fun r => at_ (data g)
                          (((bi * H' + (h * n_rep + r)) * s + si) * d + di)))).
Proof.
  intros Hsh. split; [|split].
  - intros ->. unfold repeat_kv_backward. now rewrite Hsh.
  - intros Hn Hpos Hmod. unfold repeat_kv_backward. rewrite Hsh.
    destruct n_rep as [|m]; [lia|]. set (n := S m) in *.
    change [Dim b; Dim (H' / n); Dim n; Dim s; Dim d]
      with (map Dim [b; H' / n; n; s; d]).
    rewrite reshape_explicit_fail; [reflexivity|].
    rewrite Hsh. cbn [numel fold_right].
    pose proof (divides_iff_mul_div H' n Hn).
    assert (H' / n * n <> H') by lia. nia.
  - intros Hn Hmod.
    pose proof (proj2 (divides_iff_mul_div H' n_rep Hn) Hmod) as HH.
    set (kv := H' / n_rep) in *.
    destruct (repeat_kv_backward_run g b kv s d n_rep
                ltac:(rewrite Hsh; do 2 f_equal; lia) Hn)
      as (y & Hy & Hs & Hl & Hat).
    exists y. split; [assumption|]. split; [assumption|]. split.
    + unfold wf. rewrite Hl, Hs. cbn [numel fold_right]. lia.
    + intros bi h si di Hbi Hh Hsi Hdi.
      replace (((bi * kv + h) * s + si) * d + di)
        with ((bi * kv + h) * (s * d) + (si * d + di)) by lia.
      rewrite Hat by nia.
      f_equal. apply tabulate_ext. intros r Hr. f_equal. nia.
Qed.

Lemma repeat_kv_backward_entries_witness :
  repeat_kv_backward (Tensor [1; 3; 1; 1] [1; 2; 3]%Z) 2
  = Raise (RuntimeError InvalidShape).
Proof.
  apply (@repeat_kv_backward_entries Z _ (Tensor [1; 3; 1; 1] [1; 2; 3]%Z)
           1 3 1 1 2); [reflexivity | lia | simpl; lia | simpl; lia].
Defined.

(** X7: in exact arithmetic (elements of a commutative semiring:
    integer tensors, the reals; not the rounded floating-point
    operations), [repeat_kv_backward] is the adjoint of [repeat_kv]:
    for [x] of shape [(b, kv, s, d)], [g] of shape
    [(b, kv * n_rep, s, d)] and [n_rep >= 1], the sum over all entries
    of [g * repeat_kv(x)] is the sum over all entries of
    [repeat_kv_backward(g) * x].  That is what makes it the gradient
    of the repetition. *)
Theorem repeat_kv_backward_adjoint {A : Type} `{Scalar A} `{!Exact A}
  (x g : tensor A) (b kv s d n_rep : nat) :
  shape x = [b; kv; s; d] -> shape g = [b; kv * n_rep; s; d] ->
  0 < n_rep ->
  exists y gx,
    repeat_kv x n_rep = Ok y /\
    repeat_kv_backward g n_rep = Ok gx /\
    dot (numel (shape y)) (at_ (data g)) (at_ (data y))
    = dot (numel (shape x)) (at_ (data gx)) (at_ (data x)).
Proof.
  intros Hx Hg Hn.
  destruct (repeat_kv_run x b kv s d n_rep Hx) as (y & Hy & Hsy & Hyat).
  destruct (repeat_kv_backward_run g b kv s d n_rep Hg Hn)
    as (gx & Hgx & Hsgx & _ & Hgat).
  exists y, gx. split; [assumption|]. split; [assumption|].
  rewrite Hsy, Hx. cbn [numel fold_right]. unfold dot.
  set (blk := s * d) in *.
  replace (b * (kv * n_rep * (s * (d * 1)))) with (b * kv * (n_rep * blk))
    by (unfold blk; lia).
  replace (b * (kv * (s * (d * 1)))) with (b * kv * blk)
    by (unfold blk; lia).
  rewrite (sum_list_blocks (b * kv) (n_rep * blk)).
  rewrite (sum_list_blocks (b * kv) blk).
  f_equal. apply tabulate_ext. intros q Hq.
  rewrite (sum_list_blocks n_rep blk).
  transitivity
    (sum_list
       (tabulate n_rep
          (fun r =>
             sum_list
               (tabulate blk
                  (fun l => mul (at_ (data g) ((q * n_rep + r) * blk + l))
                                (at_ (data x) (q * blk + l))))))).
  - f_equal. apply tabulate_ext. intros r Hr.
    f_equal. apply tabulate_ext. intros l Hl.
    replace (q * (n_rep * blk) + (r * blk + l))
      with ((q * n_rep + r) * blk + l) by lia.
    now rewrite Hyat.
  - unfold tabulate at 1 2.
    rewrite (sum_list_exchange
               (fun r l => mul (at_ (data g) ((q * n_rep + r) * blk + l))
                               (at_ (data x) (q * blk + l)))).
    fold (tabulate blk
            (fun c => sum_list
               (map (fun b0 => mul (at_ (data g) ((q * n_rep + b0) * blk + c))
                                   (at_ (data x) (q * blk + c)))
                    (seq 0 n_rep)))).
    f_equal. apply tabulate_ext. intros l Hl.
    rewrite Hgat by assumption.
    unfold tabulate. rewrite sum_list_mul_r. reflexivity.
Qed.

Lemma repeat_kv_backward_adjoint_witness :
  let x : tensor Z := Tensor [1; 1; 1; 2] [1; 2]%Z in
  let g : tensor Z := Tensor [1; 2; 1; 2] [1; 2; 3; 4]%Z in
  exists y gx,
    repeat_kv x 2 = Ok y /\
    repeat_kv_backward g 2 = Ok gx /\
    dot (numel (shape y)) (at_ (data g)) (at_ (data y))
    = dot (numel (shape x)) (at_ (data gx)) (at_ (data x)).
Proof.
  intros x g.
  apply (@repeat_kv_backward_adjoint Z _ _ x g 1 1 1 2 2);
    [reflexivity | reflexivity | lia].
Defined.

(* ================================================================== *)
(** * Quantized LoRA: failures, the zero adapter, the merged weight *)
(* ================================================================== *)

Lemma split_last2_snoc (lead : list nat) (k : nat) :
  lead <> [] ->
  exists lead' m, split_last2 (lead ++ [k]) = Some (lead', m, k).
Proof.
  intros Hne. unfold split_last2. rewrite rev_app_distr. cbn [rev app].
  destruct (rev lead) as [|m rest] eqn:E.
  - apply (f_equal (@rev nat)) in E. rewrite rev_involutive in E.
    now destruct Hne.
  - eauto.
Qed.

(** A product whose inner sizes differ is refused. *)
Lemma matmul_inner_mismatch_raises {A : Type} `{Scalar A} (a b : tensor A)
  (lead : list nat) (k k' n : nat) :
  shape a = lead ++ [k] -> shape b = [k'; n] -> k <> k' ->
  matmul a b = Raise (RuntimeError MatmulMismatch).
Proof.
  intros Ha Hb Hk. unfold matmul. rewrite Ha, Hb.
  destruct lead as [|l0 lead].
  - cbn [app length Nat.eqb orb].
    change (split_last2 [1; k]) with (Some (@nil nat, 1, k)).
    change (split_last2 [k'; n]) with (Some (@nil nat, k', n)).
    cbv iota beta.
    now rewrite (proj2 (Nat.eqb_neq k k') Hk).
  - rewrite length_app.
    replace (length (l0 :: lead) + length [k] =? 0) with false
      by (symmetry; apply Nat.eqb_neq; cbn; lia).
    replace (length (l0 :: lead) + length [k] =? 1) with false
      by (symmetry; apply Nat.eqb_neq; cbn; lia).
    cbn [orb length Nat.eqb].
    destruct (split_last2_snoc (l0 :: lead) k ltac:(discriminate))
      as (lead' & m & ->).
    change (split_last2 [k'; n]) with (Some (@nil nat, k', n)).
    cbv iota beta.
    now rewrite (proj2 (Nat.eqb_neq k k') Hk).
Qed.

Lemma broadcast_rev_nil_r (r : list nat) : broadcast_rev r [] = Ok r.
Proof. now destruct r. Qed.

(** A vector is not broadcast over a last axis of another size. *)
Lemma tadd_bias_mismatch_raises {A : Type} `{Scalar A} (a b : tensor A)
  (lead : list nat) (n n' : nat) :
  shape a = lead ++ [n] -> shape b = [n'] ->
  n <> n' -> n <> 1 -> n' <> 1 ->
  tadd a b = Raise (RuntimeError BroadcastMismatch).
Proof.
  intros Ha Hb Hn H1 H1'. unfold tadd, broadcast.
  rewrite Ha, Hb, rev_app_distr. cbn [rev app broadcast_rev].
  rewrite broadcast_rev_nil_r. cbn [bind].
  rewrite (proj2 (Nat.eqb_neq n n') Hn), (proj2 (Nat.eqb_neq n 1) H1),
    (proj2 (Nat.eqb_neq n' 1) H1').
  reflexivity.
Qed.

Section LoRA_more.

Context {A : Type} `{Scalar A}.
Variables packed quant_state : Type.
Variable dequantize_nf4 : packed -> quant_state -> tensor A.

(** X8: [lora_forward] checks its shapes only through the tensor
    operations it runs.  For a base weight that dequantizes to
    [(out_features, in_features)]: an input whose last axis is not
    [in_features] long makes the first product raise the
    shape-mismatch [RuntimeError], whatever the adapters and the bias
    are; with a fitting input, a bias vector whose length is neither
    [out_features] nor 1 (and [out_features <> 1]) makes the addition
    raise the broadcast [RuntimeError]. *)
Theorem lora_forward_shape_errors
  (w : packed) (qs : quant_state) (w_lora_a w_lora_b : tensor A)
  (b : option (tensor A)) (x : tensor A)
  (lead : list nat) (k in_features out_features : nat) :
  shape (dequantize_nf4 w qs) = [out_features; in_features] ->
  shape x = lead ++ [k] ->
  (k <> in_features ->
   lora_forward dequantize_nf4 w qs w_lora_a w_lora_b b x
   = Raise (RuntimeError MatmulMismatch)) /\
  (k = in_features ->
   forall bias n', b = Some bias -> shape bias = [n'] ->
     n' <> out_features -> n' <> 1 -> out_features <> 1 ->
     lora_forward dequantize_nf4 w qs w_lora_a w_lora_b b x
     = Raise (RuntimeError BroadcastMismatch)).
Proof.
  intros Hw Hx.
  destruct (t_ok _ _ _ Hw) as [Ht HsW].
  split.
  - intros Hk. unfold lora_forward, to_. rewrite Ht. cbn [bind].
    rewrite (matmul_inner_mismatch_raises x _ lead k in_features
               out_features Hx HsW Hk).
    now destruct b.
  - intros -> bias n' -> Hbias Hn H1 H1'.
    destruct (matmul_right_2d x _ lead _ _ Hx HsW) as (xw & Hxw & Hsxw).
    unfold lora_forward, to_. rewrite Ht. cbn [bind].
    rewrite Hxw. cbn [bind].
    rewrite (tadd_bias_mismatch_raises xw bias lead out_features n'
               Hsxw Hbias ltac:(congruence) H1' H1).
    reflexivity.
Qed.

(** The forward run with its shapes and entries. *)
Lemma lora_forward_run
  (w : packed) (qs : quant_state) (w_lora_a w_lora_b : tensor A)
  (b : option (tensor A)) (x : tensor A)
  (lead : list nat) (in_features out_features rank : nat) :
  shape (dequantize_nf4 w qs) = [out_features; in_features] ->
  shape w_lora_a = [in_features; rank] ->
  shape w_lora_b = [rank; out_features] ->
  shape x = lead ++ [in_features] ->
  (forall bias, b = Some bias -> shape bias = [out_features]) ->
  exists output main lora_a_out,
    lora_forward dequantize_nf4 w qs w_lora_a w_lora_b b x
    = Ok (output, main, lora_a_out) /\
    shape output = lead ++ [out_features] /\
    shape main = lead ++ [out_features] /\
    (forall r j, r < numel lead -> j < out_features ->
       entry main out_features r j
       = let base := dot in_features (entry x in_features r)
                         (entry (dequantize_nf4 w qs) in_features j) in
         match b with
         | Some bias => add base (at_ (data bias) j)
         | None => base
         end) /\
    (forall r q, r < numel lead -> q < rank ->
       entry lora_a_out rank r q
       = dot in_features (entry x in_features r)
             (fun t => entry w_lora_a rank t q)) /\
    (forall r j, r < numel lead -> j < out_features ->
       entry output out_features r j
       = add (entry main out_features r j)
             (dot rank (entry lora_a_out rank r)
                  (fun q => entry w_lora_b out_features q j))).
Proof.
  intros Hw Ha Hb Hx Hbias.
  destruct (t_ok _ _ _ Hw) as [Ht HsW].
  destruct (matmul_right_2d x _ lead _ _ Hx HsW) as (xw & Hxw & Hsxw).
  assert (Hxw_at : forall r j, r < numel lead -> j < out_features ->
            entry xw out_features r j
            = dot in_features (entry x in_features r)
                  (entry (dequantize_nf4 w qs) in_features j)).
  { intros r j Hr Hj.
    rewrite (matmul_right_2d_entry x _ xw lead _ _ r j Hx HsW Hxw Hr Hj).
    apply dot_ext; [reflexivity|].
    intros t Ht'. now apply T_entry. }
  assert (Hmain : exists main,
             (x_main <- match b with
                        | Some b => xw <- Ok xw ;; tadd xw (to_ b)
                        | None => Ok xw
                        end ;; Ok x_main) = Ok main /\
             shape main = lead ++ [out_features] /\
             (forall r j, r < numel lead -> j < out_features ->
                entry main out_features r j
                = let base := dot in_features (entry x in_features r)
                                (entry (dequantize_nf4 w qs) in_features j) in
                  match b with
                  | Some bias => add base (at_ (data bias) j)
                  | None => base
                  end)).
  { destruct b as [bias|].
    - destruct (tadd_bias xw bias lead _ Hsxw (Hbias bias eq_refl))
        as (main & Hm & Hsm).
      exists main. cbn [bind]. unfold to_. rewrite Hm.
      repeat split; try assumption.
      intros r j Hr Hj. cbv zeta.
      rewrite (tadd_bias_entry xw bias main lead _ r j Hsxw
                 (Hbias bias eq_refl) Hm Hr Hj).
      now rewrite Hxw_at.
    - exists xw. repeat split; try assumption. }
  destruct Hmain as (main & Hm & Hsm & Hmain_at).
  destruct (matmul_right_2d x _ lead _ _ Hx Ha) as (la & Hla & Hsla).
  destruct (matmul_right_2d la _ lead _ _ Hsla Hb) as (lo & Hlo & Hslo).
  assert (Hss : shape lo = shape main) by congruence.
  destruct (tadd_same_shape main lo Hss) as (out & Hout & Hsout).
  exists out, main, la.
  split.
  { unfold lora_forward, to_. rewrite Ht. cbn [bind]. rewrite Hxw.
    destruct b as [bias|]; cbn [bind] in Hm |- *; unfold to_ in Hm.
    - destruct (tadd xw bias) as [m'|]; [|discriminate].
      injection Hm as ->. cbn [bind]. rewrite Hla. cbn [bind].
      rewrite Hlo. cbn [bind]. rewrite Hout. reflexivity.
    - injection Hm as ->. rewrite Hla. cbn [bind].
      rewrite Hlo. cbn [bind]. rewrite Hout. reflexivity. }
  split; [congruence|]. split; [assumption|]. split; [assumption|].
  split.
  - intros r q Hr Hq.
    exact (matmul_right_2d_entry x _ la lead _ _ r q Hx Ha Hla Hr Hq).
  - intros r j Hr Hj.
    rewrite (tadd_same_shape_entry main lo out lead _ r j Hsm Hss Hout Hr Hj).
    f_equal.
    exact (matmul_right_2d_entry la _ lo lead _ _ r j Hsla Hb Hlo Hr Hj).
Qed.

(** The backward run on a matrix of activations, with its entries. *)
Lemma lora_backward_run
  (w : packed) (qs : quant_state) (w_lora_a w_lora_b : tensor A)
  (x x_lora_a grad_y : tensor A)
  (batch : list nat) (s in_features out_features rank : nat) :
  shape (dequantize_nf4 w qs) = [out_features; in_features] ->
  shape w_lora_a = [in_features; rank] ->
  shape w_lora_b = [rank; out_features] ->
  shape x = batch ++ [s; in_features] ->
  shape x_lora_a = batch ++ [s; rank] ->
  shape grad_y = batch ++ [s; out_features] ->
  exists grad_medium grad_A grad_B grad_x,
    lora_backward dequantize_nf4 w qs w_lora_a w_lora_b x x_lora_a grad_y
    = Ok (grad_A, grad_B, grad_x) /\
    shape grad_A = batch ++ [in_features; rank] /\
    shape grad_B = batch ++ [rank; out_features] /\
    shape grad_x = shape x /\
    (forall row q, row < numel batch * s -> q < rank ->
       entry grad_medium rank row q
       = dot out_features (entry grad_y out_features row)
             (entry w_lora_b out_features q)) /\
    (forall bi t q, bi < numel batch -> t < in_features -> q < rank ->
       entry grad_A rank (bi * in_features + t) q
       = dot s (fun i => entry x in_features (bi * s + i) t)
             (fun i => entry grad_medium rank (bi * s + i) q)) /\
    (forall bi q o, bi < numel batch -> q < rank -> o < out_features ->
       entry grad_B out_features (bi * rank + q) o
       = dot s (fun i => entry x_lora_a rank (bi * s + i) q)
             (fun i => entry grad_y out_features (bi * s + i) o)) /\
    (forall row t, row < numel batch * s -> t < in_features ->
       entry grad_x in_features row t
       = add (dot out_features (entry grad_y out_features row)
                  (fun o => entry (dequantize_nf4 w qs) in_features o t))
             (dot rank (entry grad_medium rank row)
                  (entry w_lora_a rank t))).
Proof.
  intros Hw Ha Hb Hx Hxl Hg.
  assert (Hrows : forall n, batch ++ [s; n] = (batch ++ [s]) ++ [n])
    by (intros; now rewrite <- app_assoc).
  assert (Hnrows : numel (batch ++ [s]) = numel batch * s).
  { rewrite numel_app. cbn [numel fold_right]. lia. }
  destruct (t_ok _ _ _ Hw) as [Ht HsW].
  destruct (mT_ok w_lora_b [] _ _ Hb) as (bt & Hbt & Hsbt).
  cbn [app] in Hsbt.
  destruct (matmul_ok grad_y bt batch [] batch s out_features rank
              Hg Hsbt (broadcast_nil_r batch)) as (gm & Hgm & Hsgm).
  destruct (mT_ok x batch _ _ Hx) as (xt & Hxt & Hsxt).
  destruct (matmul_ok xt gm batch batch batch in_features s rank
              Hsxt Hsgm (broadcast_refl batch)) as (gA & HgA & HsgA).
  destruct (mT_ok x_lora_a batch _ _ Hxl) as (xlt & Hxlt & Hsxlt).
  destruct (matmul_ok xlt grad_y batch batch batch rank s out_features
              Hsxlt Hg (broadcast_refl batch)) as (gB & HgB & HsgB).
  assert (HsWT : shape (T_ (T_ (dequantize_nf4 w qs)))
                 = [out_features; in_features]).
  { unfold T_ at 1. cbn [shape]. now rewrite HsW. }
  destruct (matmul_ok grad_y _ batch [] batch s out_features in_features
              Hg HsWT (broadcast_nil_r batch)) as (bp & Hbp & Hsbp).
  assert (HsAT : shape (T_ w_lora_a) = [rank; in_features]).
  { unfold T_. cbn [shape]. now rewrite Ha. }
  destruct (matmul_ok gm _ batch [] batch s rank in_features
              Hsgm HsAT (broadcast_nil_r batch)) as (lp & Hlp & Hslp).
  assert (Hss : shape lp = shape bp) by congruence.
  destruct (iadd_same_shape bp lp Hss) as (gx & Hgx & Hgx' & Hsgx).
  exists gm, gA, gB, gx.
  split.
  { unfold lora_backward, to_. rewrite Ht. cbn [bind].
    rewrite Hbt. cbn [bind]. rewrite Hgm. cbn [bind].
    rewrite Hxt. cbn [bind]. rewrite HgA. cbn [bind].
    rewrite Hxlt. cbn [bind]. rewrite HgB. cbn [bind].
    rewrite Hbp. cbn [bind]. rewrite Hlp. cbn [bind].
    rewrite Hgx. reflexivity. }
  split; [assumption|]. split; [assumption|]. split; [congruence|].
  rewrite Hrows in Hg, Hsgm, Hsbp, Hslp.
  assert (Hgm_at : forall row q, row < numel batch * s -> q < rank ->
            entry gm rank row q
            = dot out_features (entry grad_y out_features row)
                  (entry w_lora_b out_features q)).
  { intros row q Hr Hq.
    rewrite (matmul_right_2d_entry grad_y bt gm (batch ++ [s]) _ _ row q
               Hg Hsbt Hgm ltac:(lia) Hq).
    apply dot_ext; [reflexivity|]. intros o Ho.
    pose proof (mT_entry w_lora_b bt [] rank out_features 0 q o
                  Hb Hbt ltac:(cbn; lia) Hq Ho) as E.
    cbn [Nat.mul Nat.add] in E. exact E. }
  split; [exact Hgm_at|]. split; [|split].
  - intros bi t q Hbi Ht' Hq.
    rewrite <- Hrows in Hsgm.
    rewrite (matmul_batched_entry xt gm gA batch _ _ _ bi t q
               Hsxt Hsgm HgA Hbi Ht' Hq).
    apply dot_ext; [|reflexivity]. intros i Hi.
    exact (mT_entry x xt batch s in_features bi i t Hx Hxt Hbi Hi Ht').
  - intros bi q o Hbi Hq Ho.
    rewrite <- Hrows in Hg.
    rewrite (matmul_batched_entry xlt grad_y gB batch _ _ _ bi q o
               Hsxlt Hg HgB Hbi Hq Ho).
    apply dot_ext; [|reflexivity]. intros i Hi.
    exact (mT_entry x_lora_a xlt batch s rank bi i q Hxl Hxlt Hbi Hi Hq).
  - intros row t Hr Ht'.
    rewrite (tadd_same_shape_entry bp lp gx (batch ++ [s]) _ row t
               Hsbp Hss Hgx' ltac:(lia) Ht').
    f_equal.
    + rewrite (matmul_right_2d_entry grad_y _ bp (batch ++ [s]) _ _ row t
                 Hg HsWT Hbp ltac:(lia) Ht').
      apply dot_ext; [reflexivity|]. intros o Ho.
      rewrite (T_entry (T_ (dequantize_nf4 w qs)) in_features out_features
                 t o HsW Ht' Ho).
      exact (T_entry (dequantize_nf4 w qs) out_features in_features
               o t Hw Ho Ht').
    + rewrite (matmul_right_2d_entry gm _ lp (batch ++ [s]) _ _ row t
                 Hsgm HsAT Hlp ltac:(lia) Ht').
      apply dot_ext; [reflexivity|]. intros q Hq.
      exact (T_entry w_lora_a in_features rank t q Ha Ht' Hq).
Qed.

(** X24: a single token given as a vector [x : (in_features,)] goes
    through [lora_forward], which returns an output vector of
    [out_features] entries, but not through [lora_backward]: there
    [x.mT] needs at least two axes and raises a [RuntimeError].  The
    backward pass needs activations with a token axis. *)
Theorem lora_backward_rejects_vectors
  (w : packed) (qs : quant_state) (w_lora_a w_lora_b : tensor A)
  (x x_lora_a grad_y : tensor A)
  (in_features out_features rank : nat) :
  shape (dequantize_nf4 w qs) = [out_features; in_features] ->
  shape w_lora_a = [in_features; rank] ->
  shape w_lora_b = [rank; out_features] ->
  shape x = [in_features] ->
  shape grad_y = [out_features] ->
  (exists output main lora_a_out,
     lora_forward dequantize_nf4 w qs w_lora_a w_lora_b None x
     = Ok (output, main, lora_a_out) /\
     shape output = [out_features] /\ shape lora_a_out = [rank]) /\
  lora_backward dequantize_nf4 w qs w_lora_a w_lora_b x x_lora_a grad_y
  = Raise (RuntimeError NotAMatrix).
Proof.
  intros Hw Ha Hb Hx Hg. split.
  - destruct (t_ok _ _ _ Hw) as [Ht HsW].
    destruct (matmul_vec_ok x _ _ _ Hx HsW) as (xw & Hxw & Hsxw).
    destruct (matmul_vec_ok x _ _ _ Hx Ha) as (la & Hla & Hsla).
    destruct (matmul_vec_ok la _ _ _ Hsla Hb) as (lo & Hlo & Hslo).
    assert (Hss : shape lo = shape xw) by congruence.
    destruct (tadd_same_shape xw lo Hss) as (out & Hout & Hsout).
    exists out, xw, la. split; [|split; congruence].
    unfold lora_forward, to_. rewrite Ht. cbn [bind].
    rewrite Hxw. cbn [bind]. rewrite Hla. cbn [bind].
    rewrite Hlo. cbn [bind]. rewrite Hout. reflexivity.
  - destruct (t_ok _ _ _ Hw) as [Ht HsW].
    destruct (mT_ok w_lora_b [] _ _ Hb) as (bt & Hbt & Hsbt).
    cbn [app] in Hsbt.
    destruct (matmul_vec_ok grad_y bt _ _ Hg Hsbt) as (gm & Hgm & _).
    unfold lora_backward, to_. rewrite Ht. cbn [bind].
    rewrite Hbt. cbn [bind]. rewrite Hgm. cbn [bind].
    unfold mT at 1. rewrite Hx. reflexivity.
Qed.

(** ** Exact arithmetic *)

(** From here on the elements obey the laws of exact arithmetic. *)
Context `{!Exact A}.

(** X27: in exact arithmetic (elements of a commutative semiring;
    floating-point sums depend on how they are associated), the batch
    axes that [lora_backward] keeps on the adapter gradients carry one
    partial gradient per batch entry.  Summing [grad_A] and [grad_B]
    over the batch gives the gradients that [lora_backward] returns
    for the same tokens passed as one matrix of [numel batch * s]
    rows; [grad_x] has the same entries in both calls. *)
Theorem lora_backward_batch_sum
  (w : packed) (qs : quant_state) (w_lora_a w_lora_b : tensor A)
  (x x_lora_a grad_y : tensor A)
  (batch : list nat) (s in_features out_features rank : nat) :
  shape (dequantize_nf4 w qs) = [out_features; in_features] ->
  shape w_lora_a = [in_features; rank] ->
  shape w_lora_b = [rank; out_features] ->
  shape x = batch ++ [s; in_features] ->
  shape x_lora_a = batch ++ [s; rank] ->
  shape grad_y = batch ++ [s; out_features] ->
  let flat (t : tensor A) (cols : nat) :=
    Tensor [numel batch * s; cols] (data t) in
  exists grad_A grad_B grad_x grad_A' grad_B' grad_x',
    lora_backward dequantize_nf4 w qs w_lora_a w_lora_b x x_lora_a grad_y
    = Ok (grad_A, grad_B, grad_x) /\
    lora_backward dequantize_nf4 w qs w_lora_a w_lora_b
      (flat x in_features) (flat x_lora_a rank) (flat grad_y out_features)
    = Ok (grad_A', grad_B', grad_x') /\
    shape grad_A' = [in_features; rank] /\
    shape grad_B' = [rank; out_features] /\
    (forall t q, t < in_features -> q < rank ->
       entry grad_A' rank t q
       = sum_list (tabulate (numel batch)
                     (fun bi => entry grad_A rank (bi * in_features + t) q))) /\
    (forall q o, q < rank -> o < out_features ->
       entry grad_B' out_features q o
       = sum_list (tabulate (numel batch)
                     (fun bi => entry grad_B out_features (bi * rank + q) o))) /\
    (forall row t, row < numel batch * s -> t < in_features ->
       entry grad_x' in_features row t = entry grad_x in_features row t).
Proof.
  intros Hw Ha Hb Hx Hxl Hg flat.
  destruct (lora_backward_run w qs w_lora_a w_lora_b x x_lora_a grad_y
              batch s in_features out_features rank Hw Ha Hb Hx Hxl Hg)
    as (gm & gA & gB & gx & Hrun & _ & _ & _ & Hgm & HgA & HgB & Hgx).
  destruct (lora_backward_run w qs w_lora_a w_lora_b
              (flat x in_features) (flat x_lora_a rank)
              (flat grad_y out_features)
              [] (numel batch * s) in_features out_features rank
              Hw Ha Hb eq_refl eq_refl eq_refl)
    as (gm' & gA' & gB' & gx' & Hrun' & HsA' & HsB' & _
        & Hgm' & HgA' & HgB' & Hgx').
  cbn [numel fold_right app] in *.
  assert (Egm : forall row q, row < numel batch * s -> q < rank ->
            entry gm' rank row q = entry gm rank row q).
  { intros row q Hr Hq.
    rewrite (Hgm' row q ltac:(lia) Hq), (Hgm row q Hr Hq). reflexivity. }
  exists gA, gB, gx, gA', gB', gx'.
  split; [exact Hrun|]. split; [exact Hrun'|].
  split; [exact HsA'|]. split; [exact HsB'|].
  split; [|split].
  - intros t q Ht Hq.
    pose proof (HgA' 0 t q ltac:(lia) Ht Hq) as E.
    cbn [Nat.mul Nat.add] in E. rewrite E. unfold dot.
    rewrite sum_list_blocks.
    f_equal. apply tabulate_ext. intros bi Hbi.
    rewrite (HgA bi t q Hbi Ht Hq). unfold dot.
    f_equal. apply tabulate_ext. intros i Hi.
    rewrite Egm by (try assumption; nia). reflexivity.
  - intros q o Hq Ho.
    pose proof (HgB' 0 q o ltac:(lia) Hq Ho) as E.
    cbn [Nat.mul Nat.add] in E. rewrite E. unfold dot.
    rewrite sum_list_blocks.
    f_equal. apply tabulate_ext. intros bi Hbi.
    rewrite (HgB bi q o Hbi Hq Ho). reflexivity.
  - intros row t Hr Ht.
    rewrite (Hgx' row t ltac:(lia) Ht), (Hgx row t Hr Ht).
    f_equal. apply dot_ext; [|reflexivity].
    intros q Hq. now apply Egm.
Qed.

(** ** The adapter initialised to zero *)

(** The laws of a commutative semiring that [Exact] leaves out. *)
Hypothesis mul_0_r : forall a : A, mul a zero = zero.

Lemma at_repeat_zero (n p : nat) : at_ (repeat zero n) p = zero.
Proof.
  unfold at_. destruct (Nat.lt_ge_cases p n) as [Hlt | Hge].
  - now apply nth_repeat_lt.
  - apply nth_overflow. now rewrite repeat_length.
Qed.

Lemma dot_zero_l (k : nat) (u v : nat -> A) :
  (forall t, t < k -> u t = zero) -> dot k u v = zero.
Proof.
  intros Hu. unfold dot.
  rewrite (tabulate_ext k _ (fun _ => zero))
    by (intros t Ht; now rewrite Hu, mul_0_l).
  apply sum_list_map_zero.
Qed.

Lemma dot_zero_r (k : nat) (u v : nat -> A) :
  (forall t, t < k -> v t = zero) -> dot k u v = zero.
Proof.
  intros Hv. unfold dot.
  rewrite (tabulate_ext k _ (fun _ => zero))
    by (intros t Ht; now rewrite Hv, mul_0_r).
  apply sum_list_map_zero.
Qed.

(** X9: with the adapter matrix [B] all zero (its initial value in
    LoRA), [lora_forward] returns an output equal to the base path:
    [output[r, j] = main[r, j]] for every row and column, and the
    shapes agree.  The adapter changes nothing until [B] is trained. *)
Theorem lora_forward_zero_adapter
  (w : packed) (qs : quant_state) (w_lora_a w_lora_b : tensor A)
  (b : option (tensor A)) (x : tensor A)
  (lead : list nat) (in_features out_features rank : nat) :
  shape (dequantize_nf4 w qs) = [out_features; in_features] ->
  shape w_lora_a = [in_features; rank] ->
  shape w_lora_b = [rank; out_features] ->
  shape x = lead ++ [in_features] ->
  (forall bias, b = Some bias -> shape bias = [out_features]) ->
  data w_lora_b = repeat zero (rank * out_features) ->
  exists output main lora_a_out,
    lora_forward dequantize_nf4 w qs w_lora_a w_lora_b b x
    = Ok (output, main, lora_a_out) /\
    shape output = shape main /\
    forall r j, r < numel lead -> j < out_features ->
      entry output out_features r j = entry main out_features r j.
Proof.
  intros Hw Ha Hb Hx Hbias Hzero.
  destruct (lora_forward_run w qs w_lora_a w_lora_b b x lead
              in_features out_features rank Hw Ha Hb Hx Hbias)
    as (output & main & la & Hrun & Hso & Hsm & _ & _ & Hout).
  exists output, main, la. split; [assumption|]. split; [congruence|].
  intros r j Hr Hj. rewrite (Hout r j Hr Hj).
  rewrite dot_zero_r; [apply add_0_r|].
  intros q _. unfold entry. rewrite Hzero. apply at_repeat_zero.
Qed.

(** X10: with [B] all zero, [lora_backward] returns a gradient for
    [A] that is zero everywhere, and an input gradient that is the one
    of the base layer alone: [grad_x[r, t] = sum_o grad_y[r, o] *
    Wq[o, t]] with [Wq] the dequantized weight. *)
Theorem lora_backward_zero_adapter
  (w : packed) (qs : quant_state) (w_lora_a w_lora_b : tensor A)
  (x x_lora_a grad_y : tensor A)
  (batch : list nat) (s in_features out_features rank : nat) :
  shape (dequantize_nf4 w qs) = [out_features; in_features] ->
  shape w_lora_a = [in_features; rank] ->
  shape w_lora_b = [rank; out_features] ->
  shape x = batch ++ [s; in_features] ->
  shape x_lora_a = batch ++ [s; rank] ->
  shape grad_y = batch ++ [s; out_features] ->
  data w_lora_b = repeat zero (rank * out_features) ->
  exists grad_A grad_B grad_x,
    lora_backward dequantize_nf4 w qs w_lora_a w_lora_b x x_lora_a grad_y
    = Ok (grad_A, grad_B, grad_x) /\
    (forall bi t q, bi < numel batch -> t < in_features -> q < rank ->
       entry grad_A rank (bi * in_features + t) q = zero) /\
    (forall row t, row < numel batch * s -> t < in_features ->
       entry grad_x in_features row t
       = dot out_features (entry grad_y out_features row)
             (fun o => entry (dequantize_nf4 w qs) in_features o t)).
Proof.
  intros Hw Ha Hb Hx Hxl Hg Hzero.
  destruct (lora_backward_run w qs w_lora_a w_lora_b x x_lora_a grad_y
              batch s in_features out_features rank Hw Ha Hb Hx Hxl Hg)
    as (gm & gA & gB & gx & Hrun & _ & _ & _ & Hgm & HgA & _ & Hgx).
  assert (Hgm0 : forall row q, row < numel batch * s -> q < rank ->
            entry gm rank row q = zero).
  { intros row q Hr Hq. rewrite (Hgm row q Hr Hq).
    apply dot_zero_r. intros o _.
    unfold entry. rewrite Hzero. apply at_repeat_zero. }
  exists gA, gB, gx. split; [assumption|]. split.
  - intros bi t q Hbi Ht Hq. rewrite (HgA bi t q Hbi Ht Hq).
    apply dot_zero_r. intros i Hi. apply Hgm0; [nia | assumption].
  - intros row t Hr Ht. rewrite (Hgx row t Hr Ht).
    rewrite (dot_zero_l rank); [apply add_0_r|].
    intros q Hq. now apply Hgm0.
Qed.

(** ** The merged weight *)

Hypothesis mul_comm : forall a b : A, mul a b = mul b a.
Hypothesis mul_assoc : forall a b c : A, mul a (mul b c) = mul (mul a b) c.
Hypothesis mul_add_distr_l :
  forall a b c : A, mul a (add b c) = add (mul a b) (mul a c).

Lemma sum_list_mul_l {B : Type} (f : B -> A) (c : A) (l : list B) :
  mul c (sum_list (map f l)) = sum_list (map (fun b => mul c (f b)) l).
Proof.
  unfold sum_list. induction l as [|b l IH]; cbn [map fold_right].
  - apply mul_0_r.
  - now rewrite mul_add_distr_l, IH.
Qed.

(** [(u . a) . v = u . (a . v)] for a vector [u], a matrix [a] and a
    vector [v]. *)
Lemma dot_dot_assoc (m n : nat) (u v : nat -> A) (a : nat -> nat -> A) :
  dot n (fun q => dot m u (fun t => a t q)) v
  = dot m u (fun t => dot n (a t) v).
Proof.
  unfold dot, tabulate.
  transitivity
    (sum_list
       (map (fun q => sum_list
                        (map (fun t => mul (mul (u t) (a t q)) (v q))
                             (seq 0 m)))
            (seq 0 n))).
  - apply sum_list_map_ext. intros q _. apply sum_list_mul_r.
  - rewrite (sum_list_exchange
               (fun q t => mul (mul (u t) (a t q)) (v q))).
    apply sum_list_map_ext. intros t _.
    rewrite sum_list_mul_l.
    apply sum_list_map_ext. intros q _. now rewrite mul_assoc.
Qed.

Lemma dot_add_r (k : nat) (u v v' : nat -> A) :
  add (dot k u v) (dot k u v') = dot k u (fun t => add (v t) (v' t)).
Proof.
  unfold dot, tabulate.
  rewrite <- sum_list_map_add.
  apply sum_list_map_ext. intros t _. now rewrite mul_add_distr_l.
Qed.

Lemma dot_comm (k : nat) (u v : nat -> A) : dot k u v = dot k v u.
Proof.
  unfold dot. f_equal. apply tabulate_ext. intros t _. apply mul_comm.
Qed.

(** X11: the output of [lora_forward] is the output of one linear
    layer with the merged weight [Wq^T + A B]:
    [output[r, j] = sum_t x[r, t] * (Wq[j, t] + sum_q A[t, q] * B[q, j])],
    plus [b[j]] when there is a bias. *)
Theorem lora_forward_merged_weight
  (w : packed) (qs : quant_state) (w_lora_a w_lora_b : tensor A)
  (b : option (tensor A)) (x : tensor A)
  (lead : list nat) (in_features out_features rank : nat) :
  shape (dequantize_nf4 w qs) = [out_features; in_features] ->
  shape w_lora_a = [in_features; rank] ->
  shape w_lora_b = [rank; out_features] ->
  shape x = lead ++ [in_features] ->
  (forall bias, b = Some bias -> shape bias = [out_features]) ->
  exists output main lora_a_out,
    lora_forward dequantize_nf4 w qs w_lora_a w_lora_b b x
    = Ok (output, main, lora_a_out) /\
    forall r j, r < numel lead -> j < out_features ->
      entry output out_features r j
      = let linear :=
          dot in_features (entry x in_features r)
            (fun t =>
               add (entry (dequantize_nf4 w qs) in_features j t)
                   (dot rank (entry w_lora_a rank t)
                        (fun q => entry w_lora_b out_features q j))) in
        match b with
        | Some bias => add linear (at_ (data bias) j)
        | None => linear
        end.
Proof.
  intros Hw Ha Hb Hx Hbias.
  destruct (lora_forward_run w qs w_lora_a w_lora_b b x lead
              in_features out_features rank Hw Ha Hb Hx Hbias)
    as (output & main & la & Hrun & _ & _ & Hmain & Hla & Hout).
  exists output, main, la. split; [assumption|].
  intros r j Hr Hj. cbv zeta.
  rewrite (Hout r j Hr Hj), (Hmain r j Hr Hj). cbv zeta.
  rewrite (dot_ext rank (entry la rank r) _
             (fun q => dot in_features (entry x in_features r)
                         (fun t => entry w_lora_a rank t q))
             (fun q => entry w_lora_b out_features q j))
    ; [| intros q Hq; now apply Hla | intros; reflexivity].
  rewrite dot_dot_assoc, <- dot_add_r.
  destruct b as [bias|]; [|reflexivity].
  rewrite <- !add_assoc. f_equal. apply add_comm.
Qed.

(** X12: the input gradient of [lora_backward] is the output gradient
    times the transpose of the same merged weight:
    [grad_x[r, t] = sum_o grad_y[r, o] * (Wq[o, t] + sum_q A[t, q] *
    B[q, o])].  It is the gradient of the layer that [lora_forward]
    computes. *)
Theorem lora_backward_merged_weight
  (w : packed) (qs : quant_state) (w_lora_a w_lora_b : tensor A)
  (x x_lora_a grad_y : tensor A)
  (batch : list nat) (s in_features out_features rank : nat) :
  shape (dequantize_nf4 w qs) = [out_features; in_features] ->
  shape w_lora_a = [in_features; rank] ->
  shape w_lora_b = [rank; out_features] ->
  shape x = batch ++ [s; in_features] ->
  shape x_lora_a = batch ++ [s; rank] ->
  shape grad_y = batch ++ [s; out_features] ->
  exists grad_A grad_B grad_x,
    lora_backward dequantize_nf4 w qs w_lora_a w_lora_b x x_lora_a grad_y
    = Ok (grad_A, grad_B, grad_x) /\
    forall row t, row < numel batch * s -> t < in_features ->
      entry grad_x in_features row t
      = dot out_features (entry grad_y out_features row)
          (fun o =>
             add (entry (dequantize_nf4 w qs) in_features o t)
                 (dot rank (entry w_lora_a rank t)
                      (fun q => entry w_lora_b out_features q o))).
Proof.
  intros Hw Ha Hb Hx Hxl Hg.
  destruct (lora_backward_run w qs w_lora_a w_lora_b x x_lora_a grad_y
              batch s in_features out_features rank Hw Ha Hb Hx Hxl Hg)
    as (gm & gA & gB & gx & Hrun & _ & _ & _ & Hgm & _ & _ & Hgx).
  exists gA, gB, gx. split; [assumption|].
  intros row t Hr Ht. rewrite (Hgx row t Hr Ht).
  rewrite (dot_ext rank (entry gm rank row) _
             (fun q => dot out_features (entry grad_y out_features row)
                         (fun o => entry w_lora_b out_features q o))
             (entry w_lora_a rank t))
    ; [| intros q Hq; now apply Hgm | intros; reflexivity].
  rewrite dot_dot_assoc, dot_add_r.
  apply dot_ext; [reflexivity|]. intros o _. f_equal. apply dot_comm.
Qed.

End LoRA_more.

(** Two tokens of two features against a base weight of three input
    features. *)
Lemma lora_forward_shape_errors_witness :
  lora_forward Demo.dequant tt tt Demo.lora_a Demo.lora_b (Some Demo.bias)
    (Tensor [2; 2] [1; 0; 0; 1]%Z)
  = Raise (RuntimeError MatmulMismatch).
Proof.
  apply (@lora_forward_shape_errors Z Z_Scalar unit unit Demo.dequant tt tt
           Demo.lora_a Demo.lora_b (Some Demo.bias)
           (Tensor [2; 2] [1; 0; 0; 1]%Z) [2] 2 3 2);
    [reflexivity | reflexivity | lia].
Defined.

Lemma lora_forward_zero_adapter_witness :
  exists output main lora_a_out,
    lora_forward Demo.dequant tt tt Demo.lora_a (Tensor [1; 2] [0; 0]%Z)
      (Some Demo.bias) Demo.x2
    = Ok (output, main, lora_a_out) /\
    shape output = shape main.
Proof.
  destruct (@lora_forward_zero_adapter Z Z_Scalar unit unit Demo.dequant
              Z_Exact Z.mul_0_r tt tt Demo.lora_a (Tensor [1; 2] [0; 0]%Z)
              (Some Demo.bias) Demo.x2 [2] 3 2 1)
    as (output & main & la & Hrun & Hs & _); try reflexivity.
  - intros bias E. injection E as <-. reflexivity.
  - exists output, main, la. split; assumption.
Defined.

Lemma lora_backward_zero_adapter_witness :
  exists grad_A grad_B grad_x,
    lora_backward Demo.dequant tt tt Demo.lora_a (Tensor [1; 2] [0; 0]%Z)
      Demo.x2 Demo.x2_lora_a Demo.grad2
    = Ok (grad_A, grad_B, grad_x) /\
    entry grad_A 1 0 0 = 0%Z.
Proof.
  destruct (@lora_backward_zero_adapter Z Z_Scalar unit unit Demo.dequant
              Z_Exact Z.mul_0_r tt tt Demo.lora_a (Tensor [1; 2] [0; 0]%Z)
              Demo.x2 Demo.x2_lora_a Demo.grad2 [] 2 3 2 1)
    as (gA & gB & gx & Hrun & HA & _); try reflexivity.
  exists gA, gB, gx. split; [assumption|].
  apply (HA 0 0 0); simpl; lia.
Defined.

Lemma lora_forward_merged_weight_witness :
  exists output main lora_a_out,
    lora_forward Demo.dequant tt tt Demo.lora_a Demo.lora_b
      (Some Demo.bias) Demo.x2
    = Ok (output, main, lora_a_out) /\
    entry output 2 0 0 = 102%Z.
Proof.
  destruct (@lora_forward_merged_weight Z Z_Scalar unit unit Demo.dequant
              Z_Exact Z.mul_0_r Z.mul_assoc Z.mul_add_distr_l tt tt
              Demo.lora_a Demo.lora_b (Some Demo.bias) Demo.x2 [2] 3 2 1)
    as (output & main & la & Hrun & Hout); try reflexivity.
  - intros bias E. injection E as <-. reflexivity.
  - exists output, main, la. split; [assumption|].
    rewrite (Hout 0 0) by (simpl; lia). reflexivity.
Defined.

Lemma lora_backward_merged_weight_witness :
  exists grad_A grad_B grad_x,
    lora_backward Demo.dequant tt tt Demo.lora_a Demo.lora_b
      Demo.x2 Demo.x2_lora_a Demo.grad2
    = Ok (grad_A, grad_B, grad_x) /\
    entry grad_x 3 0 0 = 2%Z.
Proof.
  destruct (@lora_backward_merged_weight Z Z_Scalar unit unit Demo.dequant
              Z_Exact Z.mul_0_r Z.mul_comm Z.mul_assoc Z.mul_add_distr_l tt tt
              Demo.lora_a Demo.lora_b Demo.x2 Demo.x2_lora_a Demo.grad2
              [] 2 3 2 1)
    as (gA & gB & gx & Hrun & Hx); try reflexivity.
  exists gA, gB, gx. split; [assumption|].
  rewrite (Hx 0 0) by (simpl; lia). reflexivity.
Defined.

Lemma lora_backward_rejects_vectors_witness :
  lora_backward Demo.dequant tt tt Demo.lora_a Demo.lora_b
    (Tensor [3] [1; 0; 0]%Z) (Tensor [1] [1]%Z) (Tensor [2] [1; 0]%Z)
  = Raise (RuntimeError NotAMatrix).
Proof.
  apply (@lora_backward_rejects_vectors Z Z_Scalar unit unit Demo.dequant
           tt tt Demo.lora_a Demo.lora_b
           (Tensor [3] [1; 0; 0]%Z) (Tensor [1] [1]%Z) (Tensor [2] [1; 0]%Z)
           3 2 1); reflexivity.
Defined.

(** Two sequences of one token each, and the same two tokens as a
    matrix. *)
Lemma lora_backward_batch_sum_witness :
  exists grad_A grad_B grad_x grad_A' grad_B' grad_x',
    lora_backward Demo.dequant tt tt Demo.lora_a Demo.lora_b
      Demo.x3 Demo.x3_lora_a Demo.grad3
    = Ok (grad_A, grad_B, grad_x) /\
    lora_backward Demo.dequant tt tt Demo.lora_a Demo.lora_b
      Demo.x2 Demo.x2_lora_a Demo.grad2
    = Ok (grad_A', grad_B', grad_x') /\
    shape grad_A' = [3; 1].
Proof.
  destruct (@lora_backward_batch_sum Z Z_Scalar unit unit Demo.dequant
              Z_Exact tt tt Demo.lora_a Demo.lora_b
              Demo.x3 Demo.x3_lora_a Demo.grad3 [2] 1 3 2 1)
    as (gA & gB & gx & gA' & gB' & gx' & Hrun & Hrun' & HsA & _);
    try reflexivity.
  exists gA, gB, gx, gA', gB', gx'.
  split; [exact Hrun|]. split; [exact Hrun'|]. exact HsA.
Defined.

(* ================================================================== *)
(** * Fused RMS normalization: launch parameters, whole tensors,
      scaling, the input gradient *)
(* ================================================================== *)

Module RMSNormMore.

Import RMSNorm RMSNormFacts.

(** ** [next_power_of_2] *)

(** When the bits of [n] from [k] down are set over a width [w] and
    none is set above [k], one step of the smear doubles the width. *)
Lemma filled_smear (k w s n : Z) :
  (0 <= k)%Z -> (0 < s <= w)%Z ->
  (forall i, 0 <= i -> k - w < i <= k -> Z.testbit n i = true)%Z /\
  (forall i, k < i -> Z.testbit n i = false)%Z ->
  (forall i, 0 <= i -> k - (w + s) < i <= k ->
     Z.testbit (Z.lor n (Z.shiftr n s)) i = true)%Z /\
  (forall i, k < i -> Z.testbit (Z.lor n (Z.shiftr n s)) i = false)%Z.
Proof.
  intros Hk Hs [Hlow Hhigh]. split.
  - intros i Hi Hr. rewrite Z.lor_spec, Z.shiftr_spec by lia.
    destruct (Z_lt_le_dec (k - w) i) as [Hin | Hout].
    + rewrite Hlow by lia. reflexivity.
    + rewrite (Hlow (i + s)%Z) by lia. apply orb_true_r.
  - intros i Hi. rewrite Z.lor_spec, Z.shiftr_spec by lia.
    rewrite !Hhigh by lia. reflexivity.
Qed.

Lemma filled_ones (k w n : Z) :
  (0 <= k < w)%Z ->
  (forall i, 0 <= i -> k - w < i <= k -> Z.testbit n i = true)%Z /\
  (forall i, k < i -> Z.testbit n i = false)%Z ->
  n = Z.ones (k + 1).
Proof.
  intros Hk [Hlow Hhigh]. apply Z.bits_inj'. intros i Hi.
  rewrite Z.testbit_ones by lia.
  destruct (Z_lt_le_dec k i) as [Hgt | Hle].
  - rewrite Hhigh by lia. symmetry.
    rewrite (proj2 (Z.leb_le 0 i)) by lia.
    apply Z.ltb_ge. lia.
  - rewrite Hlow by lia. symmetry.
    rewrite (proj2 (Z.leb_le 0 i)) by lia.
    apply Z.ltb_lt. lia.
Qed.

(** For [2 <= n <= 2^64] the bit smear rounds up to a power of two. *)
Lemma next_power_of_2_spec (n : Z) :
  (1 <= n <= 2 ^ 64)%Z -> next_power_of_2 n = (2 ^ Z.log2_up n)%Z.
Proof.
  intros Hn. unfold next_power_of_2. cbv zeta.
  destruct (Z.eq_dec n 1) as [-> | Hne]; [reflexivity|].
  set (m := (n - 1)%Z).
  assert (Hm : (0 < m)%Z) by (unfold m; lia).
  set (k := Z.log2 m).
  assert (Hk0 : (0 <= k)%Z) by apply Z.log2_nonneg.
  assert (Hk : (k < 64)%Z).
  { apply Z.log2_lt_pow2; [assumption | unfold m; lia]. }
  assert (H0 : (forall i, 0 <= i -> k - 1 < i <= k -> Z.testbit m i = true)%Z
               /\ (forall i, k < i -> Z.testbit m i = false)%Z).
  { split.
    - intros i _ Hi. replace i with k by lia. now apply Z.bit_log2.
    - intros i Hi. apply Z.bits_above_log2; [lia | exact Hi]. }
  pose proof (filled_smear k 1 1 _ Hk0 ltac:(lia) H0) as H1.
  pose proof (filled_smear k (1 + 1) 2 _ Hk0 ltac:(lia) H1) as H2.
  pose proof (filled_smear k (1 + 1 + 2) 4 _ Hk0 ltac:(lia) H2) as H3.
  pose proof (filled_smear k (1 + 1 + 2 + 4) 8 _ Hk0 ltac:(lia) H3) as H4.
  pose proof (filled_smear k (1 + 1 + 2 + 4 + 8) 16 _ Hk0 ltac:(lia) H4)
    as H5.
  pose proof (filled_smear k (1 + 1 + 2 + 4 + 8 + 16) 32 _ Hk0
                ltac:(lia) H5) as H6.
  rewrite (filled_ones k (1 + 1 + 2 + 4 + 8 + 16 + 32) _ ltac:(lia) H6).
  rewrite Z.ones_equiv.
  assert (Hup : Z.log2_up n = (k + 1)%Z).
  { unfold Z.log2_up. destruct (Z.compare_spec 1 n); try lia.
    unfold k, m. rewrite <- Z.sub_1_r. lia. }
  rewrite Hup. lia.
Qed.

Lemma MAX_FUSED_SIZE_pow2 (dt : dtype) :
  exists e, (0 <= e <= 15)%Z /\ MAX_FUSED_SIZE dt = (2 ^ e)%Z.
Proof.
  destruct dt; [exists 15%Z | exists 15%Z | exists 14%Z | exists 13%Z];
    split; try lia; reflexivity.
Qed.

(** ** [rmsnorm_forward] on a whole tensor *)

Local Open Scope R_scope.

(** What [rmsnorm_forward] returns on rows of [1 <= N <=
    MAX_FUSED_SIZE] entries. *)
Lemma rmsnorm_forward_run (undef : R) (uninit : buffer -> nat -> R)
  (dt : dtype) (x : tensor R) (weight : list R) (eps : R)
  (lead : list nat) (N : nat) :
  shape x = (lead ++ [N])%list -> (0 < N)%nat ->
  (Z.of_nat N <= MAX_FUSED_SIZE dt)%Z ->
  let M := numel lead in
  let B := Z.min (MAX_FUSED_SIZE dt) (next_power_of_2 (Z.of_nat N)) in
  exists y rstd,
    rmsnorm_forward undef uninit dt x weight eps
    = Ok (Tensor (shape x) y, empty uninit BufMean M, rstd, B,
          Z.min (Z.max (B / 256) 1) 8) /\
    (Z.of_nat N <= B)%Z /\
    length y = numel (shape x) /\ length rstd = M /\
    forall r, (r < M)%nat ->
      nth r rstd undef = row_rstd undef (data x) N N eps r /\
      forall i, (i < N)%nat ->
        nth (r * N + i) y undef
        = row_x undef (data x) N r i * row_rstd undef (data x) N N eps r
          * nth i weight undef.
Proof.
  intros Hs HN Hmax M B. unfold rmsnorm_forward.
  rewrite Hs, rev_app_distr. cbn [rev app].
  rewrite (reshape_rows x lead N Hs HN). cbn [bind shape data].
  pose proof (next_power_of_2_ge (Z.of_nat N) ltac:(lia)) as Hp.
  fold B. fold M.
  assert (HB : (Z.of_nat N <= B)%Z) by (unfold B; lia).
  destruct (Z.gtb_spec (Z.of_nat N) B) as [Hgt | _]; [lia|].
  assert (Hnumel : numel (lead ++ [N]) = (M * N)%nat).
  { rewrite numel_app. cbn [numel fold_right]. unfold M. lia. }
  destruct (launch_fwd_rows undef (data x)
              (empty uninit BufY (numel (lead ++ [N]))) weight
              (empty uninit BufRstd M) M N eps (Z.to_nat B))
    as (HlY & HlR & Hrows).
  - lia.
  - unfold empty. rewrite length_tabulate. lia.
  - unfold empty. rewrite length_tabulate. lia.
  - do 2 eexists. split; [reflexivity|].
    split; [exact HB|]. split; [|split].
    + rewrite HlY. unfold empty. now rewrite length_tabulate.
    + rewrite HlR. unfold empty. now rewrite length_tabulate.
    + exact Hrows.
Qed.

(** X13: on rows of [1 <= N <= 65536 // element_size] entries,
    [rmsnorm_forward] returns as [BLOCK_SIZE] the smallest power of
    two that is at least [N] (so [N <= BLOCK_SIZE < 2 N], within the
    ceiling) and as [num_warps] the quotient [BLOCK_SIZE // 256]
    clamped to [1 .. 8]. *)
Theorem rmsnorm_forward_launch_parameters
  (undef : R) (uninit : buffer -> nat -> R)
  (dt : dtype) (x : tensor R) (weight : list R) (eps : R)
  (lead : list nat) (N : nat) :
  shape x = (lead ++ [N])%list -> (0 < N)%nat ->
  (Z.of_nat N <= 65536 / element_size dt)%Z ->
  exists y mean rstd BLOCK_SIZE num_warps k,
    rmsnorm_forward undef uninit dt x weight eps
    = Ok (y, mean, rstd, BLOCK_SIZE, num_warps) /\
    (0 <= k)%Z /\ BLOCK_SIZE = (2 ^ k)%Z /\
    (Z.of_nat N <= BLOCK_SIZE)%Z /\
    (forall j, 0 <= j -> Z.of_nat N <= 2 ^ j -> BLOCK_SIZE <= 2 ^ j)%Z /\
    (BLOCK_SIZE < 2 * Z.of_nat N)%Z /\
    (BLOCK_SIZE <= 65536 / element_size dt)%Z /\
    num_warps = Z.min (Z.max (BLOCK_SIZE / 256) 1) 8 /\
    (1 <= num_warps <= 8)%Z.
Proof.
  intros Hs HN Hmax. fold (MAX_FUSED_SIZE dt) in *.
  destruct (rmsnorm_forward_run undef uninit dt x weight eps lead N
              Hs HN Hmax) as (y & rstd & Hrun & _).
  destruct (MAX_FUSED_SIZE_pow2 dt) as (e & He0 & He).
  set (n := Z.of_nat N) in *.
  assert (Hn : (1 <= n)%Z) by (unfold n; lia).
  assert (Hke : (Z.log2_up n <= e)%Z).
  { apply Z.log2_up_le_pow2; [lia | rewrite <- He; exact Hmax]. }
  assert (He16 : (e <= 16)%Z) by lia.
  assert (Hpow : next_power_of_2 n = (2 ^ Z.log2_up n)%Z).
  { apply next_power_of_2_spec. split; [lia|].
    transitivity (2 ^ e)%Z; [rewrite <- He; exact Hmax|].
    apply Z.pow_le_mono_r; lia. }
  assert (HB : Z.min (MAX_FUSED_SIZE dt) (next_power_of_2 n)
               = (2 ^ Z.log2_up n)%Z).
  { rewrite Hpow, He. apply Z.min_r. apply Z.pow_le_mono_r; lia. }
  rewrite HB in Hrun.
  pose proof (Z.log2_up_nonneg n) as Hk0.
  assert (Hge : (n <= 2 ^ Z.log2_up n)%Z)
    by (apply Z.log2_up_le_pow2; lia).
  exists (Tensor (shape x) y), (empty uninit BufMean (numel lead)), rstd,
    (2 ^ Z.log2_up n)%Z,
    (Z.min (Z.max (2 ^ Z.log2_up n / 256) 1) 8), (Z.log2_up n).
  split; [exact Hrun|]. split; [exact Hk0|]. split; [reflexivity|].
  split; [exact Hge|]. split; [|split; [|split; [|split]]].
  - intros j Hj Hnj. apply Z.pow_le_mono_r; [lia|].
    apply Z.log2_up_le_pow2; lia.
  - destruct (Z.eq_dec n 1) as [E | E].
    + rewrite E. cbn. lia.
    + pose proof (Z.log2_up_spec n ltac:(lia)) as [Hlow _].
      replace (Z.log2_up n) with (Z.succ (Z.pred (Z.log2_up n))) by lia.
      rewrite Z.pow_succ_r; [lia|].
      assert (0 < Z.log2_up n)%Z by (apply Z.log2_up_pos; lia). lia.
  - rewrite He. apply Z.pow_le_mono_r; lia.
  - reflexivity.
  - lia.
Qed.

(** A row of 300 float16 entries runs with blocks of 512 lanes and 2
    warps. *)
Lemma rmsnorm_forward_launch_parameters_witness :
  let N := Z.to_nat 300 in
  exists y mean rstd,
    rmsnorm_forward 0 (fun _ _ => 0) float16
      (Tensor [1%nat; N] (repeat 0 N)) (repeat 1 N) (1 / 100000)
    = Ok (y, mean, rstd, 512%Z, 2%Z).
Proof.
  intro N.
  destruct (rmsnorm_forward_launch_parameters 0 (fun _ _ => 0) float16
              (Tensor [1%nat; N] (repeat 0 N)) (repeat 1 N) (1 / 100000)
              [1%nat] N)
    as (y & mean & rstd & B & nw & k & Hrun & Hk & HB & Hge & Hmin & Hlt
        & _ & Hnw & _).
  - reflexivity.
  - unfold N. lia.
  - vm_compute. discriminate.
  - exists y, mean, rstd. rewrite Hrun.
    assert (Hk9 : k = 9%Z).
    { assert (Hn : Z.of_nat N = 300%Z) by (unfold N; lia).
      rewrite Hn, HB in *.
      assert (k < 10)%Z
        by (apply (Z.pow_lt_mono_r_iff 2); try lia;
            change (2 ^ 10)%Z with 1024%Z; lia).
      assert (8 < k)%Z
        by (apply (Z.pow_lt_mono_r_iff 2); try lia;
            change (2 ^ 8)%Z with 256%Z; lia).
      lia. }
    subst k. subst B. subst nw. reflexivity.
Defined.

(** X25: [rmsnorm_forward] on degenerate shapes.  A tensor without
    axes has no [x.shape[-1]]: [IndexError].  A tensor whose last axis
    is empty cannot be reshaped to [(-1, 0)]: torch raises its
    ambiguous-shape [RuntimeError] before any buffer is used. *)
Theorem rmsnorm_forward_degenerate_shapes
  (undef : R) (uninit : buffer -> nat -> R)
  (dt : dtype) (x : tensor R) (weight : list R) (eps : R) :
  (shape x = nil ->
   rmsnorm_forward undef uninit dt x weight eps = Raise IndexError) /\
  (forall lead, shape x = (lead ++ [0%nat])%list ->
   rmsnorm_forward undef uninit dt x weight eps
   = Raise (RuntimeError AmbiguousInfer)).
Proof.
  split.
  - intros Hs. unfold rmsnorm_forward. now rewrite Hs.
  - intros lead Hs. unfold rmsnorm_forward.
    rewrite Hs, rev_app_distr. cbn [rev app].
    now rewrite (reshape_rows_empty x lead Hs).
Qed.

(** X14: on a tensor of [M] rows of [1 <= N <= 65536 //
    element_size] entries, [rmsnorm_forward] returns [y] of the shape
    of [x] and [rstd] of length [M] with, for every row [r],
    [rstd[r] = 1 / sqrt(mean(x[r, :]^2) + eps)] and
    [y[r, i] = x[r, i] * rstd[r] * weight[i]].  The [mean] it returns
    is the buffer as [torch.empty] allocated it: no row writes it. *)
Theorem rmsnorm_forward_all_rows
  (undef : R) (uninit : buffer -> nat -> R)
  (dt : dtype) (x : tensor R) (weight : list R) (eps : R)
  (lead : list nat) (N : nat) :
  shape x = (lead ++ [N])%list -> (0 < N)%nat ->
  (Z.of_nat N <= 65536 / element_size dt)%Z ->
  exists y mean rstd BLOCK_SIZE num_warps,
    rmsnorm_forward undef uninit dt x weight eps
    = Ok (y, mean, rstd, BLOCK_SIZE, num_warps) /\
    shape y = shape x /\
    length (data y) = numel (shape x) /\
    length rstd = numel lead /\
    length mean = numel lead /\
    forall r, (r < numel lead)%nat ->
      let xr i := nth (r * N + i) (data x) undef in
      let mean_square := Rsum (map (fun i => xr i * xr i) (seq 0 N)) / INR N in
      nth r mean undef = uninit BufMean r /\
      nth r rstd undef = 1 / sqrt (mean_square + eps) /\
      forall i, (i < N)%nat ->
        nth (r * N + i) (data y) undef
        = xr i * (1 / sqrt (mean_square + eps)) * nth i weight undef.
Proof.
  intros Hs HN Hmax.
  destruct (rmsnorm_forward_run undef uninit dt x weight eps lead N
              Hs HN Hmax) as (y & rstd & Hrun & _ & Hly & Hlr & Hrows).
  do 5 eexists. split; [exact Hrun|]. cbn [shape data].
  split; [reflexivity|]. split; [exact Hly|]. split; [exact Hlr|].
  split; [unfold empty; apply length_tabulate|].
  intros r Hr. cbv zeta. split; [|exact (Hrows r Hr)].
  unfold empty. now apply nth_tabulate.
Qed.

(** One row [1, 2, 3, 4] in float32. *)
Lemma rmsnorm_forward_all_rows_witness :
  exists y mean rstd BLOCK_SIZE num_warps,
    rmsnorm_forward 0 (fun _ _ => 0) float32
      (Tensor [1%nat; 4%nat] [1; 2; 3; 4]) [1; 1; 1; 1] (1 / 100000)
    = Ok (y, mean, rstd, BLOCK_SIZE, num_warps) /\
    shape y = [1%nat; 4%nat].
Proof.
  destruct (rmsnorm_forward_all_rows 0 (fun _ _ => 0) float32
              (Tensor [1%nat; 4%nat] [1; 2; 3; 4]) [1; 1; 1; 1]
              (1 / 100000) [1%nat] 4%nat)
    as (y & mean & rstd & B & nw & Hrun & Hs & _).
  - reflexivity.
  - lia.
  - vm_compute. discriminate.
  - exists y, mean, rstd, B, nw. split; assumption.
Defined.

(** ** Scaling the input *)

Lemma Rsum_map_scale {A : Type} (f : A -> R) (c : R) (l : list A) :
  Rsum (map (fun a => c * f a) l) = c * Rsum (map f l).
Proof.
  unfold Rsum. induction l as [|a l IH]; cbn [map fold_right].
  - ring.
  - rewrite IH. ring.
Qed.

Lemma Rsum_squares_nonneg {A : Type} (f : A -> R) (l : list A) :
  0 <= Rsum (map (fun a => f a * f a) l).
Proof.
  unfold Rsum. induction l as [|a l IH]; cbn [map fold_right].
  - lra.
  - pose proof (Rle_0_sqr (f a)) as Hsq. unfold Rsqr in Hsq. lra.
Qed.

Lemma row_var_nonneg (undef : R) (X : list R) (N r : nat) :
  (0 < N)%nat -> 0 <= row_var undef X N N r.
Proof.
  intros HN. unfold row_var.
  apply Rmult_le_pos.
  - apply (Rsum_squares_nonneg (row_x undef X N r)).
  - left. apply Rinv_0_lt_compat. apply lt_0_INR. exact HN.
Qed.

Lemma row_x_scaled (undef c : R) (X : list R) (N r i : nat) :
  (r * N + i < length X)%nat ->
  row_x undef (map (Rmult c) X) N r i = c * row_x undef X N r i.
Proof.
  intros Hlt. unfold row_x.
  rewrite (nth_indep (map (Rmult c) X) undef (c * undef))
    by now rewrite length_map.
  apply (map_nth (Rmult c)).
Qed.

Lemma row_var_scaled (undef c : R) (X : list R) (M N r : nat) :
  length X = (M * N)%nat -> (r < M)%nat ->
  row_var undef (map (Rmult c) X) N N r = c * c * row_var undef X N N r.
Proof.
  intros Hlen Hr. unfold row_var.
  rewrite (Rsum_map_ext _ (fun i => c * c * (row_x undef X N r i
                                             * row_x undef X N r i))).
  - rewrite Rsum_map_scale. unfold Rdiv. ring.
  - intros i Hi. apply in_seq in Hi.
    rewrite row_x_scaled by nia. ring.
Qed.

Lemma rstd_scaled (c v eps : R) :
  0 < c -> 0 <= v -> 0 < eps ->
  1 / sqrt (c * c * v + c * c * eps) = 1 / sqrt (v + eps) / c.
Proof.
  intros Hc Hv He.
  replace (c * c * v + c * c * eps) with (c * c * (v + eps)) by ring.
  rewrite sqrt_mult by nra.
  rewrite sqrt_square by lra.
  assert (Hs : 0 < sqrt (v + eps)) by (apply sqrt_lt_R0; lra).
  field. split; lra.
Qed.

(** X15: RMS normalization does not see the scale of its input.  For
    [c > 0] and [eps > 0], running [rmsnorm_forward] on [c * x] with
    [c * c * eps] returns the same [y] as on [x] with [eps], entry by
    entry, and every [rstd] divided by [c]. *)
Theorem rmsnorm_forward_scale_invariant
  (undef : R) (uninit : buffer -> nat -> R)
  (dt : dtype) (x : tensor R) (weight : list R) (eps c : R)
  (lead : list nat) (N : nat) :
  wf x -> shape x = (lead ++ [N])%list -> (0 < N)%nat ->
  (Z.of_nat N <= 65536 / element_size dt)%Z ->
  0 < c -> 0 < eps ->
  exists y mean rstd y' mean' rstd' BLOCK_SIZE num_warps,
    rmsnorm_forward undef uninit dt x weight eps
    = Ok (y, mean, rstd, BLOCK_SIZE, num_warps) /\
    rmsnorm_forward undef uninit dt
      (Tensor (shape x) (map (Rmult c) (data x))) weight (c * c * eps)
    = Ok (y', mean', rstd', BLOCK_SIZE, num_warps) /\
    forall r, (r < numel lead)%nat ->
      nth r rstd' undef = nth r rstd undef / c /\
      forall i, (i < N)%nat ->
        nth (r * N + i) (data y') undef = nth (r * N + i) (data y) undef.
Proof.
  intros Hwf Hs HN Hmax Hc He.
  destruct (rmsnorm_forward_run undef uninit dt x weight eps lead N
              Hs HN Hmax) as (y & rstd & Hrun & _ & _ & _ & Hrows).
  destruct (rmsnorm_forward_run undef uninit dt
              (Tensor (shape x) (map (Rmult c) (data x))) weight
              (c * c * eps) lead N Hs HN Hmax)
    as (y' & rstd' & Hrun' & _ & _ & _ & Hrows').
  cbn [shape data] in Hrun', Hrows'.
  do 8 eexists. split; [exact Hrun|]. split; [exact Hrun'|].
  cbn [data].
  assert (Hlen : length (data x) = (numel lead * N)%nat).
  { unfold wf in Hwf. rewrite Hwf, Hs, numel_app.
    cbn [numel fold_right]. lia. }
  intros r Hr.
  destruct (Hrows r Hr) as (Hrs & Hy).
  destruct (Hrows' r Hr) as (Hrs' & Hy').
  assert (Erstd : row_rstd undef (map (Rmult c) (data x)) N N (c * c * eps) r
                  = row_rstd undef (data x) N N eps r / c).
  { unfold row_rstd.
    rewrite (row_var_scaled undef c (data x) (numel lead) N r Hlen Hr).
    apply rstd_scaled; [assumption | now apply row_var_nonneg | assumption]. }
  split.
  - now rewrite Hrs', Hrs, Erstd.
  - intros i Hi. rewrite (Hy' i Hi), (Hy i Hi), Erstd.
    rewrite row_x_scaled by (rewrite Hlen; nia).
    field. lra.
Qed.

Lemma rmsnorm_forward_scale_invariant_witness :
  exists y mean rstd y' mean' rstd' BLOCK_SIZE num_warps,
    rmsnorm_forward 0 (fun _ _ => 0) float32
      (Tensor [1%nat; 2%nat] [3; 4]) [1; 1] (1 / 100)
    = Ok (y, mean, rstd, BLOCK_SIZE, num_warps) /\
    rmsnorm_forward 0 (fun _ _ => 0) float32
      (Tensor [1%nat; 2%nat] (map (Rmult 2) [3; 4])) [1; 1]
      (2 * 2 * (1 / 100))
    = Ok (y', mean', rstd', BLOCK_SIZE, num_warps) /\
    nth 0 (data y') 0 = nth 0 (data y) 0.
Proof.
  destruct (rmsnorm_forward_scale_invariant 0 (fun _ _ => 0) float32
              (Tensor [1%nat; 2%nat] [3; 4]) [1; 1] (1 / 100) 2
              [1%nat] 2%nat)
    as (y & mean & rstd & y' & mean' & rstd' & B & nw & Hrun & Hrun' & Hrows).
  - reflexivity.
  - reflexivity.
  - lia.
  - vm_compute. discriminate.
  - lra.
  - lra.
  - exists y, mean, rstd, y', mean', rstd', B, nw.
    split; [exact Hrun|]. split; [exact Hrun'|].
    destruct (Hrows 0%nat ltac:(cbn; lia)) as (_ & Hy).
    exact (Hy 0%nat ltac:(lia)).
Defined.

(** X16: over exact real arithmetic (no rounding, no overflow of
    [x * x], which float32 has), the normalized row has a mean square
    below one.  With [eps > 0], for every row [r] the returned
    [rstd[r]] is positive and the entries [x[r, i] * rstd[r]] satisfy
    [sum_i (x[r, i] * rstd[r])^2 = N * (1 - eps * rstd[r]^2)], which
    is less than [N]. *)
Theorem rmsnorm_forward_unit_mean_square
  (undef : R) (uninit : buffer -> nat -> R)
  (dt : dtype) (x : tensor R) (weight : list R) (eps : R)
  (lead : list nat) (N : nat) :
  shape x = (lead ++ [N])%list -> (0 < N)%nat ->
  (Z.of_nat N <= 65536 / element_size dt)%Z ->
  0 < eps ->
  exists y mean rstd BLOCK_SIZE num_warps,
    rmsnorm_forward undef uninit dt x weight eps
    = Ok (y, mean, rstd, BLOCK_SIZE, num_warps) /\
    forall r, (r < numel lead)%nat ->
      let rs := nth r rstd undef in
      let xhat i := nth (r * N + i) (data x) undef * rs in
      0 < rs /\
      Rsum (map (fun i => xhat i * xhat i) (seq 0 N))
      = INR N * (1 - eps * (rs * rs)) /\
      Rsum (map (fun i => xhat i * xhat i) (seq 0 N)) < INR N.
Proof.
  intros Hs HN Hmax He.
  destruct (rmsnorm_forward_run undef uninit dt x weight eps lead N
              Hs HN Hmax) as (y & rstd & Hrun & _ & _ & _ & Hrows).
  do 5 eexists. split; [exact Hrun|].
  intros r Hr. cbv zeta.
  destruct (Hrows r Hr) as (Hrs & _). rewrite Hrs.
  pose proof (row_var_nonneg undef (data x) N r HN) as Hv.
  assert (HN' : 0 < INR N) by (apply lt_0_INR; exact HN).
  unfold row_rstd.
  assert (Hsquares : Rsum (map (fun i => row_x undef (data x) N r i
                                         * row_x undef (data x) N r i)
                               (seq 0 N))
                     = INR N * row_var undef (data x) N N r).
  { unfold row_var. field. lra. }
  set (v := row_var undef (data x) N N r) in *.
  assert (Hs0 : 0 < sqrt (v + eps)) by (apply sqrt_lt_R0; lra).
  assert (Hsq : sqrt (v + eps) * sqrt (v + eps) = v + eps)
    by (apply sqrt_sqrt; lra).
  set (sq := sqrt (v + eps)) in *.
  assert (Hrs2 : 1 / sq * (1 / sq) = 1 / (v + eps)).
  { rewrite <- Hsq. field. lra. }
  assert (Hsum : Rsum (map (fun i => nth (r * N + i) (data x) undef * (1 / sq)
                                     * (nth (r * N + i) (data x) undef
                                        * (1 / sq))) (seq 0 N))
                 = INR N * v * (1 / (v + eps))).
  { rewrite (Rsum_map_ext _
               (fun i => 1 / (v + eps)
                         * (row_x undef (data x) N r i
                            * row_x undef (data x) N r i))).
    - rewrite Rsum_map_scale, Hsquares. field. lra.
    - intros i _. unfold row_x. rewrite <- Hrs2. ring. }
  split; [|split].
  - apply Rdiv_lt_0_compat; lra.
  - rewrite Hsum, Hrs2. field. lra.
  - rewrite Hsum.
    assert (Hfrac : v * (1 / (v + eps)) < 1).
    { apply (Rmult_lt_reg_r (v + eps)); [lra|].
      replace (v * (1 / (v + eps)) * (v + eps)) with v by (field; lra).
      lra. }
    nra.
Qed.

Lemma rmsnorm_forward_unit_mean_square_witness :
  exists y mean rstd BLOCK_SIZE num_warps,
    rmsnorm_forward 0 (fun _ _ => 0) float32
      (Tensor [1%nat; 2%nat] [3; 4]) [1; 1] (1 / 100)
    = Ok (y, mean, rstd, BLOCK_SIZE, num_warps) /\
    0 < nth 0 rstd 0.
Proof.
  destruct (rmsnorm_forward_unit_mean_square 0 (fun _ _ => 0) float32
              (Tensor [1%nat; 2%nat] [3; 4]) [1; 1] (1 / 100)
              [1%nat] 2%nat)
    as (y & mean & rstd & B & nw & Hrun & Hrows).
  - reflexivity.
  - lia.
  - vm_compute. discriminate.
  - lra.
  - exists y, mean, rstd, B, nw. split; [exact Hrun|].
    exact (proj1 (Hrows 0%nat ltac:(cbn; lia))).
Defined.

(** ** [rmsnorm_backward]: the input gradient *)

(** X17: with [needs_inputs_grad] false [rmsnorm_backward] launches
    nothing and returns [(None, None)].  With it true, on [M] rows of
    [N >= 1] entries covered by the block, the launch finishes and the
    call returns [(dx, None)] where [dx] has the shape of [dy] and,
    for every row [r] with [xhat = x[r, :] * rstd[r]] and
    [wdy = w * dy[r, :]],
    [dx[r, i] = (wdy[i] - (xhat[i] * c1 + c2)) * rstd[r]],
    [c1 = sum(xhat * wdy) / N], [c2 = sum(wdy) / N]; [rstd] is read
    from the argument [v], the arguments [m] and [eps] are not used. *)
Theorem rmsnorm_backward_input_gradient
  (undef : R) (uninit : buffer -> nat -> R)
  (dy x : tensor R) (w m v : list R) (eps : R)
  (num_warps BLOCK_SIZE : nat) (lead : list nat) (N : nat) :
  shape x = (lead ++ [N])%list -> shape dy = shape x ->
  (0 < N)%nat -> length w = N -> (N <= BLOCK_SIZE)%nat ->
  rmsnorm_backward undef uninit dy x w m v false eps num_warps BLOCK_SIZE
  = Some (Ok (None, None)) /\
  exists dx,
    rmsnorm_backward undef uninit dy x w m v true eps num_warps BLOCK_SIZE
    = Some (Ok (Some dx, None)) /\
    shape dx = shape dy /\
    length (data dx) = numel (shape dy) /\
    forall r i, (r < numel lead)%nat -> (i < N)%nat ->
      let rstd := nth r v undef in
      let xhat j := nth (r * N + j) (data x) undef * rstd in
      let wdy j := nth j w undef * nth (r * N + j) (data dy) undef in
      let c1 := Rsum (map (fun j => xhat j * wdy j) (seq 0 N)) / INR N in
      let c2 := Rsum (map wdy (seq 0 N)) / INR N in
      nth (r * N + i) (data dx) undef
      = (wdy i - (xhat i * c1 + c2)) * rstd.
Proof.
  intros Hx Hdy HN Hw HB. split; [reflexivity|].
  destruct (rmsnorm_backward_spec undef uninit dy x w m v eps num_warps
              BLOCK_SIZE lead N Hx Hdy HN Hw HB)
    as (mem & _ & Hret & _ & _ & HlX & _ & _ & Hdx).
  exists (Tensor (shape dy) (DX mem)). split; [exact Hret|].
  cbn [shape data]. split; [reflexivity|]. split.
  - rewrite HlX. unfold empty. rewrite length_tabulate.
    rewrite Hdy, Hx, numel_app. cbn [numel fold_right]. lia.
  - intros r i Hr Hi. exact (Hdx r i Hr Hi).
Qed.

Lemma rmsnorm_backward_input_gradient_witness :
  exists dx,
    rmsnorm_backward 0 (fun _ _ => 0)
      (Tensor [2%nat; 2%nat] [1; 2; 3; 4])
      (Tensor [2%nat; 2%nat] [1; 1; 2; 2])
      [1; 1] [] [1; 1 / 2] true (1 / 100000) 1%nat 2%nat
    = Some (Ok (Some dx, None)) /\
    shape dx = [2%nat; 2%nat].
Proof.
  destruct (rmsnorm_backward_input_gradient 0 (fun _ _ => 0)
              (Tensor [2%nat; 2%nat] [1; 2; 3; 4])
              (Tensor [2%nat; 2%nat] [1; 1; 2; 2])
              [1; 1] [] [1; 1 / 2] (1 / 100000) 1%nat 2%nat [2%nat] 2%nat)
    as (_ & dx & Hret & Hs & _); try reflexivity; try lia.
  exists dx. split; assumption.
Defined.

(** X18: when the backward launch ends every lock is released, the
    first-writer flag is set exactly for the groups that received a
    row (the groups [g < min(GROUP_SIZE_M, M)]), and the accumulator
    rows of the other groups still hold what [torch.empty] allocated:
    with fewer rows than groups only the first [M] rows of the
    partial-sum buffer are defined. *)
Theorem rmsnorm_backward_locks_released
  (undef : R) (uninit : buffer -> nat -> R)
  (dy x : tensor R) (w m v : list R) (eps : R)
  (num_warps BLOCK_SIZE : nat) (lead : list nat) (N : nat) :
  shape x = (lead ++ [N])%list -> shape dy = shape x ->
  (0 < N)%nat -> length w = N -> (N <= BLOCK_SIZE)%nat ->
  let M := numel lead in
  let G := group_size_m N in
  exists mem,
    rmsnorm_backward_buffers undef uninit dy x w m v eps num_warps BLOCK_SIZE
    = Some (Ok mem) /\
    length (Lock mem) = (2 * G)%nat /\
    (forall g, (g < G)%nat ->
       nth g (Lock mem) 0%Z = 0%Z /\
       nth (g + G) (Lock mem) 0%Z = if (g <? M)%nat then 1%Z else 0%Z) /\
    (forall g j, (M <= g < G)%nat -> (j < N)%nat ->
       nth (g * N + j) (DW mem) undef = uninit BufDW (g * N + j)%nat).
Proof.
  intros Hx Hdy HN Hw HB M G.
  destruct (rmsnorm_backward_spec undef uninit dy x w m v eps num_warps
              BLOCK_SIZE lead N Hx Hdy HN Hw HB)
    as (mem & Hbuf & _ & HlL & _ & _ & Hlock & Hdw & _).
  fold M G in Hbuf, HlL, Hlock, Hdw.
  exists mem. split; [exact Hbuf|]. split; [exact HlL|].
  split; [exact Hlock|].
  intros g j Hg Hj. rewrite (Hdw g j) by lia.
  rewrite (proj2 (Nat.ltb_ge g M)) by lia.
  unfold empty. apply nth_tabulate. nia.
Qed.

Lemma rmsnorm_backward_locks_released_witness :
  exists mem,
    rmsnorm_backward_buffers 0 (fun _ _ => 0)
      (Tensor [2%nat; 2%nat] [1; 2; 3; 4])
      (Tensor [2%nat; 2%nat] [1; 1; 2; 2])
      [1; 1] [] [1; 1 / 2] (1 / 100000) 1%nat 2%nat
    = Some (Ok mem) /\
    nth 0 (Lock mem) 0%Z = 0%Z.
Proof.
  destruct (rmsnorm_backward_locks_released 0 (fun _ _ => 0)
              (Tensor [2%nat; 2%nat] [1; 2; 3; 4])
              (Tensor [2%nat; 2%nat] [1; 1; 2; 2])
              [1; 1] [] [1; 1 / 2] (1 / 100000) 1%nat 2%nat [2%nat] 2%nat)
    as (mem & Hbuf & _ & Hlock & _); try reflexivity; try lia.
  exists mem. split; [exact Hbuf|].
  exact (proj1 (Hlock 0%nat (group_size_m_pos 2))).
Defined.

(** X19: the two host functions fit together.  Whatever
    [rmsnorm_forward] returns on rows of [1 <= N <= 65536 //
    element_size] entries, its [rstd], [BLOCK_SIZE] and [num_warps]
    are accepted by [rmsnorm_backward]: the block covers the row, the
    launch finishes, and the gradient returned is the one of X17
    computed with [rstd[r] = 1 / sqrt(mean(x[r, :]^2) + eps)]. *)
Theorem rmsnorm_forward_then_backward
  (undef : R) (uninit : buffer -> nat -> R)
  (dt : dtype) (dy x : tensor R) (w : list R) (eps : R)
  (lead : list nat) (N : nat) :
  shape x = (lead ++ [N])%list -> shape dy = shape x ->
  (0 < N)%nat -> length w = N ->
  (Z.of_nat N <= 65536 / element_size dt)%Z ->
  exists y mean rstd BLOCK_SIZE num_warps dx,
    rmsnorm_forward undef uninit dt x w eps
    = Ok (y, mean, rstd, BLOCK_SIZE, num_warps) /\
    rmsnorm_backward undef uninit dy x w mean rstd true eps
      (Z.to_nat num_warps) (Z.to_nat BLOCK_SIZE)
    = Some (Ok (Some dx, None)) /\
    shape dx = shape x /\
    forall r i, (r < numel lead)%nat -> (i < N)%nat ->
      let xr j := nth (r * N + j) (data x) undef in
      let rs :=
        1 / sqrt (Rsum (map (fun j => xr j * xr j) (seq 0 N)) / INR N + eps) in
      let xhat j := xr j * rs in
      let wdy j := nth j w undef * nth (r * N + j) (data dy) undef in
      let c1 := Rsum (map (fun j => xhat j * wdy j) (seq 0 N)) / INR N in
      let c2 := Rsum (map wdy (seq 0 N)) / INR N in
      nth (r * N + i) (data dx) undef
      = (wdy i - (xhat i * c1 + c2)) * rs.
Proof.
  intros Hx Hdy HN Hw Hmax.
  destruct (rmsnorm_forward_run undef uninit dt x w eps lead N
              Hx HN Hmax) as (y & rstd & Hrun & HB & _ & _ & Hrows).
  set (B := Z.min (MAX_FUSED_SIZE dt) (next_power_of_2 (Z.of_nat N))) in *.
  destruct (rmsnorm_backward_spec undef uninit dy x w
              (empty uninit BufMean (numel lead)) rstd eps
              (Z.to_nat (Z.min (Z.max (B / 256) 1) 8)) (Z.to_nat B)
              lead N Hx Hdy HN Hw ltac:(lia))
    as (mem & _ & Hret & _ & _ & _ & _ & _ & Hdx).
  do 6 eexists. split; [exact Hrun|]. split; [exact Hret|].
  cbn [shape data]. split; [exact Hdy|].
  intros r i Hr Hi. cbv zeta.
  rewrite (Hdx r i Hr Hi).
  destruct (Hrows r Hr) as (Hrs & _).
  unfold row_dx, row_c1, row_c2, row_xhat, row_wdy.
  rewrite Hrs. reflexivity.
Qed.

Lemma rmsnorm_forward_then_backward_witness :
  exists y mean rstd BLOCK_SIZE num_warps dx,
    rmsnorm_forward 0 (fun _ _ => 0) float32
      (Tensor [1%nat; 2%nat] [3; 4]) [1; 1] (1 / 100)
    = Ok (y, mean, rstd, BLOCK_SIZE, num_warps) /\
    rmsnorm_backward 0 (fun _ _ => 0) (Tensor [1%nat; 2%nat] [1; 0])
      (Tensor [1%nat; 2%nat] [3; 4]) [1; 1] mean rstd true (1 / 100)
      (Z.to_nat num_warps) (Z.to_nat BLOCK_SIZE)
    = Some (Ok (Some dx, None)) /\
    shape dx = [1%nat; 2%nat].
Proof.
  destruct (rmsnorm_forward_then_backward 0 (fun _ _ => 0) float32
              (Tensor [1%nat; 2%nat] [1; 0]) (Tensor [1%nat; 2%nat] [3; 4])
              [1; 1] (1 / 100) [1%nat] 2%nat)
    as (y & mean & rstd & B & nw & dx & Hrun & Hret & Hs & _).
  - reflexivity.
  - reflexivity.
  - lia.
  - reflexivity.
  - vm_compute. discriminate.
  - exists y, mean, rstd, B, nw, dx. repeat split; assumption.
Defined.

(** ** The backward launch in any order *)

Lemma Rsum_permutation (l l' : list R) :
  Permutation.Permutation l l' -> Rsum l = Rsum l'.
Proof.
  induction 1; cbn [Rsum fold_right] in *; try lra.
  fold (Rsum l) in *. fold (Rsum l') in *. lra.
Qed.

Lemma existsb_permutation {A : Type} (f : A -> bool) (l l' : list A) :
  Permutation.Permutation l l' -> existsb f l = existsb f l'.
Proof.
  induction 1; cbn [existsb]; try congruence.
  - destruct (f y), (f x); reflexivity.
Qed.

Lemma existsb_group (G M g : nat) :
  (0 < G)%nat -> (g < G)%nat ->
  existsb (fun r => (r mod G =? g)%nat) (seq 0 M) = (g <? M)%nat.
Proof.
  intros HG Hg. destruct (Nat.ltb_spec g M) as [Hlt | Hge].
  - apply existsb_exists. exists g. split.
    + apply in_seq. lia.
    + rewrite Nat.mod_small by lia. apply Nat.eqb_refl.
  - destruct (existsb _ _) eqn:E; [|reflexivity].
    apply existsb_exists in E as (r & Hr & Er).
    apply in_seq in Hr. apply Nat.eqb_eq in Er.
    pose proof (Nat.Div0.mod_le r G). lia.
Qed.

Section Order.

Import RMSNormOrder.

Variable undef : R.
Variables (DY X W Rstd : list R) (N : nat) (eps : R).
Variables (GROUP_SIZE_M BLOCK_SIZE_N M : nat) (DX0 DW0 : list R).

Hypothesis groups_pos : (0 < GROUP_SIZE_M)%nat.
Hypothesis block_covers : (N <= BLOCK_SIZE_N)%nat.
Hypothesis DW_fits : (GROUP_SIZE_M * N <= length DW0)%nat.
Hypothesis DX_fits : (M * N <= length DX0)%nat.

(** The group [g] has had a row among [done], and the sum of the
    contributions of its rows. *)
Let had (done : list nat) (g : nat) : bool :=
  existsb (fun r => (r mod GROUP_SIZE_M =? g)%nat) done.
Let acc (done : list nat) (g j : nat) : R :=
  Rsum (map (fun r => if (r mod GROUP_SIZE_M =? g)%nat
                      then row_dw undef DY X Rstd N r j else 0) done).

(** The buffers after the programs of the rows [done], in that
    order. *)
Let inv (done : list nat) (mem : bwd_mem) : Prop :=
  length (Lock mem) = (2 * GROUP_SIZE_M)%nat /\
  length (DW mem) = length DW0 /\
  length (DX mem) = length DX0 /\
  (forall g, (g < GROUP_SIZE_M)%nat ->
     nth g (Lock mem) 0%Z = 0%Z /\
     nth (g + GROUP_SIZE_M) (Lock mem) 0%Z
     = if had done g then 1%Z else 0%Z) /\
  (forall g j, (g < GROUP_SIZE_M)%nat -> (j < N)%nat ->
     nth (g * N + j) (DW mem) undef
     = if had done g then acc done g j else nth (g * N + j) DW0 undef) /\
  (forall r i, In r done -> (i < N)%nat ->
     nth (r * N + i) (DX mem) undef = row_dx undef DY X W Rstd N N r i).

Lemma had_snoc (done : list nat) (k g : nat) :
  had (done ++ [k]) g = had done g || (k mod GROUP_SIZE_M =? g)%nat.
Proof.
  unfold had. rewrite existsb_app. cbn [existsb].
  now rewrite orb_false_r.
Qed.

Lemma acc_snoc (done : list nat) (k g j : nat) :
  acc (done ++ [k]) g j
  = acc done g j + (if (k mod GROUP_SIZE_M =? g)%nat
                    then row_dw undef DY X Rstd N k j else 0).
Proof.
  unfold acc. rewrite map_app, Rsum_app.
  cbn [map Rsum fold_right]. lra.
Qed.

Lemma acc_not_had (done : list nat) (g j : nat) :
  had done g = false -> acc done g j = 0.
Proof.
  unfold had, acc. induction done as [|r done IH]; [reflexivity|].
  cbn [existsb map Rsum fold_right]. intros Hh.
  apply orb_false_elim in Hh as [Hr Hd].
  rewrite Hr. fold (Rsum (map (fun r0 =>
                                 if (r0 mod GROUP_SIZE_M =? g)%nat
                                 then row_dw undef DY X Rstd N r0 j else 0)
                              done)).
  rewrite (IH Hd). lra.
Qed.

Lemma order_init :
  inv [] (BwdMem DX0 DW0 (repeat 0%Z (2 * GROUP_SIZE_M))).
Proof.
  unfold inv. cbn [DX DW Lock had existsb].
  rewrite repeat_length.
  repeat split; try reflexivity.
  - apply nth_repeat.
  - apply nth_repeat.
  - intros r i [].
Qed.

(** One more program, of any row below [M], keeps the invariant. *)
Lemma order_step (done : list nat) (k : nat) (mem : bwd_mem) :
  inv done mem -> (k < M)%nat ->
  exists mem',
    _rms_norm_bwd_dx_fused undef DY X W Rstd N N eps
      GROUP_SIZE_M BLOCK_SIZE_N k mem = Some mem' /\
    inv (done ++ [k]) mem'.
Proof.
  intros (HlL & HlW & HlX & Hlock & Hdw & Hdx) Hk.
  rewrite bwd_program_lanes by exact block_covers. cbv zeta.
  set (g := (k mod GROUP_SIZE_M)%nat).
  assert (Hg : (g < GROUP_SIZE_M)%nat)
    by (apply Nat.mod_upper_bound; lia).
  destruct (Hlock g Hg) as [Hfree Hcount].
  rewrite Hfree. cbn [Z.eqb].
  rewrite nth_upd_other by lia. rewrite Hcount.
  eexists. split; [reflexivity|].
  unfold inv. cbn [DX DW Lock].
  split; [|split; [|split; [|split; [|split]]]].
  - rewrite length_upd. destruct (had done g); cbn [Z.eqb];
      now rewrite ?length_upd.
  - now rewrite length_store_lanes.
  - now rewrite length_store_lanes.
  - intros g' Hg'. rewrite had_snoc. fold g.
    destruct (Hlock g' Hg') as [Hfree' Hcount'].
    destruct (Nat.eq_dec g' g) as [-> | Hne].
    + rewrite Nat.eqb_refl, orb_true_r. split.
      * apply nth_upd_same.
        destruct (had done g); cbn [Z.eqb]; rewrite ?length_upd; lia.
      * rewrite nth_upd_other by lia.
        destruct (had done g) eqn:E; cbn [Z.eqb].
        -- rewrite nth_upd_other by lia. exact Hcount.
        -- apply nth_upd_same. rewrite length_upd. lia.
    + rewrite (proj2 (Nat.eqb_neq g g')) by congruence.
      rewrite orb_false_r. split.
      * rewrite nth_upd_other by lia.
        destruct (had done g); cbn [Z.eqb];
          rewrite ?nth_upd_other by lia; exact Hfree'.
      * rewrite nth_upd_other by lia.
        destruct (had done g); cbn [Z.eqb];
          rewrite ?nth_upd_other by lia; exact Hcount'.
  - intros g' j Hg' Hj. rewrite had_snoc, acc_snoc. fold g.
    destruct (Nat.eq_dec g' g) as [-> | Hne].
    + rewrite Nat.eqb_refl, orb_true_r.
      unfold arange.
      rewrite (nth_store_lanes_hit (fun j => j <? N)).
      * destruct (had done g) eqn:E; cbn [Z.eqb].
        -- rewrite (Hdw g j Hg Hj), E. lra.
        -- rewrite (acc_not_had done g j E). lra.
      * apply seq_NoDup.
      * apply in_seq. lia.
      * now apply Nat.ltb_lt.
      * rewrite HlW. nia.
    + rewrite (proj2 (Nat.eqb_neq g g')) by congruence.
      rewrite orb_false_r.
      rewrite (nth_store_lanes_miss (fun j => j <? N)).
      * rewrite (Hdw g' j Hg' Hj).
        destruct (had done g'); [lra | reflexivity].
      * intros j' _ Hj'. apply Nat.ltb_lt in Hj'. nia.
  - intros r i Hr Hi. apply in_app_or in Hr.
    destruct (Nat.eq_dec r k) as [-> | Hne].
    + unfold arange.
      rewrite (nth_store_lanes_hit (fun j => j <? N)); try reflexivity.
      * apply seq_NoDup.
      * apply in_seq. lia.
      * now apply Nat.ltb_lt.
      * rewrite HlX. nia.
    + destruct Hr as [Hr | [Hr | []]]; [|congruence].
      rewrite (nth_store_lanes_miss (fun j => j <? N)).
      * now apply Hdx.
      * intros j' _ Hj'. apply Nat.ltb_lt in Hj'. nia.
Qed.

Lemma launch_bwd_in_inv (done order : list nat) (mem : bwd_mem) :
  inv done mem -> (forall r, In r order -> (r < M)%nat) ->
  exists mem',
    launch_bwd_in undef DY X W Rstd N N eps GROUP_SIZE_M BLOCK_SIZE_N
      order mem = Some mem' /\
    inv (done ++ order) mem'.
Proof.
  unfold launch_bwd_in. revert done mem.
  induction order as [|k order IH]; intros done mem Hinv Hrows.
  - exists mem. rewrite app_nil_r. split; [reflexivity | exact Hinv].
  - cbn [fold_left].
    destruct (order_step done k mem Hinv (Hrows k (or_introl eq_refl)))
      as (mem1 & Hrun & Hinv1).
    rewrite Hrun.
    destruct (IH (done ++ [k]) mem1 Hinv1
                ltac:(intros r Hr; apply Hrows; now right))
      as (mem' & Hrun' & Hinv').
    exists mem'. split; [exact Hrun'|].
    now rewrite <- app_assoc in Hinv'.
Qed.

End Order.

Lemma list_eq_by_blocks {V : Type} (l l' : list V) (d : V) (a n : nat) :
  length l = (a * n)%nat -> length l' = (a * n)%nat ->
  (forall g j, (g < a)%nat -> (j < n)%nat ->
     nth (g * n + j) l d = nth (g * n + j) l' d) ->
  l = l'.
Proof.
  intros Hl Hl' Hnth. apply nth_ext with (d := d) (d' := d); [lia|].
  intros p Hp. rewrite Hl in Hp.
  assert (Hn : n <> 0%nat) by (intros ->; lia).
  rewrite (block_offset p n).
  apply Hnth.
  - apply Nat.Div0.div_lt_upper_bound. lia.
  - now apply Nat.mod_upper_bound.
Qed.

(** X26: the backward launch does not depend on the order of its
    programs.  Over exact arithmetic and with the programs run one
    after the other (each takes its lock, accumulates, releases), any
    order of the [M] program ids ends, like the order [0 .. M - 1],
    with every lock released and leaves the same memory: the same
    [dx], the same per-group partial sums, the same lock words. *)
Theorem backward_launch_any_order
  (undef : R) (DY X W Rstd : list R) (M N : nat) (eps : R)
  (GROUP_SIZE_M BLOCK_SIZE_N : nat) (DX0 DW0 : list R) (order : list nat) :
  Permutation.Permutation order (seq 0 M) ->
  (0 < GROUP_SIZE_M)%nat -> (0 < N)%nat -> (N <= BLOCK_SIZE_N)%nat ->
  length DX0 = (M * N)%nat -> length DW0 = (GROUP_SIZE_M * N)%nat ->
  let start := BwdMem DX0 DW0 (repeat 0%Z (2 * GROUP_SIZE_M)) in
  exists mem,
    launch_bwd undef DY X W Rstd M N N eps GROUP_SIZE_M BLOCK_SIZE_N start
    = Some mem /\
    RMSNormOrder.launch_bwd_in undef DY X W Rstd N N eps
      GROUP_SIZE_M BLOCK_SIZE_N order start
    = Some mem /\
    (forall g, (g < GROUP_SIZE_M)%nat -> nth g (Lock mem) 0%Z = 0%Z).
Proof.
  intros Hperm HG HN HB HlX0 HlW0 start.
  destruct (launch_bwd_inv undef DY X W Rstd N eps GROUP_SIZE_M
              BLOCK_SIZE_N DX0 DW0 HG HB ltac:(lia) M ltac:(lia))
    as (mem1 & Hrun1 & HL1 & HW1 & HX1 & Hlock1 & Hdw1 & Hdx1).
  destruct (launch_bwd_in_inv undef DY X W Rstd N eps GROUP_SIZE_M
              BLOCK_SIZE_N M DX0 DW0 HG HB ltac:(lia) ltac:(lia)
              [] order start
              (order_init undef DY X W Rstd N GROUP_SIZE_M DX0 DW0))
    as (mem2 & Hrun2 & HL2 & HW2 & HX2 & Hlock2 & Hdw2 & Hdx2).
  { intros r Hr.
    apply (Permutation.Permutation_in r Hperm) in Hr.
    apply in_seq in Hr. lia. }
  cbn [app] in Hlock2, Hdw2, Hdx2.
  assert (Hhad : forall g, (g < GROUP_SIZE_M)%nat ->
            existsb (fun r => (r mod GROUP_SIZE_M =? g)%nat) order
            = (g <? M)%nat).
  { intros g Hg.
    rewrite (existsb_permutation _ order (seq 0 M) Hperm).
    now apply existsb_group. }
  exists mem1. split; [exact Hrun1|]. split.
  - rewrite Hrun2. f_equal.
    destruct mem1 as [dx1 dw1 lk1], mem2 as [dx2 dw2 lk2].
    cbn [DX DW Lock] in *. f_equal.
    + symmetry.
      apply (list_eq_by_blocks dx1 dx2 undef M N); [lia | lia |].
      intros r i Hr Hi. rewrite (Hdx1 r i Hr Hi).
      symmetry. apply Hdx2; [|exact Hi].
      apply (Permutation.Permutation_in r (Permutation.Permutation_sym Hperm)).
      apply in_seq. lia.
    + symmetry.
      apply (list_eq_by_blocks dw1 dw2 undef GROUP_SIZE_M N); [lia | lia |].
      intros g j Hg Hj.
      rewrite (Hdw1 g j Hg Hj), (Hdw2 g j Hg Hj), (Hhad g Hg).
      destruct (g <? M)%nat; [|reflexivity].
      unfold group_dw. symmetry. apply Rsum_permutation.
      now apply Permutation.Permutation_map.
    + symmetry.
      apply nth_ext with (d := 0%Z) (d' := 0%Z); [lia|].
      intros p Hp. rewrite HL1 in Hp.
      destruct (Nat.lt_ge_cases p GROUP_SIZE_M) as [Hlt | Hge].
      * rewrite (proj1 (Hlock1 p Hlt)), (proj1 (Hlock2 p Hlt)).
        reflexivity.
      * replace p with (p - GROUP_SIZE_M + GROUP_SIZE_M)%nat by lia.
        rewrite (proj2 (Hlock1 (p - GROUP_SIZE_M)%nat ltac:(lia))).
        rewrite (proj2 (Hlock2 (p - GROUP_SIZE_M)%nat ltac:(lia))).
        now rewrite Hhad by lia.
  - intros g Hg. exact (proj1 (Hlock1 g Hg)).
Qed.

(** Two rows, the second one first. *)
Lemma backward_launch_any_order_witness :
  let start := BwdMem [0; 0] [0; 0] (repeat 0%Z 4) in
  exists mem,
    launch_bwd 0 [1; 2] [3; 4] [1] [1; 1] 2 1 1 (1 / 100) 2 1 start
    = Some mem /\
    RMSNormOrder.launch_bwd_in 0 [1; 2] [3; 4] [1] [1; 1] 1 1 (1 / 100)
      2 1 [1%nat; 0%nat] start
    = Some mem.
Proof.
  intro start.
  destruct (backward_launch_any_order 0 [1; 2] [3; 4] [1] [1; 1]
              2 1 (1 / 100) 2 1 [0; 0] [0; 0] [1%nat; 0%nat])
    as (mem & H1 & H2 & _).
  - apply Permutation.perm_swap.
  - lia.
  - lia.
  - lia.
  - reflexivity.
  - reflexivity.
  - exists mem. split; assumption.
Defined.

(** ** The input gradient is linear in the output gradient *)

Lemma nth_combine_lin (a b d : R) (l1 l2 : list R) (p : nat) :
  (p < length l1)%nat -> (p < length l2)%nat ->
  nth p (map (fun uv : R * R => a * fst uv + b * snd uv) (combine l1 l2)) d
  = a * nth p l1 d + b * nth p l2 d.
Proof.
  revert l2 p. induction l1 as [|u l1 IH]; intros [|v l2] [|p] H1 H2;
    cbn [length] in *; try lia; cbn [combine map nth fst snd].
  - reflexivity.
  - apply IH; lia.
Qed.

Lemma Rsum_map_lin {A : Type} (f g : A -> R) (a b : R) (l : list A) :
  Rsum (map (fun t => a * f t + b * g t) l)
  = a * Rsum (map f l) + b * Rsum (map g l).
Proof.
  rewrite (Rsum_map_add (fun t => a * f t) (fun t => b * g t)).
  now rewrite !Rsum_map_scale.
Qed.

(** X28: the input gradient is linear in the output gradient.  For
    two output gradients [dy1], [dy2] of the shape of [x] and reals
    [a], [b], the [dx] that [rmsnorm_backward] returns for
    [a * dy1 + b * dy2] is, entry by entry, [a * dx1 + b * dx2] where
    [dx1] and [dx2] are returned for [dy1] and [dy2]. *)
Theorem rmsnorm_backward_linear
  (undef : R) (uninit : buffer -> nat -> R)
  (dy1 dy2 x : tensor R) (w m v : list R) (eps a b : R)
  (num_warps BLOCK_SIZE : nat) (lead : list nat) (N : nat) :
  shape x = (lead ++ [N])%list ->
  shape dy1 = shape x -> shape dy2 = shape x -> wf dy1 -> wf dy2 ->
  (0 < N)%nat -> length w = N -> (N <= BLOCK_SIZE)%nat ->
  let dy :=
    Tensor (shape x)
      (map (fun uv : R * R => a * fst uv + b * snd uv)
           (combine (data dy1) (data dy2))) in
  exists dx1 dx2 dx,
    rmsnorm_backward undef uninit dy1 x w m v true eps num_warps BLOCK_SIZE
    = Some (Ok (Some dx1, None)) /\
    rmsnorm_backward undef uninit dy2 x w m v true eps num_warps BLOCK_SIZE
    = Some (Ok (Some dx2, None)) /\
    rmsnorm_backward undef uninit dy x w m v true eps num_warps BLOCK_SIZE
    = Some (Ok (Some dx, None)) /\
    forall r i, (r < numel lead)%nat -> (i < N)%nat ->
      nth (r * N + i) (data dx) undef
      = a * nth (r * N + i) (data dx1) undef
        + b * nth (r * N + i) (data dx2) undef.
Proof.
  intros Hx Hd1 Hd2 Hwf1 Hwf2 HN Hw HB dy.
  destruct (rmsnorm_backward_spec undef uninit dy1 x w m v eps num_warps
              BLOCK_SIZE lead N Hx Hd1 HN Hw HB)
    as (mem1 & _ & Hret1 & _ & _ & _ & _ & _ & Hdx1).
  destruct (rmsnorm_backward_spec undef uninit dy2 x w m v eps num_warps
              BLOCK_SIZE lead N Hx Hd2 HN Hw HB)
    as (mem2 & _ & Hret2 & _ & _ & _ & _ & _ & Hdx2).
  destruct (rmsnorm_backward_spec undef uninit dy x w m v eps num_warps
              BLOCK_SIZE lead N Hx eq_refl HN Hw HB)
    as (mem & _ & Hret & _ & _ & _ & _ & _ & Hdx).
  do 3 eexists. split; [exact Hret1|]. split; [exact Hret2|].
  split; [exact Hret|]. cbn [data].
  assert (Hlen : forall d : tensor R, shape d = shape x -> wf d ->
            length (data d) = (numel lead * N)%nat).
  { intros d Hs Hwf. unfold wf in Hwf.
    rewrite Hwf, Hs, Hx, numel_app. cbn [numel fold_right]. lia. }
  pose proof (Hlen dy1 Hd1 Hwf1) as Hl1.
  pose proof (Hlen dy2 Hd2 Hwf2) as Hl2.
  intros r i Hr Hi.
  rewrite (Hdx r i Hr Hi), (Hdx1 r i Hr Hi), (Hdx2 r i Hr Hi).
  assert (Hwdy : forall j, (j < N)%nat ->
            row_wdy undef (data dy) w N r j
            = a * row_wdy undef (data dy1) w N r j
              + b * row_wdy undef (data dy2) w N r j).
  { intros j Hj. unfold row_wdy, dy. cbn [data].
    rewrite nth_combine_lin by nia. ring. }
  assert (Hc1 : row_c1 undef (data dy) (data x) w v N N r
                = a * row_c1 undef (data dy1) (data x) w v N N r
                  + b * row_c1 undef (data dy2) (data x) w v N N r).
  { unfold row_c1.
    rewrite (Rsum_map_ext _
               (fun j => a * (row_xhat undef (data x) v N r j
                              * row_wdy undef (data dy1) w N r j)
                         + b * (row_xhat undef (data x) v N r j
                                * row_wdy undef (data dy2) w N r j))).
    - rewrite Rsum_map_lin. unfold Rdiv. ring.
    - intros j Hj. apply in_seq in Hj. rewrite Hwdy by lia. ring. }
  assert (Hc2 : row_c2 undef (data dy) w N N r
                = a * row_c2 undef (data dy1) w N N r
                  + b * row_c2 undef (data dy2) w N N r).
  { unfold row_c2.
    rewrite (Rsum_map_ext _
               (fun j => a * row_wdy undef (data dy1) w N r j
                         + b * row_wdy undef (data dy2) w N r j)).
    - rewrite Rsum_map_lin. unfold Rdiv. ring.
    - intros j Hj. apply in_seq in Hj. now apply Hwdy; lia. }
  unfold row_dx. rewrite Hc1, Hc2, (Hwdy i Hi). ring.
Qed.

Lemma rmsnorm_backward_linear_witness :
  exists dx1 dx2 dx,
    rmsnorm_backward 0 (fun _ _ => 0) (Tensor [1%nat; 2%nat] [1; 0])
      (Tensor [1%nat; 2%nat] [3; 4]) [1; 1] [] [1 / 5] true (1 / 100)
      1%nat 2%nat
    = Some (Ok (Some dx1, None)) /\
    rmsnorm_backward 0 (fun _ _ => 0) (Tensor [1%nat; 2%nat] [0; 1])
      (Tensor [1%nat; 2%nat] [3; 4]) [1; 1] [] [1 / 5] true (1 / 100)
      1%nat 2%nat
    = Some (Ok (Some dx2, None)) /\
    rmsnorm_backward 0 (fun _ _ => 0)
      (Tensor [1%nat; 2%nat]
         (map (fun uv : R * R => 2 * fst uv + 3 * snd uv)
              (combine [1; 0] [0; 1])))
      (Tensor [1%nat; 2%nat] [3; 4]) [1; 1] [] [1 / 5] true (1 / 100)
      1%nat 2%nat
    = Some (Ok (Some dx, None)) /\
    nth 0 (data dx) 0 = 2 * nth 0 (data dx1) 0 + 3 * nth 0 (data dx2) 0.
Proof.
  destruct (rmsnorm_backward_linear 0 (fun _ _ => 0)
              (Tensor [1%nat; 2%nat] [1; 0]) (Tensor [1%nat; 2%nat] [0; 1])
              (Tensor [1%nat; 2%nat] [3; 4]) [1; 1] [] [1 / 5]
              (1 / 100) 2 3 1%nat 2%nat [1%nat] 2%nat)
    as (dx1 & dx2 & dx & H1 & H2 & H12 & Hlin);
    try reflexivity; try lia.
  exists dx1, dx2, dx. split; [exact H1|]. split; [exact H2|].
  split; [exact H12|].
  exact (Hlin 0%nat 0%nat ltac:(cbn; lia) ltac:(lia)).
Defined.

End RMSNormMore.

(* ================================================================== *)
(** * Answer extraction of the harness: letters, the trigger, the
      commonsense loop *)
(* ================================================================== *)

Module HarnessFacts.

Import Ascii String QArith.
Import Metrics MetricsFacts Harness.
Local Open Scope string_scope.

(** ** White space and [strip] *)

Lemma choice_is_no_space (c : ascii) : is_choice c = true -> is_space c = false.
Proof.
  unfold is_choice. intros Hc.
  repeat (apply orb_prop in Hc; destruct Hc as [Hc | Hc]);
    apply Ascii.eqb_eq in Hc; subst c; reflexivity.
Qed.

Lemma lstrip_split (s : string) :
  exists l, s = l ++ lstrip s /\ all_space l = true.
Proof.
  induction s as [|c s IH].
  - exists "". split; reflexivity.
  - cbn [lstrip]. destruct (is_space c) eqn:Hc.
    + destruct IH as (l & E & Hl). exists (String c l). split.
      * cbn [append]. now rewrite <- E.
      * cbn [all_space]. now rewrite Hc, Hl.
    + exists "". split; reflexivity.
Qed.

Lemma lstrip_idem (s : string) : lstrip (lstrip s) = lstrip s.
Proof.
  induction s as [|c s IH]; [reflexivity|].
  cbn [lstrip]. destruct (is_space c) eqn:Hc; [exact IH|].
  cbn [lstrip]. now rewrite Hc.
Qed.

Lemma rev_string_append (a b acc : string) :
  rev_string (a ++ b) acc = rev_string b (rev_string a acc).
Proof.
  revert acc. induction a as [|c a IH]; intros acc; [reflexivity|].
  cbn [append rev_string]. apply IH.
Qed.

Lemma rev_string_acc (s acc : string) :
  rev_string s acc = rev_string s "" ++ acc.
Proof.
  revert acc. induction s as [|c s IH]; intros acc; [reflexivity|].
  cbn [rev_string]. rewrite IH, (IH (String c "")).
  now rewrite append_assoc.
Qed.

Lemma rev_string_invol (s : string) : rev_string (rev_string s "") "" = s.
Proof.
  induction s as [|c s IH]; [reflexivity|].
  cbn [rev_string].
  rewrite (rev_string_acc s (String c "")), rev_string_append, IH.
  reflexivity.
Qed.

Lemma all_space_rev (s acc : string) :
  all_space s = true -> all_space acc = true ->
  all_space (rev_string s acc) = true.
Proof.
  revert acc. induction s as [|c s IH]; intros acc Hs Ha; [exact Ha|].
  cbn [all_space] in Hs. apply andb_prop in Hs as [Hc Hs].
  cbn [rev_string]. apply IH; [exact Hs|].
  cbn [all_space]. now rewrite Hc, Ha.
Qed.

(** [strip] takes white space off both ends. *)
Lemma strip_split (s : string) :
  exists l r, s = l ++ strip s ++ r /\
              all_space l = true /\ all_space r = true.
Proof.
  destruct (lstrip_split s) as (l & El & Hl).
  destruct (lstrip_split (rev_string (lstrip s) "")) as (l' & El' & Hl').
  exists l, (rev_string l' ""). split; [|split].
  - unfold strip. rewrite El at 1. f_equal.
    rewrite <- (rev_string_invol (lstrip s)) at 1.
    rewrite El' at 1. rewrite rev_string_append.
    now rewrite rev_string_acc.
  - exact Hl.
  - now apply all_space_rev.
Qed.

(** ** [extract_answer_letter] *)

Lemma first_letter_append (a b : string) :
  first_letter (a ++ b)
  = if has_choice a then first_letter a else first_letter b.
Proof.
  induction a as [|c a IH]; [reflexivity|].
  cbn [append first_letter has_choice]. unfold is_choice.
  destruct (Ascii.eqb c "A" || Ascii.eqb c "B" || Ascii.eqb c "C"
            || Ascii.eqb c "D" || Ascii.eqb c "E")%bool;
    [reflexivity | exact IH].
Qed.

Lemma has_choice_append (a b : string) :
  has_choice (a ++ b) = has_choice a || has_choice b.
Proof.
  induction a as [|c a IH]; [reflexivity|].
  cbn [append has_choice]. now rewrite IH, orb_assoc.
Qed.

Lemma all_space_no_choice (s : string) :
  all_space s = true -> has_choice s = false.
Proof.
  induction s as [|c s IH]; [reflexivity|].
  cbn [all_space has_choice]. intros Hs.
  apply andb_prop in Hs as [Hc Hs]. rewrite (IH Hs), orb_false_r.
  destruct (is_choice c) eqn:E; [|reflexivity].
  apply choice_is_no_space in E. congruence.
Qed.

Lemma first_letter_no_choice (s : string) :
  has_choice s = false -> first_letter s = "".
Proof.
  induction s as [|c s IH]; [reflexivity|].
  cbn [has_choice first_letter]. unfold is_choice.
  destruct (Ascii.eqb c "A" || Ascii.eqb c "B" || Ascii.eqb c "C"
            || Ascii.eqb c "D" || Ascii.eqb c "E")%bool;
    [discriminate | exact IH].
Qed.

(** Stripping the sentence does not change its first answer letter. *)
Lemma extract_answer_letter_is_first_letter (s : string) :
  extract_answer_letter s = first_letter s.
Proof.
  unfold extract_answer_letter.
  destruct (strip_split s) as (l & r & E & Hl & Hr).
  rewrite E at 2.
  rewrite !first_letter_append.
  rewrite (all_space_no_choice l Hl).
  destruct (has_choice (strip s)) eqn:Hc; [reflexivity|].
  rewrite (first_letter_no_choice _ Hc).
  symmetry. apply first_letter_no_choice. now apply all_space_no_choice.
Qed.

Lemma first_letter_split (s : string) :
  has_choice s = true ->
  exists pre c post,
    s = pre ++ String c post /\ has_choice pre = false /\
    is_choice c = true /\ first_letter s = String c "".
Proof.
  induction s as [|c s IH]; [discriminate|].
  cbn [has_choice first_letter]. intros Hs.
  destruct (is_choice c) eqn:Hc.
  - exists "", c, s. unfold is_choice in Hc. rewrite Hc. auto.
  - destruct (IH Hs) as (pre & c' & post & E & Hpre & Hc' & Hf).
    exists (String c pre), c', post.
    unfold is_choice in Hc. rewrite Hc.
    repeat split; try assumption.
    + cbn [append]. now rewrite E.
    + cbn [has_choice]. unfold is_choice. now rewrite Hc, Hpre.
Qed.

(** X20: [extract_answer_letter] returns the first character of the
    sentence that is one of [A], [B], [C], [D], [E], as a one-letter
    string, and the empty string when the sentence has none; later
    letters, lower-case letters and surrounding white space play no
    part. *)
Theorem extract_answer_letter_first (s : string) :
  (has_choice s = false /\ extract_answer_letter s = "")
  \/ (exists pre c post,
        s = pre ++ String c post /\ has_choice pre = false /\
        is_choice c = true /\ extract_answer_letter s = String c "").
Proof.
  rewrite extract_answer_letter_is_first_letter.
  destruct (has_choice s) eqn:Hs.
  - right. now apply first_letter_split.
  - left. split; [reflexivity | now apply first_letter_no_choice].
Qed.

(** ** [extract_output] *)

Lemma drop_append (pre s : string) : drop (String.length pre) (pre ++ s) = s.
Proof. induction pre as [|c pre IH]; [now destruct s | exact IH]. Qed.

Lemma find_from_first (pre trigger post : string) (i : Z) :
  (forall pre' post', pre ++ trigger ++ post = pre' ++ trigger ++ post' ->
     (String.length pre <= String.length pre')%nat) ->
  find_from i (pre ++ trigger ++ post) trigger
  = (i + Z.of_nat (String.length pre))%Z.
Proof.
  revert i. induction pre as [|c pre IH]; intros i Hmin.
  - cbn [append String.length].
    assert (Hp : prefix trigger (trigger ++ post) = true)
      by apply prefix_append.
    destruct (trigger ++ post); cbn [find_from]; rewrite Hp; lia.
  - cbn [append find_from].
    destruct (prefix trigger (String c (pre ++ trigger ++ post))) eqn:Hp.
    + exfalso. destruct (prefix_occurs _ _ Hp) as [post' E].
      specialize (Hmin "" post' E). cbn in Hmin. lia.
    + rewrite IH.
      * cbn [String.length]. lia.
      * intros pre' post' E.
        specialize (Hmin (String c pre') post').
        cbn [append String.length] in Hmin.
        rewrite E in Hmin. specialize (Hmin eq_refl). lia.
Qed.

(** X21: with a non-empty trigger that occurs in the decoded text,
    [extract_output] returns what follows the first occurrence of the
    trigger, with the leading white space removed; so the result never
    starts with white space. *)
Theorem extract_output_after_first_trigger
  (pred trigger pre post : string) :
  trigger <> "" ->
  pred = pre ++ trigger ++ post ->
  (forall pre' post', pred = pre' ++ trigger ++ post' ->
     (String.length pre <= String.length pre')%nat) ->
  extract_output pred trigger = lstrip post /\
  lstrip (extract_output pred trigger) = extract_output pred trigger.
Proof.
  intros Hne -> Hmin.
  assert (E : extract_output (pre ++ trigger ++ post) trigger = lstrip post).
  { unfold extract_output.
    destruct (String.length trigger =? 0)%nat eqn:Hl.
    - apply length_zero in Hl. contradiction.
    - unfold find. rewrite (find_from_first pre trigger post 0 Hmin).
      destruct (Z.ltb_spec (0 + Z.of_nat (String.length pre)) 0); [lia|].
      replace (Z.to_nat (0 + Z.of_nat (String.length pre)
                         + Z.of_nat (String.length trigger)))
        with (String.length (pre ++ trigger))
        by (rewrite length_append; lia).
      rewrite <- append_assoc. now rewrite drop_append. }
  rewrite E. split; [reflexivity | apply lstrip_idem].
Qed.

Lemma extract_output_after_first_trigger_witness :
  extract_output "ans: 7 ans: 8" "ans:" = "7 ans: 8".
Proof.
  apply (extract_output_after_first_trigger
           "ans: 7 ans: 8" "ans:" "" " 7 ans: 8").
  - discriminate.
  - reflexivity.
  - intros pre' post' _. simpl. lia.
Defined.

(** ** The letter comparison of [compute_metrics] *)

Lemma strip_letter (c : ascii) :
  is_space c = false -> strip (String c "") = String c "".
Proof.
  intros Hc. unfold strip. cbn [lstrip]. rewrite Hc.
  cbn [rev_string lstrip]. rewrite Hc. reflexivity.
Qed.

(** X22: in the letter branch of the scoring, a generation is counted
    correct exactly when the ground truth, with its surrounding white
    space removed, is the first of the letters [A] .. [E] in the
    generation; a generation without any of these letters is counted
    correct only against a blank ground truth. *)
Theorem score_letter_first_choice (answer raw_generation : string) :
  (score_letter answer raw_generation = true
   <-> strip answer = extract_answer_letter raw_generation) /\
  (has_choice raw_generation = false ->
   (score_letter answer raw_generation = true <-> strip answer = "")).
Proof.
  assert (Hstrip : strip (extract_answer_letter raw_generation)
                   = extract_answer_letter raw_generation).
  { destruct (extract_answer_letter_first raw_generation)
      as [(_ & ->) | (pre & c & post & _ & _ & Hc & ->)].
    - reflexivity.
    - apply strip_letter. now apply choice_is_no_space. }
  assert (Hiff : score_letter answer raw_generation = true
                 <-> strip answer = extract_answer_letter raw_generation).
  { unfold score_letter. rewrite Hstrip, String.eqb_eq.
    split; intros E; now symmetry. }
  split; [exact Hiff|].
  intros Hno. rewrite Hiff, extract_answer_letter_is_first_letter.
  now rewrite (first_letter_no_choice _ Hno).
Qed.

(** ** The loop on the commonsense task *)

Lemma fold_score_commonsense (trigger_tokens : string)
  (items : list (example * string)) (c t : nat)
  (g : list generation_entry) :
  fold_left (score_commonsense trigger_tokens) items (c, t, g)
  = ((c + List.length (filter (matches trigger_tokens) items))%nat,
     (t + List.length items)%nat,
     (g ++ map (fun item =>
                  let raw := extract_output (snd item) trigger_tokens in
                  GenerationEntry (instruction (fst item)) raw raw
                                  (answer (fst item)))
               items)%list).
Proof.
  revert c t g. induction items as [|[ex pred] items IH]; intros c t g.
  - cbn. now rewrite !Nat.add_0_r, app_nil_r.
  - cbn [fold_left score_commonsense filter map List.length].
    assert (Hm : matches trigger_tokens (ex, pred)
                 = String.eqb (strip (extract_output pred trigger_tokens))
                              (strip (answer ex))) by reflexivity.
    rewrite Hm.
    destruct (String.eqb (strip (extract_output pred trigger_tokens))
                         (strip (answer ex)));
      rewrite IH; cbn [List.length fst snd]; rewrite <- app_assoc;
      cbn [app]; repeat (f_equal; try lia).
Qed.

(** X23: on the commonsense task, [compute_metrics] ends in a
    [ZeroDivisionError] when there is nothing to evaluate.  On a
    non-empty evaluation set it returns one log entry per item, in
    order, and as accuracy the number of items whose extracted
    generation equals the ground truth up to surrounding white space,
    divided by the number of items: a rational between 0 and 1. *)
Theorem compute_metrics_commonsense_accuracy (trigger_tokens : string) :
  compute_metrics_commonsense trigger_tokens nil = Raise ZeroDivisionError /\
  forall item items,
    let all := (item :: items)%list in
    let correct := List.length (filter (matches trigger_tokens) all) in
    exists generations accuracy,
      compute_metrics_commonsense trigger_tokens all
      = Ok (generations, accuracy) /\
      accuracy = (Z.of_nat correct # Pos.of_nat (List.length all)) /\
      0 <= accuracy <= 1 /\
      List.length generations = List.length all /\
      generations
      = map (fun item =>
               let raw := extract_output (snd item) trigger_tokens in
               GenerationEntry (instruction (fst item)) raw raw
                               (answer (fst item)))
            all.
Proof.
  split; [reflexivity|].
  intros item items all correct.
  unfold compute_metrics_commonsense.
  rewrite fold_score_commonsense. cbn [Nat.add app].
  fold all. fold correct.
  assert (Hlen : List.length all = S (List.length items)) by reflexivity.
  assert (Hc : (correct <= List.length all)%nat) by apply filter_length_le.
  destruct (List.length all) as [|n] eqn:Hn; [discriminate|].
  do 2 eexists. split; [reflexivity|].
  split; [reflexivity|].
  split; [|split].
  - unfold Qle. cbn [Qnum Qden]. split.
    + lia.
    + rewrite Z.mul_1_r, Z.mul_1_l.
      rewrite <- Pos.of_nat_succ, Zpos_P_of_succ_nat. lia.
  - rewrite length_map. exact Hn.
  - reflexivity.
Qed.

End HarnessFacts.
